(** * The hypervisor's visor registry and RPC dispatch layer

    A shallow embedding of [pkg/hypervisor/hypervisor.go]: the table of
    connected visors, the request-context resolvers ([visorCtx], [appCtx],
    [tpCtx], [routeCtx]) and the handlers that dispatch RPC calls through
    them ([getHealth], [getVisors], [getRoute], ...).

    Handlers are modelled as functions that return the sequence of effects
    they perform (lock operations on [hv.mu], RPC calls, [WriteJSON]); the
    registry is a finite map that is passed explicitly. *)

From Stdlib Require Import Ascii String ZArith NArith Lia.
From stdpp Require Import base option list gmap strings numbers pretty.

Open Scope string_scope.
Open Scope list_scope.

(** ** Values of the surrounding packages *)

(** A Go [error], carrying the text that [Error()] returns. *)
Record error := mkError { Error : string }.

(** A Go [(value, error)] result pair: either the value, or a non-nil
    error. *)
Inductive result (A : Type) :=
| Ok (a : A)
| Err (e : error).
Arguments Ok {A} a.
Arguments Err {A} e.

Definition is_ok {A} (r : result A) : bool :=
  match r with Ok _ => true | Err _ => false end.

(** [cipher.PubKey] is a 33-byte array, [uuid.UUID] a 16-byte array and
    [routing.RouteID] a [uint32]; each is kept as the number its bytes
    spell. *)
Definition PubKey := N.
Definition UUID := N.
Definition RouteID := N.
(** [time.Time] as nanoseconds since the Unix epoch, [time.Duration] as
    nanoseconds. *)
Definition Time := Z.
Definition Duration := Z.

(** [dmsg.Addr]. *)
Record Addr := mkAddr { PK : PubKey; Port : N }.

(** [visor.AppState]; its declaration is in [pkg/visor], only [Name] is
    read by the code embedded here. *)
Record AppState := mkAppState {
  Name : string;
  AutoStart : bool;
  AppPort : N;
}.

(** [visor.TransportSummary]; declared in [pkg/visor]. *)
Record TransportSummary := mkTransportSummary {
  ID : UUID;
  Local : PubKey;
  Remote : PubKey;
  TpType : string;
}.

(** [visor.Summary]; declared in [pkg/visor].  [PubKey] is the only field
    the hypervisor sets itself. *)
Record Summary := mkSummary {
  SumPubKey : PubKey;
  AppProtoVersion : string;
  SumApps : list AppState;
  SumTransports : list TransportSummary;
  RoutesCount : Z;
}.

(** The Go composite literal [&visor.Summary{PubKey: pk}]: every other
    field keeps its zero value. *)
Definition Summary_of_pk (pk : PubKey) : Summary :=
  {| SumPubKey := pk; AppProtoVersion := ""; SumApps := [];
     SumTransports := []; RoutesCount := 0%Z |}.

(** [visor.HealthInfo]; declared in [pkg/visor]. *)
Record HealthInfo := mkHealthInfo {
  TransportDiscovery : Z;
  RouteFinder : Z;
  SetupNode : Z;
}.

(** [routing.Rule] is a byte slice. *)
Definition Rule := list N.

(** ** Constants *)

Definition Second : Duration := 1000000000%Z.
Definition healthTimeout : Duration := (5 * Second)%Z.
Definition httpTimeout : Duration := (30 * Second)%Z.

Definition StatusOK : Z := 200%Z.
Definition StatusBadRequest : Z := 400%Z.
Definition StatusNotFound : Z := 404%Z.
Definition StatusRequestTimeout : Z := 408%Z.
Definition StatusInternalServerError : Z := 500%Z.

(** ** The RPC capability of one visor

    [visor.RPCClient] is an interface implemented outside this package.  A
    client is modelled by what the remote visor answers to each call during
    the request at hand; [HealthLatency] is the time [Health()] takes to
    return ([None]: it never returns). *)
Record RPCClient := mkRPCClient {
  rpcSummary : result Summary;
  rpcHealth : result HealthInfo;
  HealthLatency : option Duration;
  rpcUptime : result Z;
  rpcApps : result (list AppState);
  rpcLogsSince : Time -> string -> result (list string);
  rpcTransport : UUID -> result TransportSummary;
  rpcRemoveTransport : UUID -> option error;
  rpcRoutingRule : RouteID -> result Rule;
  rpcRemoveRoutingRule : RouteID -> option error;
  rpcRestart : option error;
}.

(** The interactive-session capability [*dmsgpty.UI]: the address its
    dialer was built for ([None] is the nil pointer). *)
Definition PtyUI := option Addr.

(** [VisorConn] represents a visor connection. *)
Record VisorConn := mkVisorConn {
  VAddr : Addr;
  RPC : RPCClient;
  VPtyUI : PtyUI;
}.

(** [Hypervisor]: of its fields only the table of connected visors is
    modelled; [mu] shows up as lock events in the effect traces. *)
Record Hypervisor := mkHypervisor {
  visors : gmap PubKey VisorConn;
}.

(** [New] starts with an empty table. *)
Definition New : Hypervisor := {| visors := ∅ |}.

(** ** What the hypervisor takes from other packages

    Functions, constants and one type that the file uses and that are
    declared in other packages ([cipher], [uuid], [dmsg], [httputil],
    [time], [skyenv], [pkg/visor], [pkg/app], [pkg/routing]).  The
    development is parametric in them. *)

(** An HTTP request, as far as the handlers read it: the path parameters
    bound by the router ([chi.URLParam]) and the URL query. *)
Record Request := mkRequest {
  URLParams : gmap string string;
  Query : gmap string (list string);
}.

Class External := {
  (** [routing.RuleSummary] *)
  RuleSummary : Type;
  (** [cipher.PubKey.UnmarshalText] and [cipher.PubKey.String] *)
  PubKey_UnmarshalText : string -> result PubKey;
  PubKey_String : PubKey -> string;
  (** [uuid.Parse] and [uuid.UUID.String] *)
  uuid_Parse : string -> result UUID;
  uuid_String : UUID -> string;
  (** [dmsg.Addr.String] *)
  Addr_String : Addr -> string;
  (** [httputil.BoolFromQuery] *)
  BoolFromQuery : Request -> string -> bool -> result bool;
  (** [time.Parse(time.RFC3339Nano, _)] *)
  time_Parse_RFC3339Nano : string -> result Time;
  (** [skyenv.DmsgPtyPort] *)
  DmsgPtyPort : N;
  (** [visor.ErrNotFound] *)
  ErrNotFound : error;
  (** [app.TimestampFromLog] *)
  TimestampFromLog : string -> string;
  (** [routing.Rule.Summary] *)
  Rule_Summary : Rule -> RuleSummary;
}.

(** [chi.URLParam(r, key)]: the empty string when the parameter is not
    bound. *)
Definition URLParam (r : Request) (key : string) : string :=
  default "" (URLParams r !! key).

(** [r.URL.Query().Get(key)]: the first value, or the empty string. *)
Definition Query_Get (r : Request) (key : string) : string :=
  match Query r !! key with
  | Some (v :: _) => v
  | _ => ""
  end.

(** [strings.Replace(s, " ", "+", 1)]: the first space becomes a plus. *)
Fixpoint replace_first_space (s : string) : string :=
  match s with
  | EmptyString => EmptyString
  | String c rest =>
      if Ascii.eqb c " "%char then String "+"%char rest
      else String c (replace_first_space rest)
  end.

(** [hex.EncodeToString]: two lower-case digits per byte. *)
Definition hex_digit (n : N) : ascii :=
  match n with
  | 0 => "0" | 1 => "1" | 2 => "2" | 3 => "3" | 4 => "4" | 5 => "5"
  | 6 => "6" | 7 => "7" | 8 => "8" | 9 => "9" | 10 => "a" | 11 => "b"
  | 12 => "c" | 13 => "d" | 14 => "e" | _ => "f"
  end%N%char.

Fixpoint hex_EncodeToString (bs : list N) : string :=
  match bs with
  | [] => EmptyString
  | b :: rest =>
      String (hex_digit (N.land (N.shiftr b 4) 15))
        (String (hex_digit (N.land b 15)) (hex_EncodeToString rest))
  end.

(** [strconv.ParseUint(s, 10, 32)]: a non-empty run of decimal digits
    whose value fits 32 bits; anything else is an error. *)
Definition digit_of (c : ascii) : option N :=
  let n := N_of_ascii c in
  if (48 <=? n)%N && (n <=? 57)%N then Some (n - 48)%N else None.

Fixpoint parse_digits (s : string) (acc : N) : option N :=
  match s with
  | EmptyString => Some acc
  | String c rest =>
      match digit_of c with
      | Some d => parse_digits rest (10 * acc + d)%N
      | None => None
      end
  end.

Definition ParseUint32 (s : string) : option N :=
  match s with
  | EmptyString => None
  | _ =>
      match parse_digits s 0%N with
      | Some n => if (n <=? 4294967295)%N then Some n else None
      | None => None
      end
  end.

Section Hypervisor.
Context `{ext : External}.

(** ** The accept loop *)

(** An accepted dmsg stream: its remote address, and the RPC client that
    [visor.NewRPCClient(rpc.NewClient(conn), ...)] builds on it. *)
Record Stream := mkStream {
  RawRemoteAddr : Addr;
  NewRPCClient : RPCClient;
}.

(** The body of the loop of [ServeRPC] for one accepted stream: the new
    connection is stored under the public key of its remote address,
    replacing whatever was stored there. *)
Definition accept (hv : Hypervisor) (conn : Stream) : Hypervisor :=
  let addr := RawRemoteAddr conn in
  let visorConn := {| VAddr := addr;
                      RPC := NewRPCClient conn;
                      VPtyUI := Some {| PK := PK addr; Port := DmsgPtyPort |} |} in
  {| visors := <[PK addr := visorConn]> (visors hv) |}.

(** [ServeRPC] over the outcomes of successive [lis.AcceptStream()] calls:
    the first error ends the loop and is returned; when the outcomes run
    out the loop is still blocked in [AcceptStream] ([None]). *)
Fixpoint ServeRPC (hv : Hypervisor) (incoming : list (result Stream))
  : Hypervisor * option error :=
  match incoming with
  | [] => (hv, None)
  | Err e :: _ => (hv, Some e)
  | Ok conn :: rest => ServeRPC (accept hv conn) rest
  end.

(** ** Responses and effects *)

(** [VisorHealth]: a visor's health report attached to the status of the
    hypervisor-to-visor request. *)
Record VisorHealth := mkVisorHealth {
  Status : Z;
  VHHealthInfo : option HealthInfo;
}.

Record summaryResp := mkSummaryResp {
  TCPAddr : string;
  Online : bool;
  RespSummary : option Summary;
}.

(** The zero value a freshly made [[]summaryResp] holds in each slot. *)
Definition zero_summaryResp : summaryResp :=
  {| TCPAddr := ""; Online := false; RespSummary := None |}.

Record LogsRes := mkLogsRes {
  LastLogTimestamp : string;
  Logs : list string;
}.

Record routingRuleResp := mkRoutingRuleResp {
  Key : RouteID;
  RuleHex : string;
  RuleSum : option RuleSummary;
}.

Definition makeRoutingRuleResp (key : RouteID) (rule : Rule) (summary : bool)
  : routingRuleResp :=
  {| Key := key;
     RuleHex := hex_EncodeToString rule;
     RuleSum := if summary then Some (Rule_Summary rule) else None |}.

(** The value handed to [httputil.WriteJSON]. *)
Inductive Body :=
| BErr (e : error)
| BBool (b : bool)
| BHealth (vh : VisorHealth)
| BUptime (u : Z)
| BSummaries (l : list summaryResp)
| BSummary (s : summaryResp)
| BApps (l : list AppState)
| BApp (a : option AppState)
| BLogs (l : LogsRes)
| BTransport (t : option TransportSummary)
| BRule (r : routingRuleResp).

(** The remote calls the embedded handlers issue. *)
Inductive Call :=
| CallSummary
| CallHealth
| CallUptime
| CallApps
| CallLogsSince (t : Time) (app : string)
| CallTransport (tid : UUID)
| CallRemoveTransport (tid : UUID)
| CallRoutingRule (rid : RouteID)
| CallRemoveRoutingRule (rid : RouteID)
| CallRestart.

(** What a handler does that is visible outside it: operations on the
    registry lock [hv.mu], an RPC call on the client of the visor with
    the given address, and the response written. *)
Inductive Event :=
| EvRLock
| EvRUnlock
| EvLock
| EvUnlock
| EvRPC (visor : Addr) (c : Call)
| EvWriteJSON (status : Z) (body : Body).

(** A computation that performs effects and returns a value. *)
Definition Eff (A : Type) : Type := list Event * A.

Definition ret {A} (a : A) : Eff A := ([], a).

Definition bind {A B} (m : Eff A) (k : A -> Eff B) : Eff B :=
  let '(t1, a) := m in
  let '(t2, b) := k a in
  (t1 ++ t2, b).

Definition emit (e : Event) : Eff unit := ([e], tt).

(** [httputil.WriteJSON(w, r, status, body)] *)
Definition WriteJSON (status : Z) (body : Body) : Eff unit :=
  emit (EvWriteJSON status body).

(** A call through [c.RPC]: the call is issued, and the answer is the
    client's. *)
Definition call {A} (c : VisorConn) (what : Call) (answer : RPCClient -> A) : Eff A :=
  ([EvRPC (VAddr c) what], answer (RPC c)).

Notation "x <- m ;; k" := (bind m (fun x => k))
  (at level 100, m at next level, right associativity).
Notation "m ;;; k" := (bind m (fun _ => k))
  (at level 100, right associativity).

(** The effects of a computation, and the response it wrote (the first
    [WriteJSON], if any). *)
Definition trace {A} (m : Eff A) : list Event := m.1.

Fixpoint response (t : list Event) : option (Z * Body) :=
  match t with
  | [] => None
  | EvWriteJSON st b :: _ => Some (st, b)
  | _ :: rest => response rest
  end.

Definition is_rpc (e : Event) : bool :=
  match e with EvRPC _ _ => true | _ => false end.

Definition is_lock_op (e : Event) : bool :=
  match e with
  | EvRLock | EvRUnlock | EvLock | EvUnlock => true
  | _ => false
  end.

(** The RPC calls of a trace, in order. *)
Definition rpc_calls (t : list Event) : list Event := filter is_rpc t.

(** ** Helper functions *)

(** [visorConn]: the lookup under the read lock.  The Go function returns
    [(conn, ok)]; [None] stands for [ok = false]. *)
Definition visorConn (hv : Hypervisor) (pk : PubKey) : Eff (option VisorConn) :=
  emit EvRLock ;;;
  let conn := visors hv !! pk in
  emit EvRUnlock ;;;
  ret conn.

Record httpCtx := mkHttpCtx {
  (* Hypervisor *)
  Conn : VisorConn;
  (* App *)
  App : option AppState;
  (* Transport *)
  Tp : option TransportSummary;
  (* Route *)
  RtKey : RouteID;
}.

(** [valuesFunc] returns [(ctx, ok)]: [None] stands for [ok = false]. *)
Definition valuesFunc := Request -> Eff (option httpCtx).
Definition handlerFunc := Request -> httpCtx -> Eff unit.

Definition withCtx (vFunc : valuesFunc) (hFunc : handlerFunc) (r : Request) : Eff unit :=
  rv <- vFunc r ;;
  match rv with
  | Some ctx => hFunc r ctx
  | None => ret tt
  end.

Definition pkFromParam (r : Request) (key : string) : result PubKey :=
  PubKey_UnmarshalText (URLParam r key).

Definition uuidFromParam (r : Request) (key : string) : result UUID :=
  uuid_Parse (URLParam r key).

Definition ridFromParam (r : Request) (key : string) : result RouteID :=
  match ParseUint32 (URLParam r key) with
  | None => Err (mkError "invalid route ID provided")
  | Some rid => Ok rid
  end.

Definition visorCtx (hv : Hypervisor) : valuesFunc := fun r =>
  match pkFromParam r "pk" with
  | Err err =>
      WriteJSON StatusBadRequest (BErr err) ;;;
      ret None
  | Ok pk =>
      v <- visorConn hv pk ;;
      match v with
      | None =>
          WriteJSON StatusNotFound
            (BErr (mkError ("visor of pk '" ++ PubKey_String pk ++ "' not found"))) ;;;
          ret None
      | Some visor =>
          ret (Some {| Conn := visor; App := None; Tp := None; RtKey := 0%N |})
      end
  end.

Definition appCtx (hv : Hypervisor) : valuesFunc := fun r =>
  c <- visorCtx hv r ;;
  match c with
  | None => ret None
  | Some ctx =>
      let appName := URLParam r "app" in
      apps <- call (Conn ctx) CallApps rpcApps ;;
      match apps with
      | Err err =>
          WriteJSON StatusInternalServerError (BErr err) ;;;
          ret None
      | Ok apps =>
          match List.find (fun a => String.eqb (Name a) appName) apps with
          | Some a =>
              ret (Some {| Conn := Conn ctx; App := Some a; Tp := Tp ctx; RtKey := RtKey ctx |})
          | None =>
              let errMsg := mkError ("can not find app of name " ++ appName ++
                                     " from visor " ++ PubKey_String (PK (VAddr (Conn ctx)))) in
              WriteJSON StatusNotFound (BErr errMsg) ;;;
              ret None
          end
      end
  end.

Definition tpCtx (hv : Hypervisor) : valuesFunc := fun r =>
  c <- visorCtx hv r ;;
  match c with
  | None => ret None
  | Some ctx =>
      match uuidFromParam r "tid" with
      | Err err =>
          WriteJSON StatusBadRequest (BErr err) ;;;
          ret None
      | Ok tid =>
          tp <- call (Conn ctx) (CallTransport tid) (fun c => rpcTransport c tid) ;;
          match tp with
          | Err err =>
              if String.eqb (Error err) (Error ErrNotFound) then
                let errMsg := mkError ("transport of ID " ++ uuid_String tid ++ " is not found") in
                WriteJSON StatusNotFound (BErr errMsg) ;;;
                ret None
              else
                WriteJSON StatusInternalServerError (BErr err) ;;;
                ret None
          | Ok tp =>
              ret (Some {| Conn := Conn ctx; App := App ctx; Tp := Some tp; RtKey := RtKey ctx |})
          end
      end
  end.

Definition routeCtx (hv : Hypervisor) : valuesFunc := fun r =>
  c <- visorCtx hv r ;;
  match c with
  | None => ret None
  | Some ctx =>
      match ridFromParam r "rid" with
      | Err err =>
          WriteJSON StatusBadRequest (BErr err) ;;;
          ret None
      | Ok rid =>
          ret (Some {| Conn := Conn ctx; App := App ctx; Tp := Tp ctx; RtKey := rid |})
      end
  end.

(** ** The health probe: one call raced against a deadline

    [getHealth] makes an unbuffered channel [resCh], starts the timer
    [tCh := time.After(healthTimeout)], starts a goroutine that calls
    [ctx.RPC.Health()] and then sends the outcome on [resCh], and selects
    on the two channels.  The two goroutines are modelled as a machine
    whose clock jumps to the next instant at which something happens. *)

(** The goroutine started by [go func() { ... }()]: inside
    [ctx.RPC.Health()], at the send [resCh <- healthRes{hi, err}], or past
    it. *)
Inductive GState :=
| GCalling
| GSending (res : result HealthInfo)
| GExited.

(** The handler: at the [select], or returned. *)
Inductive HState :=
| HSelect
| HReturned.

Record HealthSt := mkHealthSt {
  now : Duration;          (* time since the handler started *)
  tFired : bool;           (* a value is waiting on [tCh] *)
  gor : GState;
  hdl : HState;
  written : list Event;    (* what the handler has written *)
}.

Definition health_init : HealthSt :=
  {| now := 0%Z; tFired := false; gor := GCalling; hdl := HSelect; written := [] |}.

(** [case res := <-resCh]: the send and the receive meet, the goroutine
    runs to its end and the handler reports the outcome of the call. *)
Definition health_recv (res : result HealthInfo) (st : HealthSt) : HealthSt :=
  let vh := match res with
            | Err _ => {| Status := StatusInternalServerError; VHHealthInfo := None |}
            | Ok h => {| Status := StatusOK; VHHealthInfo := Some h |}
            end in
  {| now := now st; tFired := tFired st; gor := GExited; hdl := HReturned;
     written := written st ++ [EvWriteJSON StatusOK (BHealth vh)] |}.

(** [case <-tCh]: the handler reports the timeout and returns; the
    goroutine is left as it is. *)
Definition health_timeout (st : HealthSt) : HealthSt :=
  {| now := now st; tFired := true; gor := gor st; hdl := HReturned;
     written := written st ++
       [EvWriteJSON StatusRequestTimeout
          (BHealth {| Status := StatusRequestTimeout; VHHealthInfo := None |})] |}.

(** One step of the machine, [None] when nothing can happen any more.
    [pick] is the choice Go's [select] makes when both of its cases are
    ready: [true] for [resCh], [false] for [tCh]. *)
Definition health_step (pick : bool) (c : RPCClient) (st : HealthSt) : option HealthSt :=
  match hdl st with
  | HSelect =>
      match gor st, tFired st with
      | GSending res, true => Some (if pick then health_recv res st else health_timeout st)
      | GSending res, false => Some (health_recv res st)
      | _, true => Some (health_timeout st)
      | _, false =>
          (* neither case is ready: the handler sleeps until the call
             returns or the timer fires, whichever is first.  The timer
             is armed before the goroutine is started, so a call that
             takes [healthTimeout] or longer returns after the timer has
             fired, and the parked [select] is completed by the timer. *)
          match HealthLatency c with
          | Some t =>
              if (t <? healthTimeout)%Z then
                Some {| now := t; tFired := false; gor := GSending (rpcHealth c);
                        hdl := HSelect; written := written st |}
              else
                Some {| now := healthTimeout; tFired := true; gor := gor st;
                        hdl := HSelect; written := written st |}
          | None =>
              Some {| now := healthTimeout; tFired := true; gor := gor st;
                      hdl := HSelect; written := written st |}
          end
      end
  | HReturned =>
      match gor st with
      | GCalling =>
          (* the abandoned call is not cancelled: it returns when it
             returns, and the goroutine moves on to its send *)
          match HealthLatency c with
          | Some t =>
              Some {| now := Z.max (now st) t; tFired := tFired st;
                      gor := GSending (rpcHealth c); hdl := HReturned;
                      written := written st |}
          | None => None
          end
      | GSending _ =>
          (* [resCh] has no buffer and its only receiver has returned:
             the send cannot proceed *)
          None
      | GExited => None
      end
  end.

Fixpoint health_run (fuel : nat) (pick : bool) (c : RPCClient) (st : HealthSt) : HealthSt :=
  match fuel with
  | O => st
  | S fuel' =>
      match health_step pick c st with
      | Some st' => health_run fuel' pick c st'
      | None => st
      end
  end.

(** The machine is at rest after at most [health_fuel] steps (see
    [health_run_rest]). *)
Definition health_fuel : nat := 3.

Definition health_final (pick : bool) (c : RPCClient) : HealthSt :=
  health_run health_fuel pick c health_init.

(** ** Handlers *)

(** [getHealth]: the handler issues [Health()] on its goroutine and
    writes what the race decides. *)
Definition getHealth (hv : Hypervisor) (pick : bool) : Request -> Eff unit :=
  withCtx (visorCtx hv) (fun r ctx =>
    emit (EvRPC (VAddr (Conn ctx)) CallHealth) ;;;
    (written (health_final pick (RPC (Conn ctx))), tt)).

(** [getUptime] gets given visor's uptime. *)
Definition getUptime (hv : Hypervisor) : Request -> Eff unit :=
  withCtx (visorCtx hv) (fun r ctx =>
    u <- call (Conn ctx) CallUptime rpcUptime ;;
    match u with
    | Err err => WriteJSON StatusInternalServerError (BErr err)
    | Ok u => WriteJSON StatusOK (BUptime u)
    end).

(** The goroutine [getVisors] starts for the entry [(pk, c)]: the value
    it stores in its slot. *)
Definition summaryTask (pk : PubKey) (c : VisorConn) : Eff summaryResp :=
  r <- call c CallSummary rpcSummary ;;
  let summary := match r with
                 | Err _ => Summary_of_pk pk
                 | Ok summary => summary
                 end in
  ret {| TCPAddr := Addr_String (VAddr c);
         Online := is_ok r;
         RespSummary := Some summary |}.

(** Goroutine [i] runs: it was started for the [i]-th entry that the
    [range] over the map produced, and stores into [summaries[i]]. *)
Definition runTask (entries : list (PubKey * VisorConn))
    (st : Eff (list summaryResp)) (i : nat) : Eff (list summaryResp) :=
  match entries !! i with
  | Some (pk, c) =>
      summaries <- st ;;
      resp <- summaryTask pk c ;;
      ret (<[i := resp]> summaries)
  | None => st
  end.

(** What the goroutine of one entry amounts to: the value it stores, the
    call it issues, and the store into its slot. *)
Definition slot_of (e : PubKey * VisorConn) : summaryResp :=
  (summaryTask e.1 e.2).2.

Definition task_events (entries : list (PubKey * VisorConn)) (i : nat) : list Event :=
  match entries !! i with
  | Some e => [EvRPC (VAddr e.2) CallSummary]
  | None => []
  end.

Definition store (entries : list (PubKey * VisorConn))
    (summaries : list summaryResp) (i : nat) : list summaryResp :=
  match entries !! i with
  | Some e => <[i := slot_of e]> summaries
  | None => summaries
  end.

(** A registry entry whose [Summary()] call fails. *)
Definition summary_fails (e : PubKey * VisorConn) : Prop :=
  is_ok (rpcSummary (RPC e.2)) = false.

(** [getVisors] provides summary of all visors.

    [order] is the sequence of entries that [for pk, c := range hv.visors]
    produces, and [sched] the order in which the goroutines get to run;
    Go fixes neither.  The slice is made with [len(hv.visors)] slots. *)
Definition getVisors (hv : Hypervisor) (order : list (PubKey * VisorConn))
    (sched : list nat) (r : Request) : Eff unit :=
  emit EvRLock ;;;
  let n := size (visors hv) in
  summaries <- foldl (runTask order) (ret (replicate n zero_summaryResp)) sched ;;
  emit EvRUnlock ;;;
  WriteJSON StatusOK (BSummaries summaries).

(** What Go guarantees of [order]: every entry of the map once. *)
Definition range_of (hv : Hypervisor) (order : list (PubKey * VisorConn)) : Prop :=
  order ≡ₚ map_to_list (visors hv).

(** What [wg.Wait()] guarantees of [sched]: every goroutine has run. *)
Definition schedule_of (order : list (PubKey * VisorConn)) (sched : list nat) : Prop :=
  sched ≡ₚ seq 0 (length order).

(** The summaries a run of [getVisors] writes. *)
Definition summaries_written (t : list Event) : list summaryResp :=
  match response t with
  | Some (_, BSummaries l) => l
  | _ => []
  end.

(** [getVisor] provides summary of single visor. *)
Definition getVisor (hv : Hypervisor) : Request -> Eff unit :=
  withCtx (visorCtx hv) (fun r ctx =>
    summary <- call (Conn ctx) CallSummary rpcSummary ;;
    match summary with
    | Err err => WriteJSON StatusInternalServerError (BErr err)
    | Ok summary =>
        WriteJSON StatusOK
          (BSummary {| TCPAddr := Addr_String (VAddr (Conn ctx));
                       Online := false;
                       RespSummary := Some summary |})
    end).

(** [getApps] returns app summaries of a given node of pk. *)
Definition getApps (hv : Hypervisor) : Request -> Eff unit :=
  withCtx (visorCtx hv) (fun r ctx =>
    apps <- call (Conn ctx) CallApps rpcApps ;;
    match apps with
    | Err err => WriteJSON StatusInternalServerError (BErr err)
    | Ok apps => WriteJSON StatusOK (BApps apps)
    end).

(** [getApp] returns an app summary of a given visor's pk and app name. *)
Definition getApp (hv : Hypervisor) : Request -> Eff unit :=
  withCtx (appCtx hv) (fun r ctx => WriteJSON StatusOK (BApp (App ctx))).

(** [ctx.App.Name]; [appCtx] never hands out a context without an app
    (see [appCtx_App]). *)
Definition App_Name (ctx : httpCtx) : string :=
  match App ctx with
  | Some a => Name a
  | None => ""
  end.

Definition appLogsSince (hv : Hypervisor) : Request -> Eff unit :=
  withCtx (appCtx hv) (fun r ctx =>
    let since := Query_Get r "since" in
    let since := replace_first_space since in
    (* if time is not parsable or empty default to return all logs *)
    let t := match time_Parse_RFC3339Nano since with
             | Ok t => t
             | Err _ => 0%Z
             end in
    logs <- call (Conn ctx) (CallLogsSince t (App_Name ctx))
                 (fun c => rpcLogsSince c t (App_Name ctx)) ;;
    match logs with
    | Err err => WriteJSON StatusInternalServerError (BErr err)
    | Ok logs =>
        if (length logs =? 0)%nat then
          WriteJSON StatusInternalServerError (BErr (mkError "no new available logs"))
        else
          WriteJSON StatusOK
            (BLogs {| LastLogTimestamp := TimestampFromLog (List.last logs "");
                      Logs := logs |})
    end).

Definition getTransport (hv : Hypervisor) : Request -> Eff unit :=
  withCtx (tpCtx hv) (fun r ctx => WriteJSON StatusOK (BTransport (Tp ctx))).

(** [ctx.Tp.ID]; [tpCtx] never hands out a context without a transport. *)
Definition Tp_ID (ctx : httpCtx) : UUID :=
  match Tp ctx with
  | Some tp => ID tp
  | None => 0%N
  end.

Definition deleteTransport (hv : Hypervisor) : Request -> Eff unit :=
  withCtx (tpCtx hv) (fun r ctx =>
    e <- call (Conn ctx) (CallRemoveTransport (Tp_ID ctx))
              (fun c => rpcRemoveTransport c (Tp_ID ctx)) ;;
    match e with
    | Some err => WriteJSON StatusInternalServerError (BErr err)
    | None => WriteJSON StatusOK (BBool true)
    end).

Definition getRoute (hv : Hypervisor) : Request -> Eff unit :=
  withCtx (routeCtx hv) (fun r ctx =>
    match BoolFromQuery r "summary" true with
    | Err err => WriteJSON StatusBadRequest (BErr err)
    | Ok qSummary =>
        rule <- call (Conn ctx) (CallRoutingRule (RtKey ctx))
                     (fun c => rpcRoutingRule c (RtKey ctx)) ;;
        match rule with
        | Err err => WriteJSON StatusNotFound (BErr err)
        | Ok rule =>
            WriteJSON StatusOK (BRule (makeRoutingRuleResp (RtKey ctx) rule qSummary))
        end
    end).

Definition deleteRoute (hv : Hypervisor) : Request -> Eff unit :=
  withCtx (routeCtx hv) (fun r ctx =>
    e <- call (Conn ctx) (CallRemoveRoutingRule (RtKey ctx))
              (fun c => rpcRemoveRoutingRule c (RtKey ctx)) ;;
    match e with
    | Some err => WriteJSON StatusNotFound (BErr err)
    | None => WriteJSON StatusOK (BBool true)
    end).

(** NOTE: Reply comes with a delay, because of check if new executable is
    started successfully. *)
Definition restart (hv : Hypervisor) : Request -> Eff unit :=
  withCtx (visorCtx hv) (fun r ctx =>
    e <- call (Conn ctx) CallRestart rpcRestart ;;
    match e with
    | Some err => WriteJSON StatusInternalServerError (BErr err)
    | None => WriteJSON StatusOK (BBool true)
    end).

(** ** Lock discipline of a trace *)

(** [rpc_outside_lock held t]: no RPC call of [t] is issued while the
    registry lock is held; [held] counts the holders at the start. *)
Fixpoint rpc_outside_lock (held : nat) (t : list Event) : bool :=
  match t with
  | [] => true
  | EvRLock :: rest | EvLock :: rest => rpc_outside_lock (S held) rest
  | EvRUnlock :: rest | EvUnlock :: rest => rpc_outside_lock (pred held) rest
  | EvRPC _ _ :: rest => (held =? 0)%nat && rpc_outside_lock held rest
  | EvWriteJSON _ _ :: rest => rpc_outside_lock held rest
  end.

(** [rpc_inside_lock held t]: every RPC call of [t] is issued while the
    registry lock is held. *)
Fixpoint rpc_inside_lock (held : nat) (t : list Event) : bool :=
  match t with
  | [] => true
  | EvRLock :: rest | EvLock :: rest => rpc_inside_lock (S held) rest
  | EvRUnlock :: rest | EvUnlock :: rest => rpc_inside_lock (pred held) rest
  | EvRPC _ _ :: rest => negb (held =? 0)%nat && rpc_inside_lock held rest
  | EvWriteJSON _ _ :: rest => rpc_inside_lock held rest
  end.

(** A handler body that leaves the registry lock alone. *)
Definition lock_free (t : list Event) : bool := forallb (fun e => negb (is_lock_op e)) t.

(** The shape of what a resolver does with the lock: it takes and
    releases the read lock at most once, before everything else. *)
Definition lock_first (t : list Event) : Prop :=
  ∃ rest, lock_free rest = true ∧ (t = rest ∨ t = EvRLock :: EvRUnlock :: rest).

(** The handlers behind [withCtx] whose effects are all in [Event]. *)
Definition resolved_handlers (hv : Hypervisor) (pick : bool)
  : list (Request -> Eff unit) :=
  [ getHealth hv pick; getUptime hv; getVisor hv; getApps hv; getApp hv;
    appLogsSince hv; getTransport hv; deleteTransport hv; getRoute hv;
    deleteRoute hv; restart hv ].

(** ** Further helper functions *)

Definition strSliceFromQuery (r : Request) (key : string) (defaultVal : list string)
  : list string :=
  match Query r !! key with
  | None => defaultVal
  | Some slice => slice
  end.

(** The loop of [pkSliceFromQuery]: the values are parsed from the left,
    and the first one that does not parse ends the loop with its error. *)
Fixpoint UnmarshalTexts (qPKs : list string) : result (list PubKey) :=
  match qPKs with
  | [] => Ok []
  | qPK :: rest =>
      match PubKey_UnmarshalText qPK with
      | Err err => Err err
      | Ok pk =>
          match UnmarshalTexts rest with
          | Err err => Err err
          | Ok pks => Ok (pk :: pks)
          end
      end
  end.

Definition pkSliceFromQuery (r : Request) (key : string) (defaultVal : list PubKey)
  : result (list PubKey) :=
  match Query r !! key with
  | None => Ok defaultVal
  | Some qPKs => UnmarshalTexts qPKs
  end.

(** The responses a trace writes. *)
Definition is_write (e : Event) : bool :=
  match e with EvWriteJSON _ _ => true | _ => false end.

Definition responses (t : list Event) : list Event := filter is_write t.

(** [ctx.App.AutoStart]; see [App_Name]. *)
Definition App_AutoStart (ctx : httpCtx) : bool :=
  match App ctx with
  | Some a => AutoStart a
  | None => false
  end.

(** ** Handlers that use further methods of the RPC client

    The methods of [visor.RPCClient] that [putApp] and [getTransports]
    call, again as what the visor answers. *)
Record RPCMore := mkRPCMore {
  rpcSetAutoStart : string -> bool -> option error;
  rpcSetSocksPassword : string -> option error;
  rpcSetSocksClientPK : PubKey -> option error;
  rpcStopApp : string -> option error;
  rpcStartApp : string -> option error;
  rpcTransports : list string -> list PubKey -> bool -> result (list TransportSummary);
}.

Inductive MoreCall :=
| CallSetAutoStart (app : string) (autostart : bool)
| CallSetSocksPassword (passcode : string)
| CallSetSocksClientPK (pk : PubKey)
| CallStopApp (app : string)
| CallStartApp (app : string)
| CallTransports (types : list string) (pks : list PubKey) (logs : bool).

(** The answer of the client to one of these calls, when it is an error
    or nothing. *)
Definition outcome (x : RPCMore) (c : MoreCall) : option error :=
  match c with
  | CallSetAutoStart app b => rpcSetAutoStart x app b
  | CallSetSocksPassword p => rpcSetSocksPassword x p
  | CallSetSocksClientPK pk => rpcSetSocksClientPK x pk
  | CallStopApp app => rpcStopApp x app
  | CallStartApp app => rpcStartApp x app
  | CallTransports types pks logs =>
      match rpcTransports x types pks logs with
      | Err err => Some err
      | Ok _ => None
      end
  end.

(** The effects of these handlers: those of [Event], a call of
    [MoreCall], and the response that carries a list of transports. *)
Inductive MoreEvent :=
| MEv (e : Event)
| MRPC (visor : Addr) (c : MoreCall)
| MWriteTransports (status : Z) (transports : list TransportSummary).

Definition is_more_write (e : MoreEvent) : bool :=
  match e with
  | MEv e => is_write e
  | MWriteTransports _ _ => true
  | MRPC _ _ => false
  end.

(** A mutating call followed by the usual check: on an error the handler
    answers 500 with it and returns, otherwise it goes on with [k]. *)
Definition call_or_500 (addr : Addr) (c : MoreCall) (err : option error)
    (k : list MoreEvent) : list MoreEvent :=
  MRPC addr c ::
  match err with
  | Some err => [MEv (EvWriteJSON StatusInternalServerError (BErr err))]
  | None => k
  end.

Definition statusStop : Z := 0.
Definition statusStart : Z := 1.
Definition skysocksName : string := "skysocks".
Definition skysocksClientName : string := "skysocks-client".

(** The request body of [putApp]; each field is a pointer, [None] when
    the field is absent. *)
Record putAppBody := mkPutAppBody {
  bAutoStart : option bool;
  bStatus : option Z;
  bPasscode : option string;
  bPK : option PubKey;
}.

(** The handler of [putApp], once [appCtx] has resolved the context.
    [body] is what [httputil.ReadJSON] made of the request body,
    [errMalformed] is the package's [ErrMalformedRequest], and [more]
    gives the further methods of a client. *)
Definition putApp_handler (more : RPCClient -> RPCMore) (errMalformed : error)
    (body : result putAppBody) (ctx : httpCtx) : list MoreEvent :=
  match body with
  | Err _ => [MEv (EvWriteJSON StatusBadRequest (BErr errMalformed))]
  | Ok reqBody =>
      let x := more (RPC (Conn ctx)) in
      let addr := VAddr (Conn ctx) in
      let name := App_Name ctx in
      let finish := [MEv (EvWriteJSON StatusOK (BApp (App ctx)))] in
      let on_status :=
        match bStatus reqBody with
        | Some st =>
            if (st =? statusStop)%Z then
              call_or_500 addr (CallStopApp name) (rpcStopApp x name) finish
            else if (st =? statusStart)%Z then
              call_or_500 addr (CallStartApp name) (rpcStartApp x name) finish
            else
              [MEv (EvWriteJSON StatusBadRequest
                      (BErr (mkError ("value of 'status' field is " ++ pretty st ++
                                      " when expecting 0 or 1"))))]
        | None => finish
        end in
      let on_pk :=
        match bPK reqBody with
        | Some pk =>
            if String.eqb name skysocksClientName then
              call_or_500 addr (CallSetSocksClientPK pk) (rpcSetSocksClientPK x pk) on_status
            else on_status
        | None => on_status
        end in
      let on_passcode :=
        match bPasscode reqBody with
        | Some passcode =>
            if String.eqb name skysocksName then
              call_or_500 addr (CallSetSocksPassword passcode)
                (rpcSetSocksPassword x passcode) on_pk
            else on_pk
        | None => on_pk
        end in
      match bAutoStart reqBody with
      | Some autostart =>
          if Bool.eqb autostart (App_AutoStart ctx) then on_passcode
          else
            call_or_500 addr (CallSetAutoStart name autostart)
              (rpcSetAutoStart x name autostart) on_passcode
      | None => on_passcode
      end
  end.

(** [withCtx] for a handler with these effects. *)
Definition withCtx_more (vFunc : valuesFunc) (hFunc : Request -> httpCtx -> list MoreEvent)
    (r : Request) : list MoreEvent :=
  (MEv <$> trace (vFunc r)) ++
  match (vFunc r).2 with
  | Some ctx => hFunc r ctx
  | None => []
  end.

Definition putApp (more : RPCClient -> RPCMore) (errMalformed : error)
    (body : result putAppBody) (hv : Hypervisor) : Request -> list MoreEvent :=
  withCtx_more (appCtx hv) (fun r ctx => putApp_handler more errMalformed body ctx).

Definition getTransports (more : RPCClient -> RPCMore) (hv : Hypervisor)
  : Request -> list MoreEvent :=
  withCtx_more (visorCtx hv) (fun r ctx =>
    let qTypes := strSliceFromQuery r "type" [] in
    match pkSliceFromQuery r "pk" [] with
    | Err err => [MEv (EvWriteJSON StatusBadRequest (BErr err))]
    | Ok qPKs =>
        match BoolFromQuery r "logs" true with
        | Err err => [MEv (EvWriteJSON StatusBadRequest (BErr err))]
        | Ok qLogs =>
            MRPC (VAddr (Conn ctx)) (CallTransports qTypes qPKs qLogs) ::
            match rpcTransports (more (RPC (Conn ctx))) qTypes qPKs qLogs with
            | Err err => [MEv (EvWriteJSON StatusInternalServerError (BErr err))]
            | Ok transports => [MWriteTransports StatusOK transports]
            end
        end
    end).

(** The first app of a list that has the given name comes after apps
    that all have other names. *)
Definition first_named (name : string) (apps : list AppState) (a : AppState) : Prop :=
  ∃ before after : list AppState,
    apps = before ++ a :: after
    ∧ Name a = name
    ∧ Forall (λ b, Name b ≠ name) before.

(** What [ServeRPC] keeps true of every entry: it is stored under the
    public key of its own address, and its terminal dialer points at that
    key on [DmsgPtyPort]. *)
Definition well_keyed (hv : Hypervisor) : Prop :=
  ∀ k c, visors hv !! k = Some c →
         PK (VAddr c) = k ∧ VPtyUI c = Some {| PK := k; Port := DmsgPtyPort |}.

(** Whether a string has a space in it. *)
Fixpoint has_space (s : string) : bool :=
  match s with
  | EmptyString => false
  | String c rest => Ascii.eqb c " "%char || has_space rest
  end.

(** The shape of a run of mutating calls on the visor at [addr]: calls
    that succeed, and then either a final response allowed by [fin], or
    one call that fails and the answer 500 with its error. *)
Inductive sequenced (x : RPCMore) (addr : Addr) (fin : Z -> Body -> Prop)
  : list MoreEvent -> Prop :=
| sequenced_done (st : Z) (b : Body) :
    fin st b -> sequenced x addr fin [MEv (EvWriteJSON st b)]
| sequenced_fail (c : MoreCall) (e : error) :
    outcome x c = Some e ->
    sequenced x addr fin
      [MRPC addr c; MEv (EvWriteJSON StatusInternalServerError (BErr e))]
| sequenced_ok (c : MoreCall) (t : list MoreEvent) :
    outcome x c = None ->
    sequenced x addr fin t ->
    sequenced x addr fin (MRPC addr c :: t).

End Hypervisor.

(** ** The remaining handlers

    The handlers below complete the set of handlers that [ServeHTTP]
    dispatches through [withCtx].  They use still further methods of the
    RPC client, and functions of [routing], [buildinfo] and the updater
    that are declared outside the file. *)

Class ExternalRest `{ext : External} := {
  (** [routing.RuleConsumeFields], [routing.RuleForwardFields] and their
      zero values *)
  RuleConsumeFields : Type;
  RuleForwardFields : Type;
  zero_RuleConsumeFields : RuleConsumeFields;
  zero_RuleForwardFields : RuleForwardFields;
  (** the pointer fields [ConsumeFields] and [ForwardFields] of
      [routing.RuleSummary]; [None] is the nil pointer *)
  ConsumeFields : RuleSummary -> option RuleConsumeFields;
  ForwardFields : RuleSummary -> option RuleForwardFields;
  (** [routing.Rule.KeyRouteID] and [routing.RuleSummary.ToRule] *)
  Rule_KeyRouteID : Rule -> RouteID;
  RuleSummary_ToRule : RuleSummary -> result Rule;
  (** the version the updater reports, and its [String] *)
  Version : Type;
  Version_String : Version -> string;
  (** [buildinfo.Version()] *)
  buildinfo_Version : string;
  (** the package's [ErrMalformedRequest] *)
  ErrMalformedRequest : error;
}.

Section Rest.
Context `{ext : External} `{rext : !ExternalRest}.

(** [visor.RouteGroupInfo]; declared in [pkg/visor]. *)
Record RouteGroupInfo := mkRouteGroupInfo {
  ConsumeRule : Rule;
  FwdRule : Rule;
}.

Record RPCRest := mkRPCRest {
  rpcTransportTypes : result (list string);
  rpcAddTransport : PubKey -> string -> bool -> Duration -> result TransportSummary;
  rpcRoutingRules : result (list Rule);
  rpcSaveRoutingRule : Rule -> option error;
  rpcRouteGroups : result (list RouteGroupInfo);
  rpcExec : string -> result (list N);
  rpcUpdate : result bool;
  rpcUpdateAvailable : result (option Version);
}.

Inductive RestCall :=
| CallTransportTypes
| CallAddTransport (remote : PubKey) (tpType : string) (public : bool) (timeout : Duration)
| CallRoutingRules
| CallSaveRoutingRule (rule : Rule)
| CallRouteGroups
| CallExec (command : string)
| CallUpdate
| CallUpdateAvailable.

Record routeGroupResp := mkRouteGroupResp {
  RGConsumeFields : RuleConsumeFields;
  RGFwdRule : RuleForwardFields;
}.

(** The values these handlers hand to [httputil.WriteJSON]. *)
Inductive RestBody :=
| RBTypes (types : list string)
| RBTransport (summary : TransportSummary)
| RBRules (resp : list routingRuleResp)
| RBRouteGroups (resp : list routeGroupResp)
| RBOutput (output : list N)
| RBUpdated (updated : bool)
| RBAvailable (available : bool) (currentVersion : string) (availableVersion : string).

(** The effects of these handlers: those of [MoreEvent], a call of
    [RestCall], a response with a [RestBody], the handing over of the
    request to the handler of the terminal UI, and the panic of a nil
    pointer dereference. *)
Inductive RestEvent :=
| REv (e : MoreEvent)
| RRPC (visor : Addr) (c : RestCall)
| RWrite (status : Z) (body : RestBody)
| RPtyHandler (ui : PtyUI)
| RPanic.

Definition rest_of_event (e : Event) : RestEvent := REv (MEv e).

(** The three responses most handlers share. *)
Definition w500 (err : error) : RestEvent :=
  rest_of_event (EvWriteJSON StatusInternalServerError (BErr err)).
Definition w400 (err : error) : RestEvent :=
  rest_of_event (EvWriteJSON StatusBadRequest (BErr err)).
Definition w200 (b : Body) : RestEvent :=
  rest_of_event (EvWriteJSON StatusOK b).

(** [withCtx] for a handler with these effects. *)
Definition withCtx_rest (vFunc : valuesFunc) (hFunc : Request -> httpCtx -> list RestEvent)
    (r : Request) : list RestEvent :=
  (rest_of_event <$> trace (vFunc r)) ++
  match (vFunc r).2 with
  | Some ctx => hFunc r ctx
  | None => []
  end.

Definition getPty (hv : Hypervisor) : Request -> list RestEvent :=
  withCtx_rest (visorCtx hv) (fun r ctx => [RPtyHandler (VPtyUI (Conn ctx))]).

Definition getTransportTypes (rest : RPCClient -> RPCRest) (hv : Hypervisor)
  : Request -> list RestEvent :=
  withCtx_rest (visorCtx hv) (fun r ctx =>
    RRPC (VAddr (Conn ctx)) CallTransportTypes ::
    match rpcTransportTypes (rest (RPC (Conn ctx))) with
    | Err err => [w500 err]
    | Ok types => [RWrite StatusOK (RBTypes types)]
    end).

(** The request body of [postTransport]. *)
Record postTransportBody := mkPostTransportBody {
  bTpType : string;
  bRemote : PubKey;
  bPublic : bool;
}.

(** [body] is what [httputil.ReadJSON] made of the request body. *)
Definition postTransport (rest : RPCClient -> RPCRest) (body : result postTransportBody)
    (hv : Hypervisor) : Request -> list RestEvent :=
  withCtx_rest (visorCtx hv) (fun r ctx =>
    match body with
    | Err _ => [w400 ErrMalformedRequest]
    | Ok reqBody =>
        let timeout := (30 * Second)%Z in
        RRPC (VAddr (Conn ctx))
          (CallAddTransport (bRemote reqBody) (bTpType reqBody) (bPublic reqBody) timeout) ::
        match rpcAddTransport (rest (RPC (Conn ctx)))
                (bRemote reqBody) (bTpType reqBody) (bPublic reqBody) timeout with
        | Err err => [w500 err]
        | Ok summary => [RWrite StatusOK (RBTransport summary)]
        end
    end).

Definition getRoutes (rest : RPCClient -> RPCRest) (hv : Hypervisor)
  : Request -> list RestEvent :=
  withCtx_rest (visorCtx hv) (fun r ctx =>
    match BoolFromQuery r "summary" false with
    | Err err => [w400 err]
    | Ok qSummary =>
        RRPC (VAddr (Conn ctx)) CallRoutingRules ::
        match rpcRoutingRules (rest (RPC (Conn ctx))) with
        | Err err => [w500 err]
        | Ok rules =>
            [RWrite StatusOK
               (RBRules ((fun rule =>
                            makeRoutingRuleResp (Rule_KeyRouteID rule) rule qSummary)
                         <$> rules))]
        end
    end).

(** What [postRoute] and [putRoute] share: the rule is made from the
    summary in the body and saved; [key] makes the key of the response
    from the rule. *)
Definition saveRoute (rest : RPCClient -> RPCRest) (body : result RuleSummary)
    (key : Rule -> RouteID) (ctx : httpCtx) : list RestEvent :=
  match body with
  | Err _ => [w400 ErrMalformedRequest]
  | Ok summary =>
      match RuleSummary_ToRule summary with
      | Err err => [w400 err]
      | Ok rule =>
          RRPC (VAddr (Conn ctx)) (CallSaveRoutingRule rule) ::
          match rpcSaveRoutingRule (rest (RPC (Conn ctx))) rule with
          | Some err => [w500 err]
          | None => [w200 (BRule (makeRoutingRuleResp (key rule) rule true))]
          end
      end
  end.

Definition postRoute (rest : RPCClient -> RPCRest) (body : result RuleSummary)
    (hv : Hypervisor) : Request -> list RestEvent :=
  withCtx_rest (visorCtx hv) (fun r ctx => saveRoute rest body Rule_KeyRouteID ctx).

Definition putRoute (rest : RPCClient -> RPCRest) (body : result RuleSummary)
    (hv : Hypervisor) : Request -> list RestEvent :=
  withCtx_rest (routeCtx hv) (fun r ctx => saveRoute rest body (fun _ => RtKey ctx) ctx).

(** [makeRouteGroupResp]: [None] when one of the two dereferences hits a
    nil pointer. *)
Definition makeRouteGroupResp (info : RouteGroupInfo) : option routeGroupResp :=
  if (length (FwdRule info) =? 0)%nat || (length (ConsumeRule info) =? 0)%nat then
    Some {| RGConsumeFields := zero_RuleConsumeFields;
            RGFwdRule := zero_RuleForwardFields |}
  else
    match ConsumeFields (Rule_Summary (ConsumeRule info)) with
    | None => None
    | Some consume =>
        match ForwardFields (Rule_Summary (FwdRule info)) with
        | None => None
        | Some fwd => Some {| RGConsumeFields := consume; RGFwdRule := fwd |}
        end
    end.

(** The loop of [getRouteGroups] over the groups, from the left. *)
Fixpoint makeRouteGroupResps (groups : list RouteGroupInfo) : option (list routeGroupResp) :=
  match groups with
  | [] => Some []
  | info :: rest =>
      match makeRouteGroupResp info with
      | None => None
      | Some resp =>
          match makeRouteGroupResps rest with
          | None => None
          | Some resps => Some (resp :: resps)
          end
      end
  end.

Definition getRouteGroups (rest : RPCClient -> RPCRest) (hv : Hypervisor)
  : Request -> list RestEvent :=
  withCtx_rest (visorCtx hv) (fun r ctx =>
    RRPC (VAddr (Conn ctx)) CallRouteGroups ::
    match rpcRouteGroups (rest (RPC (Conn ctx))) with
    | Err err => [w500 err]
    | Ok routegroups =>
        match makeRouteGroupResps routegroups with
        | None => [RPanic]
        | Some resp => [RWrite StatusOK (RBRouteGroups resp)]
        end
    end).

(** [exec] executes a command and returns its output; [body] is the
    command that [httputil.ReadJSON] found in the request body. *)
Definition exec (rest : RPCClient -> RPCRest) (body : result string)
    (hv : Hypervisor) : Request -> list RestEvent :=
  withCtx_rest (visorCtx hv) (fun r ctx =>
    match body with
    | Err _ => [w400 ErrMalformedRequest]
    | Ok command =>
        RRPC (VAddr (Conn ctx)) (CallExec command) ::
        match rpcExec (rest (RPC (Conn ctx))) command with
        | Err err => [w500 err]
        | Ok out => [RWrite StatusOK (RBOutput out)]
        end
    end).

Definition update (rest : RPCClient -> RPCRest) (hv : Hypervisor)
  : Request -> list RestEvent :=
  withCtx_rest (visorCtx hv) (fun r ctx =>
    RRPC (VAddr (Conn ctx)) CallUpdate ::
    match rpcUpdate (rest (RPC (Conn ctx))) with
    | Err err => [w500 err]
    | Ok updated => [RWrite StatusOK (RBUpdated updated)]
    end).

Definition updateAvailable (rest : RPCClient -> RPCRest) (hv : Hypervisor)
  : Request -> list RestEvent :=
  withCtx_rest (visorCtx hv) (fun r ctx =>
    RRPC (VAddr (Conn ctx)) CallUpdateAvailable ::
    match rpcUpdateAvailable (rest (RPC (Conn ctx))) with
    | Err err => [w500 err]
    | Ok version =>
        [RWrite StatusOK
           (RBAvailable (bool_decide (is_Some version)) buildinfo_Version
              match version with
              | Some v => Version_String v
              | None => ""
              end)]
    end).

(** ** All handlers behind [withCtx] *)

(** What [httputil.ReadJSON] makes of the body of a request, for each of
    the body types the handlers read. *)
Record Bodies := mkBodies {
  body_putApp : result putAppBody;
  body_postTransport : result postTransportBody;
  body_route : result RuleSummary;
  body_exec : result string;
}.

Definition lift (h : Request -> Eff unit) : Request -> list RestEvent :=
  fun r => rest_of_event <$> trace (h r).

Definition lift_more (h : Request -> list MoreEvent) : Request -> list RestEvent :=
  fun r => REv <$> h r.

(** The twenty-three handlers that [ServeHTTP] builds with [withCtx], in
    the order in which the file defines them. *)
Definition all_handlers (more : RPCClient -> RPCMore) (rest : RPCClient -> RPCRest)
    (bodies : Bodies) (hv : Hypervisor) (pick : bool)
  : list (Request -> list RestEvent) :=
  [ lift (getHealth hv pick);
    lift (getUptime hv);
    lift (getVisor hv);
    getPty hv;
    lift (getApps hv);
    lift (getApp hv);
    lift_more (putApp more ErrMalformedRequest (body_putApp bodies) hv);
    lift (appLogsSince hv);
    getTransportTypes rest hv;
    lift_more (getTransports more hv);
    postTransport rest (body_postTransport bodies) hv;
    lift (getTransport hv);
    lift (deleteTransport hv);
    getRoutes rest hv;
    postRoute rest (body_route bodies) hv;
    lift (getRoute hv);
    putRoute rest (body_route bodies) hv;
    lift (deleteRoute hv);
    getRouteGroups rest hv;
    lift (restart hv);
    exec rest (body_exec bodies) hv;
    update rest hv;
    updateAvailable rest hv ].

(** [rest_rpc_outside_lock held t]: no RPC call of [t], of whichever
    kind, is issued while the registry lock is held. *)
Definition rest_is_rpc (e : RestEvent) : bool :=
  match e with
  | REv (MEv e) => is_rpc e
  | REv (MRPC _ _) => true
  | RRPC _ _ => true
  | _ => false
  end.

Fixpoint rest_rpc_outside_lock (held : nat) (t : list RestEvent) : bool :=
  match t with
  | [] => true
  | REv (MEv EvRLock) :: rest | REv (MEv EvLock) :: rest =>
      rest_rpc_outside_lock (S held) rest
  | REv (MEv EvRUnlock) :: rest | REv (MEv EvUnlock) :: rest =>
      rest_rpc_outside_lock (pred held) rest
  | e :: rest =>
      (negb (rest_is_rpc e) || (held =? 0)%nat) && rest_rpc_outside_lock held rest
  end.

Definition rest_lock_free (t : list RestEvent) : bool :=
  forallb (fun e => match e with
                    | REv (MEv e) => negb (is_lock_op e)
                    | _ => true
                    end) t.

(** The responses a trace writes, of whichever kind. *)
Definition rest_is_write (e : RestEvent) : bool :=
  match e with
  | REv e => is_more_write e
  | RWrite _ _ => true
  | _ => false
  end.

Definition rest_responses (t : list RestEvent) : list RestEvent :=
  filter rest_is_write t.

(** The handing over of a request to the handler of the terminal UI. *)
Definition rest_is_handover (e : RestEvent) : bool :=
  match e with
  | RPtyHandler _ => true
  | _ => false
  end.

(** ** Remote failures *)

Definition error_of {A} (r : result A) : option error :=
  match r with
  | Ok _ => None
  | Err e => Some e
  end.

(** The error that the visor [c] answers to a call with, when it is a
    remote failure: an error, and at the fetch of a transport one whose
    message is not that of [visor.ErrNotFound]. *)
Definition base_failure (c : RPCClient) (call : Call) : option error :=
  match call with
  | CallSummary => error_of (rpcSummary c)
  | CallHealth => error_of (rpcHealth c)
  | CallUptime => error_of (rpcUptime c)
  | CallApps => error_of (rpcApps c)
  | CallLogsSince t app => error_of (rpcLogsSince c t app)
  | CallTransport tid =>
      match rpcTransport c tid with
      | Err e => if String.eqb (Error e) (Error ErrNotFound) then None else Some e
      | Ok _ => None
      end
  | CallRemoveTransport tid => rpcRemoveTransport c tid
  | CallRoutingRule rid => error_of (rpcRoutingRule c rid)
  | CallRemoveRoutingRule rid => rpcRemoveRoutingRule c rid
  | CallRestart => rpcRestart c
  end.

Definition rest_failure (y : RPCRest) (call : RestCall) : option error :=
  match call with
  | CallTransportTypes => error_of (rpcTransportTypes y)
  | CallAddTransport remote tpType public timeout =>
      error_of (rpcAddTransport y remote tpType public timeout)
  | CallRoutingRules => error_of (rpcRoutingRules y)
  | CallSaveRoutingRule rule => rpcSaveRoutingRule y rule
  | CallRouteGroups => error_of (rpcRouteGroups y)
  | CallExec command => error_of (rpcExec y command)
  | CallUpdate => error_of (rpcUpdate y)
  | CallUpdateAvailable => error_of (rpcUpdateAvailable y)
  end.

Definition remote_failure (c : RPCClient) (x : RPCMore) (y : RPCRest) (ev : RestEvent)
  : option error :=
  match ev with
  | REv (MEv (EvRPC _ call)) => base_failure c call
  | REv (MRPC _ call) => outcome x call
  | RRPC _ call => rest_failure y call
  | _ => None
  end.

(** A trace in which every remote failure is surfaced: the call that
    fails is followed by the response 500 with the error of the call, and
    nothing comes after it. *)
Inductive surfaces (failed : RestEvent -> option error) : list RestEvent -> Prop :=
| surfaces_nil : surfaces failed []
| surfaces_failure (ev : RestEvent) (e : error) :
    failed ev = Some e -> surfaces failed [ev; w500 e]
| surfaces_cons (ev : RestEvent) (t : list RestEvent) :
    failed ev = None -> surfaces failed t -> surfaces failed (ev :: t).

(** The handlers that surface every remote failure: all but the health
    probe and the lookup and the removal of a routing rule. *)
Definition surfacing_handlers (more : RPCClient -> RPCMore) (rest : RPCClient -> RPCRest)
    (bodies : Bodies) (hv : Hypervisor)
  : list (Request -> list RestEvent) :=
  [ lift (getUptime hv);
    lift (getVisor hv);
    getPty hv;
    lift (getApps hv);
    lift (getApp hv);
    lift_more (putApp more ErrMalformedRequest (body_putApp bodies) hv);
    lift (appLogsSince hv);
    getTransportTypes rest hv;
    lift_more (getTransports more hv);
    postTransport rest (body_postTransport bodies) hv;
    lift (getTransport hv);
    lift (deleteTransport hv);
    getRoutes rest hv;
    postRoute rest (body_route bodies) hv;
    putRoute rest (body_route bodies) hv;
    getRouteGroups rest hv;
    lift (restart hv);
    exec rest (body_exec bodies) hv;
    update rest hv;
    updateAvailable rest hv ].

(** The handlers that answer every request themselves: all but the
    terminal, whose response is written by the handler of the terminal UI,
    and the listing of route groups, which can panic. *)
Definition responding_handlers (more : RPCClient -> RPCMore) (rest : RPCClient -> RPCRest)
    (bodies : Bodies) (hv : Hypervisor) (pick : bool)
  : list (Request -> list RestEvent) :=
  [ lift (getHealth hv pick);
    lift (getUptime hv);
    lift (getVisor hv);
    lift (getApps hv);
    lift (getApp hv);
    lift_more (putApp more ErrMalformedRequest (body_putApp bodies) hv);
    lift (appLogsSince hv);
    getTransportTypes rest hv;
    lift_more (getTransports more hv);
    postTransport rest (body_postTransport bodies) hv;
    lift (getTransport hv);
    lift (deleteTransport hv);
    getRoutes rest hv;
    postRoute rest (body_route bodies) hv;
    lift (getRoute hv);
    putRoute rest (body_route bodies) hv;
    lift (deleteRoute hv);
    lift (restart hv);
    exec rest (body_exec bodies) hv;
    update rest hv;
    updateAvailable rest hv ].

End Rest.

(** ** A concrete environment and a small fleet

    An instance of [External] with the textual forms the real packages
    use (66 hex digits for a public key, 32 hex digits and four dashes for
    a UUID), and three visors [A], [B], [C]; the examples below run the
    handlers on them. *)

Definition hex_val (c : ascii) : option N :=
  let n := N_of_ascii c in
  if (48 <=? n)%N && (n <=? 57)%N then Some (n - 48)%N
  else if (97 <=? n)%N && (n <=? 102)%N then Some (n - 87)%N
  else if (65 <=? n)%N && (n <=? 70)%N then Some (n - 55)%N
  else None.

Fixpoint hex_to_N (s : string) (acc : N) : option N :=
  match s with
  | EmptyString => Some acc
  | String c rest =>
      match hex_val c with
      | Some d => hex_to_N rest (16 * acc + d)%N
      | None => None
      end
  end.

(** The [len] bytes of [n], most significant first. *)
Fixpoint N_to_bytes (len : nat) (n : N) : list N :=
  match len with
  | O => []
  | S len' => N_to_bytes len' (N.shiftr n 8) ++ [N.land n 255]
  end.

Fixpoint drop_dashes (s : string) : string :=
  match s with
  | EmptyString => EmptyString
  | String c rest =>
      if Ascii.eqb c "-"%char then drop_dashes rest else String c (drop_dashes rest)
  end.

Definition sample_PubKey_UnmarshalText (s : string) : result PubKey :=
  if (String.length s =? 66)%nat then
    match hex_to_N s 0%N with
    | Some n => Ok n
    | None => Err (mkError "invalid public key")
    end
  else Err (mkError "invalid public key").

Definition sample_uuid_Parse (s : string) : result UUID :=
  if (String.length s =? 36)%nat then
    match hex_to_N (drop_dashes s) 0%N with
    | Some n => Ok n
    | None => Err (mkError "invalid UUID format")
    end
  else Err (mkError "invalid UUID length").

Definition sample_BoolFromQuery (r : Request) (key : string) (defaultVal : bool)
  : result bool :=
  let q := Query_Get r key in
  if String.eqb q "true" || String.eqb q "on" || String.eqb q "1" then Ok true
  else if String.eqb q "false" || String.eqb q "off" || String.eqb q "0" then Ok false
  else if String.eqb q "" then Ok defaultVal
  else Err (mkError ("invalid '" ++ key ++ "' query value of '" ++ q ++ "'")).

Definition sample_ext : External := {|
  RuleSummary := string;
  PubKey_UnmarshalText := sample_PubKey_UnmarshalText;
  PubKey_String := fun pk => hex_EncodeToString (N_to_bytes 33 pk);
  uuid_Parse := sample_uuid_Parse;
  uuid_String := fun u => hex_EncodeToString (N_to_bytes 16 u);
  Addr_String := fun a =>
    (hex_EncodeToString (N_to_bytes 33 (PK a)) ++ ":" ++ pretty (Port a))%string;
  BoolFromQuery := sample_BoolFromQuery;
  time_Parse_RFC3339Nano := fun _ => Err (mkError "cannot parse");
  DmsgPtyPort := 22%N;
  ErrNotFound := mkError "not found";
  TimestampFromLog := fun log => String.substring 1 35 log;
  Rule_Summary := hex_EncodeToString;
|}.

Definition pkA_text : string := "02000000000000000000000000000000000000000000000000000000000000000a".
Definition pkB_text : string := "02000000000000000000000000000000000000000000000000000000000000000b".
Definition pkC_text : string := "02000000000000000000000000000000000000000000000000000000000000000c".

Definition pkA : PubKey := Eval vm_compute in
  match sample_PubKey_UnmarshalText pkA_text with Ok n => n | Err _ => 0%N end.
Definition pkB : PubKey := Eval vm_compute in
  match sample_PubKey_UnmarshalText pkB_text with Ok n => n | Err _ => 0%N end.
Definition pkC : PubKey := Eval vm_compute in
  match sample_PubKey_UnmarshalText pkC_text with Ok n => n | Err _ => 0%N end.

Definition sample_health : HealthInfo :=
  {| TransportDiscovery := 200; RouteFinder := 200; SetupNode := 200 |}.

Definition sample_summary (pk : PubKey) : Summary :=
  {| SumPubKey := pk; AppProtoVersion := "0.0.1";
     SumApps := [ {| Name := "skychat"; AutoStart := true; AppPort := 1%N |} ];
     SumTransports := []; RoutesCount := 2 |}.

Definition shut_down : error := mkError "connection is shut down".

(** A visor that answers every call; its health call takes [latency]. *)
Definition good_client (pk : PubKey) (latency : option Duration) : RPCClient := {|
  rpcSummary := Ok (sample_summary pk);
  rpcHealth := Ok sample_health;
  HealthLatency := latency;
  rpcUptime := Ok 3600%Z;
  rpcApps := Ok [ {| Name := "skychat"; AutoStart := true; AppPort := 1%N |};
                  {| Name := "skysocks"; AutoStart := false; AppPort := 3%N |} ];
  rpcLogsSince := fun _ app =>
    if String.eqb app "skychat" then Ok ["[2020-01-01T00:00:00.000000000+00:00] started";
                                         "[2020-01-01T00:00:01.000000000+00:00] ready"]
    else Ok [];
  rpcTransport := fun tid =>
    if (tid =? 1)%N then Ok {| ID := tid; Local := pk; Remote := pkB; TpType := "dmsg" |}
    else Err (mkError "not found");
  rpcRemoveTransport := fun _ => None;
  rpcRoutingRule := fun rid => if (rid =? 7)%N then Ok [1%N; 171%N] else Err (mkError "rule not found");
  rpcRemoveRoutingRule := fun _ => None;
  rpcRestart := None;
|}.

(** A visor whose connection is gone: every call fails the same way. *)
Definition broken_client : RPCClient := {|
  rpcSummary := Err shut_down;
  rpcHealth := Err shut_down;
  HealthLatency := Some 1000%Z;
  rpcUptime := Err shut_down;
  rpcApps := Err shut_down;
  rpcLogsSince := fun _ _ => Err shut_down;
  rpcTransport := fun _ => Err shut_down;
  rpcRemoveTransport := fun _ => Some shut_down;
  rpcRoutingRule := fun _ => Err shut_down;
  rpcRemoveRoutingRule := fun _ => Some shut_down;
  rpcRestart := Some shut_down;
|}.

Definition streamA : Stream :=
  {| RawRemoteAddr := {| PK := pkA; Port := 1%N |};
     NewRPCClient := good_client pkA (Some (2 * Second)%Z) |}.
Definition streamB : Stream :=
  {| RawRemoteAddr := {| PK := pkB; Port := 2%N |}; NewRPCClient := broken_client |}.
Definition streamC : Stream :=
  {| RawRemoteAddr := {| PK := pkC; Port := 3%N |};
     NewRPCClient := good_client pkC (Some (10 * Second)%Z) |}.
(** [A] connecting once more, now with a connection that is broken. *)
Definition streamA' : Stream :=
  {| RawRemoteAddr := {| PK := pkA; Port := 9%N |}; NewRPCClient := broken_client |}.

(** The connection [ServeRPC] stores for a stream. *)
Definition conn_of `{External} (s : Stream) : VisorConn :=
  {| VAddr := RawRemoteAddr s; RPC := NewRPCClient s;
     VPtyUI := Some {| PK := PK (RawRemoteAddr s); Port := DmsgPtyPort |} |}.

(** The registry after [A], [B] and [C] have connected, in that order. *)
Definition fleet : Hypervisor :=
  (ServeRPC (ext := sample_ext) New [Ok streamA; Ok streamB; Ok streamC]).1.

(** The registry with the single visor [A]. *)
Definition fleetA : Hypervisor :=
  (ServeRPC (ext := sample_ext) New [Ok streamA]).1.

Definition request (params : list (string * string)) (query : list (string * list string))
  : Request :=
  {| URLParams := list_to_map params; Query := list_to_map query |}.

(** A registry whose single visor answers its health call after
    [latency]. *)
Definition fleet_with_latency (latency : option Duration) : Hypervisor :=
  (ServeRPC (ext := sample_ext) New
     [Ok {| RawRemoteAddr := {| PK := pkA; Port := 1%N |};
            NewRPCClient := good_client pkA latency |}]).1.

(** A request for visor [pk], app [skychat], transport 1 and route 7. *)
Definition request_for (pk : string) : Request :=
  request [("pk", pk); ("app", "skychat");
           ("tid", "00000000-0000-0000-0000-000000000001"); ("rid", "7")] [].

(** The same visor, asking for the logs of app [skysocks]. *)
Definition request_skysocks (pk : string) : Request :=
  request [("pk", pk); ("app", "skysocks")] [].

(** Two ways in which [range] may go over the registry [fleet]. *)
Definition order_ABC : list (PubKey * VisorConn) :=
  [ (pkA, conn_of (H := sample_ext) streamA);
    (pkB, conn_of (H := sample_ext) streamB);
    (pkC, conn_of (H := sample_ext) streamC) ].

Definition order_ACB : list (PubKey * VisorConn) :=
  [ (pkA, conn_of (H := sample_ext) streamA);
    (pkC, conn_of (H := sample_ext) streamC);
    (pkB, conn_of (H := sample_ext) streamB) ].

(** The public keys of the entries of a fleet summary, in order. *)
Definition summary_pks (l : list summaryResp) : list PubKey :=
  omap (λ s, SumPubKey <$> RespSummary s) l.

(** The further methods of the sample clients: every change succeeds,
    except that an app cannot be started twice. *)
Definition sample_more (c : RPCClient) : RPCMore := {|
  rpcSetAutoStart := fun _ _ => None;
  rpcSetSocksPassword := fun _ => None;
  rpcSetSocksClientPK := fun _ => None;
  rpcStopApp := fun _ => None;
  rpcStartApp := fun _ => Some (mkError "app already started");
  rpcTransports := fun _ _ _ =>
    match rpcTransport c 1%N with Ok tp => Ok [tp] | Err e => Err e end;
|}.

Definition sample_ErrMalformedRequest : error := mkError "request format is malformed".

(** The context the app stage resolves for app [skychat] of visor [A]. *)
Definition ctx_skychat : httpCtx :=
  {| Conn := conn_of (H := sample_ext) streamA;
     App := Some {| Name := "skychat"; AutoStart := true; AppPort := 1%N |};
     Tp := None; RtKey := 0%N |}.

(** A request whose [since] value has lost its plus, and one with a
    public key in the query that does not parse. *)
Definition request_since : Request :=
  request [("pk", pkA_text); ("app", "skychat")]
          [("since", ["2020-01-01T00:00:00.000000000 00:00"])].

Definition request_bad_query : Request :=
  request [("pk", pkA_text)] [("pk", ["zz"]); ("summary", ["perhaps"])].

(** The functions of the other packages that the remaining handlers use,
    and the remaining methods of the sample clients: a client whose
    [Restart] fails has lost its connection and fails them all. *)
Definition sample_rext : ExternalRest (ext := sample_ext) := {|
  RuleConsumeFields := string;
  RuleForwardFields := string;
  zero_RuleConsumeFields := "";
  zero_RuleForwardFields := "";
  ConsumeFields := fun (s : RuleSummary (External := sample_ext)) => Some s;
  ForwardFields := fun (s : RuleSummary (External := sample_ext)) =>
    if String.eqb s "" then None else Some s;
  Rule_KeyRouteID := fun rule => match rule with b :: _ => b | [] => 0%N end;
  RuleSummary_ToRule := fun (s : RuleSummary (External := sample_ext)) =>
    if String.eqb s "" then Err (mkError "invalid rule summary") else Ok [1%N; 171%N];
  Version := string;
  Version_String := fun v => v;
  buildinfo_Version := "0.2.0";
  ErrMalformedRequest := sample_ErrMalformedRequest;
|}.

Definition sample_rest (c : RPCClient) : RPCRest (rext := sample_rext) :=
  match rpcRestart c with
  | Some e => {|
      rpcTransportTypes := Err e;
      rpcAddTransport := fun _ _ _ _ => Err e;
      rpcRoutingRules := Err e;
      rpcSaveRoutingRule := fun _ => Some e;
      rpcRouteGroups := Err e;
      rpcExec := fun _ => Err e;
      rpcUpdate := Err e;
      rpcUpdateAvailable := Err e;
    |}
  | None => {|
      rpcTransportTypes := Ok ["dmsg"; "stcp"];
      rpcAddTransport := fun remote tpType _ _ =>
        Ok {| ID := 2%N; Local := 0%N; Remote := remote; TpType := tpType |};
      rpcRoutingRules := Ok [[1%N; 171%N]];
      rpcSaveRoutingRule := fun _ => None;
      rpcRouteGroups := Ok [];
      rpcExec := fun _ => Ok [111%N; 107%N];
      rpcUpdate := Ok true;
      rpcUpdateAvailable :=
        Ok (Some ("0.3.0" : Version (ExternalRest := sample_rext)));
    |}
  end.

Definition sample_bodies : Bodies (ext := sample_ext) := {|
  body_putApp := Ok {| bAutoStart := Some false; bStatus := Some 1%Z;
                       bPasscode := None; bPK := None |};
  body_postTransport := Ok {| bTpType := "dmsg"; bRemote := pkB; bPublic := true |};
  body_route := Ok ("rule" : RuleSummary (External := sample_ext));
  body_exec := Ok "ls";
|}.

(** * Properties *)

Section Properties.
Context `{ext : External}.

(** ** The registry *)

Lemma ServeRPC_accepts (hv : Hypervisor) (conns : list Stream) :
  ServeRPC hv (Ok <$> conns) = (foldl accept hv conns, None).
Proof.
  revert hv. induction conns as [|conn conns IH]; intros hv; simpl; [done|].
  apply IH.
Qed.

Lemma lookup_accept_eq (hv : Hypervisor) (conn : Stream) :
  visors (accept hv conn) !! PK (RawRemoteAddr conn) = Some (conn_of conn).
Proof. unfold accept, conn_of; simpl. by rewrite lookup_insert_eq. Qed.

Lemma lookup_accept_ne (hv : Hypervisor) (conn : Stream) (k : PubKey) :
  PK (RawRemoteAddr conn) ≠ k →
  visors (accept hv conn) !! k = visors hv !! k.
Proof. intros Hne. unfold accept; simpl. by rewrite lookup_insert_ne. Qed.

Lemma lookup_accepts_ne (hv : Hypervisor) (conns : list Stream) (k : PubKey) :
  Forall (λ s, PK (RawRemoteAddr s) ≠ k) conns →
  visors (foldl accept hv conns) !! k = visors hv !! k.
Proof.
  revert hv. induction conns as [|conn conns IH]; intros hv Hall; simpl; [done|].
  inversion Hall; subst. rewrite IH by done. by apply lookup_accept_ne.
Qed.

Lemma visorConn_eq (hv : Hypervisor) (pk : PubKey) :
  visorConn hv pk = ([EvRLock; EvRUnlock], visors hv !! pk).
Proof. reflexivity. Qed.

(** C1: after any sequence of accepted connections, looking up the key
    of a connection that no later connection shares returns exactly the
    handle built from that connection (last writer wins, whatever was
    stored before); and looking up a key that no accepted connection ever
    had, starting from the empty registry, returns "not found". *)
Theorem registry_lookup_after_inserts :
  (∀ (hv0 : Hypervisor) (before after : list Stream) (conn : Stream),
      Forall (λ s, PK (RawRemoteAddr s) ≠ PK (RawRemoteAddr conn)) after →
      (visorConn (ServeRPC hv0 (Ok <$> (before ++ conn :: after))).1
                 (PK (RawRemoteAddr conn))).2 = Some (conn_of conn))
  ∧ (∀ (conns : list Stream) (k : PubKey),
      Forall (λ s, PK (RawRemoteAddr s) ≠ k) conns →
      (visorConn (ServeRPC New (Ok <$> conns)).1 k).2 = None).
Proof.
  split.
  - intros hv0 before after conn Hafter.
    rewrite ServeRPC_accepts, visorConn_eq; simpl.
    rewrite foldl_app; simpl.
    rewrite lookup_accepts_ne by done.
    apply lookup_accept_eq.
  - intros conns k Hnever.
    rewrite ServeRPC_accepts, visorConn_eq; simpl.
    rewrite lookup_accepts_ne by done.
    apply lookup_empty.
Qed.

(** ** The resolver chain *)

Lemma visorCtx_malformed (hv : Hypervisor) (r : Request) (e : error) :
  pkFromParam r "pk" = Err e →
  visorCtx hv r = ([EvWriteJSON StatusBadRequest (BErr e)], None).
Proof. intros Hpk. unfold visorCtx. by rewrite Hpk. Qed.

Lemma visorCtx_unknown (hv : Hypervisor) (r : Request) (pk : PubKey) :
  pkFromParam r "pk" = Ok pk →
  visors hv !! pk = None →
  visorCtx hv r =
    ([EvRLock; EvRUnlock;
      EvWriteJSON StatusNotFound
        (BErr (mkError ("visor of pk '" ++ PubKey_String pk ++ "' not found")))],
     None).
Proof.
  intros Hpk Hlook. unfold visorCtx. rewrite Hpk, visorConn_eq.
  unfold bind. by rewrite Hlook.
Qed.

Lemma visorCtx_found (hv : Hypervisor) (r : Request) (pk : PubKey) (c : VisorConn) :
  pkFromParam r "pk" = Ok pk →
  visors hv !! pk = Some c →
  visorCtx hv r =
    ([EvRLock; EvRUnlock], Some {| Conn := c; App := None; Tp := None; RtKey := 0%N |}).
Proof.
  intros Hpk Hlook. unfold visorCtx. rewrite Hpk, visorConn_eq.
  unfold bind. by rewrite Hlook.
Qed.

(** Once the node stage has failed, the later stages add nothing to what
    it did, and no handler runs. *)
Lemma node_failure_stops (hv : Hypervisor) (r : Request) (h : handlerFunc) (t : list Event) :
  visorCtx hv r = (t, None) →
  withCtx (visorCtx hv) h r = (t, tt)
  ∧ withCtx (appCtx hv) h r = (t, tt)
  ∧ withCtx (tpCtx hv) h r = (t, tt)
  ∧ withCtx (routeCtx hv) h r = (t, tt).
Proof.
  intros Hv. unfold withCtx, appCtx, tpCtx, routeCtx, bind. rewrite Hv; simpl.
  by rewrite !app_nil_r.
Qed.

(** C5: when the node stage fails -- the public key is malformed (400) or
    not in the registry (404) -- the response is the one the node stage
    wrote, the app, transport and route stages issue no RPC call, and the
    handler does not run, whatever it is; and with a known node and a
    malformed transport ID the transport stage answers 400 without any
    RPC call and without running the handler. *)
Theorem resolver_chain_short_circuit (hv : Hypervisor) (r : Request) (h : handlerFunc) :
  (∀ e : error,
      pkFromParam r "pk" = Err e →
      let t := [EvWriteJSON StatusBadRequest (BErr e)] in
      withCtx (appCtx hv) h r = (t, tt)
      ∧ withCtx (tpCtx hv) h r = (t, tt)
      ∧ withCtx (routeCtx hv) h r = (t, tt)
      ∧ rpc_calls t = [])
  ∧ (∀ pk : PubKey,
      pkFromParam r "pk" = Ok pk →
      visors hv !! pk = None →
      let t := [EvRLock; EvRUnlock;
                EvWriteJSON StatusNotFound
                  (BErr (mkError ("visor of pk '" ++ PubKey_String pk ++ "' not found")))] in
      withCtx (appCtx hv) h r = (t, tt)
      ∧ withCtx (tpCtx hv) h r = (t, tt)
      ∧ withCtx (routeCtx hv) h r = (t, tt)
      ∧ rpc_calls t = [])
  ∧ (∀ (pk : PubKey) (c : VisorConn) (e : error),
      pkFromParam r "pk" = Ok pk →
      visors hv !! pk = Some c →
      uuidFromParam r "tid" = Err e →
      let t := [EvRLock; EvRUnlock; EvWriteJSON StatusBadRequest (BErr e)] in
      withCtx (tpCtx hv) h r = (t, tt)
      ∧ rpc_calls t = []).
Proof.
  split; [|split].
  - intros e Hpk t.
    destruct (node_failure_stops hv r h t (visorCtx_malformed hv r e Hpk))
      as (_ & Ha & Ht & Hr).
    done.
  - intros pk Hpk Hlook t.
    destruct (node_failure_stops hv r h t (visorCtx_unknown hv r pk Hpk Hlook))
      as (_ & Ha & Ht & Hr).
    done.
  - intros pk c e Hpk Hlook Htid t. split; [|done].
    unfold withCtx, tpCtx, bind.
    erewrite visorCtx_found by done. by rewrite Htid.
Qed.

(** What the transport stage does when the fetch of the transport
    fails. *)
Lemma tpCtx_rpc_error (hv : Hypervisor) (r : Request) (h : handlerFunc)
    (pk : PubKey) (c : VisorConn) (tid : UUID) (e : error) :
  pkFromParam r "pk" = Ok pk →
  visors hv !! pk = Some c →
  uuidFromParam r "tid" = Ok tid →
  rpcTransport (RPC c) tid = Err e →
  trace (withCtx (tpCtx hv) h r) =
    [EvRLock; EvRUnlock; EvRPC (VAddr c) (CallTransport tid);
     if String.eqb (Error e) (Error ErrNotFound) then
       EvWriteJSON StatusNotFound
         (BErr (mkError ("transport of ID " ++ uuid_String tid ++ " is not found")))
     else EvWriteJSON StatusInternalServerError (BErr e)].
Proof.
  intros Hpk Hlook Htid Hrpc.
  unfold withCtx, tpCtx, bind, trace, call.
  erewrite visorCtx_found by done. rewrite Htid; simpl. rewrite Hrpc.
  by destruct (String.eqb _ _).
Qed.

(** C6: at the transport stage, an RPC error whose message is that of
    [visor.ErrNotFound] is answered with 404 and a message naming the
    transport, any other RPC error with 500 and the error itself; in both
    cases the handler does not run. *)
Theorem transport_stage_error_mapping
    (hv : Hypervisor) (r : Request) (h : handlerFunc)
    (pk : PubKey) (c : VisorConn) (tid : UUID) (e : error) :
  pkFromParam r "pk" = Ok pk →
  visors hv !! pk = Some c →
  uuidFromParam r "tid" = Ok tid →
  rpcTransport (RPC c) tid = Err e →
  (Error e = Error ErrNotFound →
     trace (withCtx (tpCtx hv) h r) =
       [EvRLock; EvRUnlock; EvRPC (VAddr c) (CallTransport tid);
        EvWriteJSON StatusNotFound
          (BErr (mkError ("transport of ID " ++ uuid_String tid ++ " is not found")))])
  ∧ (Error e ≠ Error ErrNotFound →
     trace (withCtx (tpCtx hv) h r) =
       [EvRLock; EvRUnlock; EvRPC (VAddr c) (CallTransport tid);
        EvWriteJSON StatusInternalServerError (BErr e)]).
Proof.
  intros Hpk Hlook Htid Hrpc.
  rewrite (tpCtx_rpc_error hv r h pk c tid e) by done.
  split; intros Hmsg.
  - apply String.eqb_eq in Hmsg. by rewrite Hmsg.
  - apply String.eqb_neq in Hmsg. by rewrite Hmsg.
Qed.

(** ** Errors of remote calls *)

Lemma routeCtx_found (hv : Hypervisor) (r : Request) (pk : PubKey) (c : VisorConn)
    (rid : RouteID) :
  pkFromParam r "pk" = Ok pk →
  visors hv !! pk = Some c →
  ridFromParam r "rid" = Ok rid →
  routeCtx hv r =
    ([EvRLock; EvRUnlock], Some {| Conn := c; App := None; Tp := None; RtKey := rid |}).
Proof.
  intros Hpk Hlook Hrid. unfold routeCtx, bind.
  erewrite visorCtx_found by done. by rewrite Hrid.
Qed.

Lemma appCtx_found (hv : Hypervisor) (r : Request) (pk : PubKey) (c : VisorConn)
    (apps : list AppState) (a : AppState) :
  pkFromParam r "pk" = Ok pk →
  visors hv !! pk = Some c →
  rpcApps (RPC c) = Ok apps →
  List.find (λ a, String.eqb (Name a) (URLParam r "app")) apps = Some a →
  appCtx hv r =
    ([EvRLock; EvRUnlock; EvRPC (VAddr c) CallApps],
     Some {| Conn := c; App := Some a; Tp := None; RtKey := 0%N |}).
Proof.
  intros Hpk Hlook Happs Hfind. unfold appCtx, bind, call.
  erewrite visorCtx_found by done. simpl. rewrite Happs, Hfind. done.
Qed.

(** A context that [appCtx] hands out always has its app. *)
Lemma appCtx_App (hv : Hypervisor) (r : Request) (t : list Event) (ctx : httpCtx) :
  appCtx hv r = (t, Some ctx) → is_Some (App ctx).
Proof.
  unfold appCtx, bind, call.
  destruct (visorCtx hv r) as [t0 [ctx0|]]; simpl; [|congruence].
  destruct (rpcApps (RPC (Conn ctx0))); simpl; [|congruence].
  destruct (List.find _ a); simpl; [|congruence].
  intros [= _ <-]. by eexists.
Qed.

(** How five call sites answer an error of their call. *)
Lemma remote_failure_sites
    (hv : Hypervisor) (r : Request) (pk : PubKey) (c : VisorConn) (e : error) :
  pkFromParam r "pk" = Ok pk →
  visors hv !! pk = Some c →
  (∀ (rid : RouteID) (q : bool),
      ridFromParam r "rid" = Ok rid →
      BoolFromQuery r "summary" true = Ok q →
      rpcRoutingRule (RPC c) rid = Err e →
      response (trace (getRoute hv r)) = Some (StatusNotFound, BErr e))
  ∧ (∀ rid : RouteID,
      ridFromParam r "rid" = Ok rid →
      rpcRemoveRoutingRule (RPC c) rid = Some e →
      response (trace (deleteRoute hv r)) = Some (StatusNotFound, BErr e))
  ∧ (∀ (tid : UUID) (h : handlerFunc),
      uuidFromParam r "tid" = Ok tid →
      rpcTransport (RPC c) tid = Err e →
      Error e ≠ Error ErrNotFound →
      response (trace (withCtx (tpCtx hv) h r)) = Some (StatusInternalServerError, BErr e))
  ∧ (rpcUptime (RPC c) = Err e →
      response (trace (getUptime hv r)) = Some (StatusInternalServerError, BErr e))
  ∧ (rpcRestart (RPC c) = Some e →
      response (trace (restart hv r)) = Some (StatusInternalServerError, BErr e)).
Proof.
  intros Hpk Hlook. repeat split.
  - intros rid q Hrid Hq Hrpc.
    unfold getRoute, withCtx, bind, trace, call.
    erewrite routeCtx_found by done. simpl. by rewrite Hq, Hrpc.
  - intros rid Hrid Hrpc.
    unfold deleteRoute, withCtx, bind, trace, call.
    erewrite routeCtx_found by done. simpl. by rewrite Hrpc.
  - intros tid h Htid Hrpc Hmsg.
    rewrite (tpCtx_rpc_error hv r h pk c tid e) by done.
    apply String.eqb_neq in Hmsg. by rewrite Hmsg.
  - intros Hrpc.
    unfold getUptime, withCtx, bind, trace, call.
    erewrite visorCtx_found by done. simpl. by rewrite Hrpc.
  - intros Hrpc.
    unfold restart, withCtx, bind, trace, call.
    erewrite visorCtx_found by done. simpl. by rewrite Hrpc.
Qed.

(** ** Application logs *)

(** C10: when the app stage has resolved the app and [LogsSince]
    succeeds, an empty list of entries is answered with 500 and the
    message "no new available logs", and a non-empty one with 200, the
    entries, and the timestamp of the last entry. *)
Theorem appLogsSince_empty_is_error
    (hv : Hypervisor) (r : Request) (pk : PubKey) (c : VisorConn)
    (apps : list AppState) (a : AppState) (t : Time) (logs : list string) :
  pkFromParam r "pk" = Ok pk →
  visors hv !! pk = Some c →
  rpcApps (RPC c) = Ok apps →
  List.find (λ a, String.eqb (Name a) (URLParam r "app")) apps = Some a →
  t = match time_Parse_RFC3339Nano (replace_first_space (Query_Get r "since")) with
      | Ok t => t
      | Err _ => 0%Z
      end →
  rpcLogsSince (RPC c) t (Name a) = Ok logs →
  (logs = [] →
     response (trace (appLogsSince hv r)) =
       Some (StatusInternalServerError, BErr (mkError "no new available logs")))
  ∧ (logs ≠ [] →
     response (trace (appLogsSince hv r)) =
       Some (StatusOK,
             BLogs {| LastLogTimestamp := TimestampFromLog (List.last logs "");
                      Logs := logs |})).
Proof.
  intros Hpk Hlook Happs Hfind Ht Hlogs.
  unfold appLogsSince, withCtx, bind, trace, call.
  erewrite appCtx_found by done. simpl. unfold App_Name; simpl.
  rewrite <- Ht, Hlogs.
  split; intros Hl.
  - by subst logs.
  - destruct logs as [|l logs]; done.
Qed.

(** ** The fleet summary: scatter and gather *)

Lemma foldl_runTask (order : list (PubKey * VisorConn)) (sched : list nat)
    (t : list Event) (s : list summaryResp) :
  foldl (runTask order) (t, s) sched =
    (t ++ flat_map (task_events order) sched, foldl (store order) s sched).
Proof.
  revert t s. induction sched as [|i sched IH]; intros t s; simpl.
  - by rewrite app_nil_r.
  - unfold runTask at 2, store at 2, task_events at 1.
    destruct (order !! i) as [[pk c]|]; simpl.
    + rewrite IH. by rewrite <- app_assoc.
    + by rewrite IH.
Qed.

Lemma length_store (order : list (PubKey * VisorConn)) (s : list summaryResp) (i : nat) :
  length (store order s i) = length s.
Proof. unfold store. destruct (order !! i); [apply length_insert | done]. Qed.

Lemma lookup_foldl_store (order : list (PubKey * VisorConn)) (sched : list nat)
    (s : list summaryResp) (j : nat) :
  length s = length order →
  foldl (store order) s sched !! j =
    if decide (j ∈ sched) then slot_of <$> order !! j else s !! j.
Proof.
  revert s. induction sched as [|i sched IH]; intros s Hlen; cbn [foldl].
  - destruct (decide (j ∈ [])) as [Hin|]; [by apply elem_of_nil in Hin | done].
  - rewrite IH by (by rewrite length_store).
    destruct (decide (j ∈ sched)) as [Hin|Hnin].
    + rewrite decide_True by (by right). done.
    + destruct (decide (j = i)) as [->|Hne].
      * rewrite decide_True by left. unfold store.
        destruct (order !! i) as [e|] eqn:He; simpl.
        -- apply list_lookup_insert_eq. rewrite Hlen. by eapply lookup_lt_Some.
        -- apply lookup_ge_None. rewrite Hlen. by apply lookup_ge_None.
      * rewrite decide_False by (intros [?|?]%elem_of_cons; done).
        unfold store. destruct (order !! i); [|done].
        by apply list_lookup_insert_ne.
Qed.

(** Every slot ends up holding the value of the entry at its index, in
    whatever order the goroutines ran. *)
Lemma foldl_store_all (order : list (PubKey * VisorConn)) (sched : list nat)
    (s : list summaryResp) :
  schedule_of order sched →
  length s = length order →
  foldl (store order) s sched = slot_of <$> order.
Proof.
  intros Hsched Hlen. apply list_eq; intros j.
  rewrite lookup_foldl_store, list_lookup_fmap by done.
  destruct (decide (j ∈ sched)) as [|Hin]; [done|].
  assert (length order ≤ j)%nat as Hge.
  { destruct (decide (j < length order)%nat) as [Hlt|]; [|lia].
    exfalso. apply Hin. unfold schedule_of in Hsched. rewrite Hsched.
    apply elem_of_seq. lia. }
  rewrite (lookup_ge_None_2 order j) by done.
  apply lookup_ge_None_2. lia.
Qed.

Lemma range_of_length (hv : Hypervisor) (order : list (PubKey * VisorConn)) :
  range_of hv order → length order = size (visors hv).
Proof.
  intros Hr. unfold range_of in Hr. rewrite Hr. apply length_map_to_list.
Qed.

Lemma task_events_rpc (order : list (PubKey * VisorConn)) (sched : list nat) :
  Forall (λ e, is_rpc e = true) (flat_map (task_events order) sched).
Proof.
  induction sched as [|i sched IH]; simpl; [constructor|].
  apply Forall_app; split; [|done].
  unfold task_events. destruct (order !! i); repeat constructor.
Qed.

Lemma response_skip_rpc (calls t : list Event) :
  Forall (λ e, is_rpc e = true) calls →
  response (calls ++ t) = response t.
Proof.
  induction 1 as [|e calls He _ IH]; simpl; [done|].
  destruct e; simpl in *; try done.
Qed.

Lemma getVisors_trace (hv : Hypervisor) (order : list (PubKey * VisorConn))
    (sched : list nat) (r : Request) :
  trace (getVisors hv order sched r) =
    EvRLock :: flat_map (task_events order) sched ++
    [EvRUnlock;
     EvWriteJSON StatusOK
       (BSummaries (foldl (store order) (replicate (size (visors hv)) zero_summaryResp) sched))].
Proof.
  unfold getVisors, trace, bind, ret, emit, WriteJSON; simpl.
  rewrite foldl_runTask; simpl. done.
Qed.

(** Slot [i] of the result belongs to the [i]-th entry of the iteration. *)
Lemma getVisors_summaries (hv : Hypervisor) (order : list (PubKey * VisorConn))
    (sched : list nat) (r : Request) :
  range_of hv order →
  schedule_of order sched →
  response (trace (getVisors hv order sched r)) =
    Some (StatusOK, BSummaries (slot_of <$> order)).
Proof.
  intros Hr Hs. rewrite getVisors_trace. simpl.
  rewrite response_skip_rpc by apply task_events_rpc. simpl.
  rewrite foldl_store_all; [done..|].
  rewrite length_replicate. symmetry. by apply range_of_length.
Qed.

Lemma length_filter_fmap {A B} (f : A → B) (P : B → Prop) `{∀ x, Decision (P x)}
    (l : list A) :
  length (filter P (f <$> l)) = length (filter (λ x, P (f x)) l).
Proof.
  induction l as [|x l IH]; [done|].
  rewrite fmap_cons, !filter_cons.
  destruct (decide (P (f x))); cbn [length]; by rewrite IH.
Qed.

Lemma filter_split_length {A} (P : A → Prop) `{∀ x, Decision (P x)} (l : list A) :
  length (filter P l) + length (filter (λ x, ¬ P x) l) = length l.
Proof.
  induction l as [|x l IH]; simpl; [done|].
  rewrite !filter_cons. destruct (decide (P x)), (decide (¬ P x)); simpl; try lia; tauto.
Qed.

Lemma slot_of_Online (e : PubKey * VisorConn) :
  Online (slot_of e) = is_ok (rpcSummary (RPC e.2)).
Proof. reflexivity. Qed.

(** C3: over a registry of N visors of which M fail their [Summary]
    call, the fan-out answers 200 with N entries, whatever fails; M of them
    are offline and N - M online; the entry of a failing visor is marked
    offline and carries the visor's address and a summary in which the
    public key of the visor is set and every other field is empty; the
    entry of any other visor is marked online and carries its address and
    the summary it returned. *)
Theorem fanout_tolerates_failures
    (hv : Hypervisor) (order : list (PubKey * VisorConn)) (sched : list nat) (r : Request) :
  range_of hv order →
  schedule_of order sched →
  response (trace (getVisors hv order sched r)) =
    Some (200%Z, BSummaries (summaries_written (trace (getVisors hv order sched r))))
  ∧ length (summaries_written (trace (getVisors hv order sched r))) = size (visors hv)
  ∧ length (filter (λ s, Online s = false)
              (summaries_written (trace (getVisors hv order sched r))))
    = length (filter summary_fails (map_to_list (visors hv)))
  ∧ length (filter (λ s, Online s = true)
              (summaries_written (trace (getVisors hv order sched r))))
    = size (visors hv) - length (filter summary_fails (map_to_list (visors hv)))
  ∧ (∀ (i : nat) (pk : PubKey) (c : VisorConn),
      order !! i = Some (pk, c) →
      summaries_written (trace (getVisors hv order sched r)) !! i =
        Some match rpcSummary (RPC c) with
             | Err _ =>
                 {| TCPAddr := Addr_String (VAddr c); Online := false;
                    RespSummary :=
                      Some {| SumPubKey := pk; AppProtoVersion := "";
                              SumApps := []; SumTransports := [];
                              RoutesCount := 0 |} |}
             | Ok summary =>
                 {| TCPAddr := Addr_String (VAddr c); Online := true;
                    RespSummary := Some summary |}
             end).
Proof.
  intros Hr Hs.
  pose proof (getVisors_summaries hv order sched r Hr Hs) as Hresp.
  unfold summaries_written. rewrite Hresp.
  assert (length (filter (λ s, Online s = false) (slot_of <$> order))
          = length (filter summary_fails (map_to_list (visors hv)))) as Hoff.
  { rewrite length_filter_fmap. unfold range_of in Hr. rewrite <- Hr. done. }
  split; [done|]. split; [|split; [done|split]].
  - rewrite length_fmap. by apply range_of_length.
  - rewrite <- Hoff, <- (range_of_length hv order Hr), <- (length_fmap slot_of order).
    rewrite <- (filter_split_length (λ s, Online s = false) (slot_of <$> order)).
    assert (∀ l : list summaryResp,
              length (filter (λ s, Online s = true) l)
              = length (filter (λ s, ¬ Online s = false) l)) as Heq.
    { induction l as [|x l IH]; simpl; [done|].
      rewrite !filter_cons.
      destruct (decide (Online x = true)), (decide (¬ Online x = false));
        simpl; try (by rewrite IH); destruct (Online x); naive_solver. }
    rewrite Heq. lia.
  - intros i pk c Hi. rewrite list_lookup_fmap, Hi. simpl.
    unfold slot_of; simpl. by destruct (rpcSummary (RPC c)).
Qed.

(** C8, as the code has it: slot [i] of the result holds the outcome of
    the [i]-th entry that this run's iteration over the registry map
    produced, whatever the order in which the goroutines ran; two runs
    over the same registry may iterate it in different orders, and their
    results then hold the same entries, each a rearrangement of the
    other. *)
Theorem fanout_order_is_iteration_order
    (hv : Hypervisor) (order1 order2 : list (PubKey * VisorConn))
    (sched1 sched2 : list nat) (r : Request) :
  range_of hv order1 → schedule_of order1 sched1 →
  range_of hv order2 → schedule_of order2 sched2 →
  summaries_written (trace (getVisors hv order1 sched1 r)) = slot_of <$> order1
  ∧ summaries_written (trace (getVisors hv order2 sched2 r)) = slot_of <$> order2
  ∧ summaries_written (trace (getVisors hv order1 sched1 r))
      ≡ₚ summaries_written (trace (getVisors hv order2 sched2 r))
  ∧ (order1 = order2 →
     summaries_written (trace (getVisors hv order1 sched1 r))
     = summaries_written (trace (getVisors hv order2 sched2 r))).
Proof.
  intros Hr1 Hs1 Hr2 Hs2. unfold summaries_written.
  rewrite !getVisors_summaries by done.
  repeat split; [|by intros ->].
  unfold range_of in *. by rewrite Hr1, Hr2.
Qed.

(** ** The scope of the registry lock *)

Lemma lock_free_app (t1 t2 : list Event) :
  lock_free t1 = true → lock_free t2 = true → lock_free (t1 ++ t2) = true.
Proof. unfold lock_free. intros H1 H2. by rewrite forallb_app, H1, H2. Qed.

Lemma lock_free_outside (t : list Event) (held : nat) :
  lock_free t = true → held = 0%nat → rpc_outside_lock held t = true.
Proof.
  intros Hfree ->. induction t as [|e t IH]; [done|].
  destruct e; simpl in *; try done; by apply IH.
Qed.

Lemma lock_first_app (t1 t2 : list Event) :
  lock_first t1 → lock_free t2 = true → lock_first (t1 ++ t2).
Proof.
  intros (rest & Hfree & [->| ->]) H2; exists (rest ++ t2);
    (split; [by apply lock_free_app|]); [by left | by right].
Qed.

Lemma lock_first_outside (t : list Event) :
  lock_first t → rpc_outside_lock 0 t = true.
Proof.
  intros (rest & Hfree & [->| ->]); simpl; by apply lock_free_outside.
Qed.

Lemma visorCtx_lock_first (hv : Hypervisor) (r : Request) :
  lock_first (trace (visorCtx hv r)).
Proof.
  unfold visorCtx. destruct (pkFromParam r "pk") as [pk|e].
  - rewrite visorConn_eq. unfold bind, trace; simpl.
    destruct (visors hv !! pk); simpl; eexists; (split; [|by right]); done.
  - eexists; split; [|by left]; done.
Qed.

(** Each later stage only adds effects that leave the lock alone. *)
Lemma stage_extends (hv : Hypervisor) (r : Request) :
  (∃ extra, lock_free extra = true
            ∧ trace (appCtx hv r) = trace (visorCtx hv r) ++ extra)
  ∧ (∃ extra, lock_free extra = true
              ∧ trace (tpCtx hv r) = trace (visorCtx hv r) ++ extra)
  ∧ (∃ extra, lock_free extra = true
              ∧ trace (routeCtx hv r) = trace (visorCtx hv r) ++ extra).
Proof.
  unfold appCtx, tpCtx, routeCtx, bind, call, trace.
  destruct (visorCtx hv r) as [t [ctx|]]; simpl.
  - repeat split.
    + destruct (rpcApps (RPC (Conn ctx))) as [apps|e]; simpl;
        [destruct (List.find _ apps); simpl|]; eexists; (split; [|done]); done.
    + destruct (uuidFromParam r "tid") as [tid|e]; simpl;
        [destruct (rpcTransport (RPC (Conn ctx)) tid) as [tp|e]; simpl;
         [|destruct (String.eqb _ _); simpl]|];
        eexists; (split; [|done]); done.
    + destruct (ridFromParam r "rid"); simpl; eexists; (split; [|done]); done.
  - repeat split; exists []; by rewrite app_nil_r.
Qed.

Lemma stage_lock_first (hv : Hypervisor) (r : Request) (vf : valuesFunc) :
  vf = visorCtx hv ∨ vf = appCtx hv ∨ vf = tpCtx hv ∨ vf = routeCtx hv →
  lock_first (trace (vf r)).
Proof.
  destruct (stage_extends hv r) as ((xa & Ha & Ea) & (xt & Ht & Et) & (xr & Hr & Er)).
  intros [->|[->|[->| ->]]].
  - apply visorCtx_lock_first.
  - rewrite Ea. by apply lock_first_app; [apply visorCtx_lock_first|].
  - rewrite Et. by apply lock_first_app; [apply visorCtx_lock_first|].
  - rewrite Er. by apply lock_first_app; [apply visorCtx_lock_first|].
Qed.

Lemma withCtx_trace (vf : valuesFunc) (h : handlerFunc) (r : Request) :
  trace (withCtx vf h r) =
    trace (vf r) ++ match (vf r).2 with
                    | Some ctx => trace (h r ctx)
                    | None => []
                    end.
Proof.
  unfold withCtx, bind, trace. destruct (vf r) as [t [ctx|]]; simpl; [|done].
  by destruct (h r ctx).
Qed.

(** A handler that leaves the lock alone, behind any stage of the chain,
    issues its RPC calls with the lock released. *)
Lemma withCtx_outside_lock (hv : Hypervisor) (vf : valuesFunc) (h : handlerFunc)
    (r : Request) :
  vf = visorCtx hv ∨ vf = appCtx hv ∨ vf = tpCtx hv ∨ vf = routeCtx hv →
  (∀ ctx, lock_free (trace (h r ctx)) = true) →
  rpc_outside_lock 0 (trace (withCtx vf h r)) = true.
Proof.
  intros Hvf Hh. rewrite withCtx_trace.
  apply lock_first_outside, lock_first_app; [by apply (stage_lock_first hv)|].
  destruct (vf r).2; [apply Hh | done].
Qed.

Lemma rpc_inside_lock_calls (calls t : list Event) (held : nat) :
  Forall (λ e, is_rpc e = true) calls →
  rpc_inside_lock (S held) (calls ++ t) = rpc_inside_lock (S held) t.
Proof.
  induction 1 as [|e calls He _ IH]; simpl; [done|].
  destruct e; simpl in *; done.
Qed.

Lemma health_written_lock_free (pick : bool) (c : RPCClient) :
  lock_free (written (health_final pick c)) = true.
Proof.
  unfold health_final, health_fuel, health_run, health_step, health_init; simpl.
  destruct (HealthLatency c) as [t|]; simpl;
    [destruct (t <? healthTimeout)%Z; simpl|];
    destruct (rpcHealth c); reflexivity.
Qed.

Ltac handler_lock_free :=
  intros; unfold trace, bind, call, WriteJSON, emit, ret; simpl;
  repeat match goal with
         | |- context [match ?x with _ => _ end] =>
             lazymatch x with
             | context [match _ with _ => _ end] => fail
             | _ => destruct x; simpl
             end
         end;
  try reflexivity.

Lemma resolved_handlers_outside_lock (hv : Hypervisor) (pick : bool) :
  Forall (λ hd : Request -> Eff unit, ∀ r, rpc_outside_lock 0 (trace (hd r)) = true)
         (resolved_handlers hv pick).
Proof.
  unfold resolved_handlers.
  repeat apply Forall_cons_2; [..|apply Forall_nil_2]; intros r.
  - apply (withCtx_outside_lock hv); [tauto|]. intros ctx.
    unfold trace, bind, emit; simpl. apply health_written_lock_free.
  - apply (withCtx_outside_lock hv); [tauto|]. handler_lock_free.
  - apply (withCtx_outside_lock hv); [tauto|]. handler_lock_free.
  - apply (withCtx_outside_lock hv); [tauto|]. handler_lock_free.
  - apply (withCtx_outside_lock hv); [tauto|]. handler_lock_free.
  - apply (withCtx_outside_lock hv); [tauto|]. handler_lock_free.
  - apply (withCtx_outside_lock hv); [tauto|]. handler_lock_free.
  - apply (withCtx_outside_lock hv); [tauto|]. handler_lock_free.
  - apply (withCtx_outside_lock hv); [tauto|]. handler_lock_free.
  - apply (withCtx_outside_lock hv); [tauto|]. handler_lock_free.
  - apply (withCtx_outside_lock hv); [tauto|]. handler_lock_free.
Qed.

Lemma length_task_events (order : list (PubKey * VisorConn)) (sched : list nat) :
  Forall (λ i, i < length order)%nat sched →
  length (flat_map (task_events order) sched) = length sched.
Proof.
  induction 1 as [|i sched Hi _ IH]; simpl; [done|].
  rewrite length_app, IH. unfold task_events.
  destruct (lookup_lt_is_Some_2 order i Hi) as [e ->]. done.
Qed.

(** The lock scope of the handlers whose effects are all in [Event], and
    of the fleet summary. *)
Lemma base_lock_scope (hv : Hypervisor) (pick : bool) :
  Forall (λ hd : Request -> Eff unit, ∀ r, rpc_outside_lock 0 (trace (hd r)) = true)
         (resolved_handlers hv pick)
  ∧ (∀ (order : list (PubKey * VisorConn)) (sched : list nat) (r : Request),
      range_of hv order →
      schedule_of order sched →
      ∃ calls : list Event,
        trace (getVisors hv order sched r) =
          EvRLock :: calls ++
          [EvRUnlock; EvWriteJSON StatusOK (BSummaries (slot_of <$> order))]
        ∧ Forall (λ e, is_rpc e = true) calls
        ∧ length calls = size (visors hv)
        ∧ rpc_inside_lock 0 (trace (getVisors hv order sched r)) = true).
Proof.
  split; [apply resolved_handlers_outside_lock|].
  intros order sched r Hr Hs.
  exists (flat_map (task_events order) sched).
  rewrite getVisors_trace.
  rewrite foldl_store_all;
    [|done|rewrite length_replicate; symmetry; by apply range_of_length].
  repeat split.
  - apply task_events_rpc.
  - rewrite length_task_events.
    + unfold schedule_of in Hs. rewrite Hs, length_seq. by apply range_of_length.
    + apply Forall_forall. intros i Hi. unfold schedule_of in Hs.
      rewrite Hs in Hi. apply elem_of_seq in Hi. lia.
  - simpl. by rewrite rpc_inside_lock_calls by apply task_events_rpc.
Qed.

(** ** The health probe *)

(** The response for a call that came back, and the response for the
    deadline. *)
Lemma health_final_in_time (pick : bool) (c : RPCClient) (t : Duration) :
  HealthLatency c = Some t → (t < healthTimeout)%Z →
  health_final pick c =
    health_recv (rpcHealth c)
      {| now := t; tFired := false; gor := GSending (rpcHealth c);
         hdl := HSelect; written := [] |}.
Proof.
  intros Hlat Hlt. apply Z.ltb_lt in Hlt.
  unfold health_final, health_fuel, health_run, health_step, health_init; simpl.
  rewrite Hlat, Hlt; simpl. done.
Qed.

Lemma health_final_late (pick : bool) (c : RPCClient) (t : Duration) :
  HealthLatency c = Some t → (healthTimeout ≤ t)%Z →
  health_final pick c =
    {| now := t; tFired := true; gor := GSending (rpcHealth c); hdl := HReturned;
       written := [EvWriteJSON StatusRequestTimeout
                     (BHealth {| Status := StatusRequestTimeout;
                                 VHHealthInfo := None |})] |}.
Proof.
  intros Hlat Hle.
  assert ((t <? healthTimeout)%Z = false) as Hnlt by (apply Z.ltb_ge; lia).
  assert (Z.max healthTimeout t = t) as Hmax by lia.
  unfold health_final, health_fuel, health_run, health_step, health_init; simpl.
  rewrite Hlat, Hnlt; simpl. rewrite ?Hlat; simpl. by rewrite Hmax.
Qed.

Lemma health_final_never (pick : bool) (c : RPCClient) :
  HealthLatency c = None →
  health_final pick c =
    {| now := healthTimeout; tFired := true; gor := GCalling; hdl := HReturned;
       written := [EvWriteJSON StatusRequestTimeout
                     (BHealth {| Status := StatusRequestTimeout;
                                 VHHealthInfo := None |})] |}.
Proof.
  intros Hlat.
  unfold health_final, health_fuel, health_run, health_step, health_init; simpl.
  rewrite Hlat; simpl. by rewrite ?Hlat.
Qed.

(** After [health_fuel] steps nothing can happen any more. *)
Lemma health_run_rest (pick : bool) (c : RPCClient) :
  health_step pick c (health_final pick c) = None.
Proof.
  destruct (HealthLatency c) as [t|] eqn:Hlat.
  - destruct (Z.lt_ge_cases t healthTimeout) as [Hlt|Hge].
    + by rewrite (health_final_in_time pick c t).
    + by rewrite (health_final_late pick c t).
  - rewrite health_final_never by done.
    unfold health_step; simpl. by rewrite Hlat.
Qed.

Lemma health_run_stuck (pick : bool) (c : RPCClient) (st : HealthSt) (n : nat) :
  health_step pick c st = None → health_run n pick c st = st.
Proof. intros Hs. destruct n; simpl; [done|]. by rewrite Hs. Qed.

Lemma health_run_add (pick : bool) (c : RPCClient) (m k : nat) (st : HealthSt) :
  health_run (m + k) pick c st = health_run k pick c (health_run m pick c st).
Proof.
  revert st. induction m as [|m IH]; intros st; simpl; [done|].
  destruct (health_step pick c st) as [st'|] eqn:Hs; [apply IH|].
  symmetry. by apply health_run_stuck.
Qed.

Lemma health_run_rests (pick : bool) (c : RPCClient) (n : nat) :
  health_run (health_fuel + n) pick c health_init = health_final pick c.
Proof.
  rewrite health_run_add. apply health_run_stuck, health_run_rest.
Qed.

Lemma getHealth_trace (hv : Hypervisor) (pick : bool) (r : Request)
    (pk : PubKey) (c : VisorConn) :
  pkFromParam r "pk" = Ok pk →
  visors hv !! pk = Some c →
  trace (getHealth hv pick r) =
    [EvRLock; EvRUnlock; EvRPC (VAddr c) CallHealth]
    ++ written (health_final pick (RPC c)).
Proof.
  intros Hpk Hlook. unfold getHealth, withCtx, bind, trace, emit.
  erewrite visorCtx_found by done. done.
Qed.

(** The race does not depend on how [select] would choose between two
    ready cases: from [health_init] the two are never ready together. *)
Lemma health_final_pick (pick pick' : bool) (c : RPCClient) :
  health_final pick c = health_final pick' c.
Proof.
  destruct (HealthLatency c) as [t|] eqn:Hlat.
  - destruct (Z.lt_ge_cases t healthTimeout) as [Hlt|Hge].
    + by rewrite !(health_final_in_time _ c t).
    + by rewrite !(health_final_late _ c t).
  - by rewrite !health_final_never.
Qed.

(** C4: the deadline is five seconds.  With the node resolved, a
    [Health] call that returns in time t < deadline is answered with its
    outcome: 200 and the health report when it succeeded, and the failure
    status 500 (inside the report) when it failed.  A call that returns in
    time t >= deadline is answered with the request-timeout outcome 408,
    whatever the late call returns, and so is a call that never returns.
    The timeout outcome differs from the outcome of a failed call. *)
Theorem health_probe_race
    (hv : Hypervisor) (pick : bool) (r : Request) (pk : PubKey) (c : VisorConn) :
  pkFromParam r "pk" = Ok pk →
  visors hv !! pk = Some c →
  healthTimeout = 5000000000%Z
  ∧ (∀ t : Duration,
      HealthLatency (RPC c) = Some t → (t < healthTimeout)%Z →
      response (trace (getHealth hv pick r)) =
        Some (200%Z,
              BHealth match rpcHealth (RPC c) with
                      | Ok h => {| Status := 200; VHHealthInfo := Some h |}
                      | Err _ => {| Status := 500; VHHealthInfo := None |}
                      end))
  ∧ (∀ t : Duration,
      HealthLatency (RPC c) = Some t → (healthTimeout ≤ t)%Z →
      response (trace (getHealth hv pick r)) =
        Some (408%Z, BHealth {| Status := 408; VHHealthInfo := None |}))
  ∧ (HealthLatency (RPC c) = None →
      response (trace (getHealth hv pick r)) =
        Some (408%Z, BHealth {| Status := 408; VHHealthInfo := None |}))
  ∧ (408%Z, BHealth {| Status := 408; VHHealthInfo := None |})
    ≠ (200%Z, BHealth {| Status := 500; VHHealthInfo := None |}).
Proof.
  intros Hpk Hlook. split; [reflexivity|]. repeat split.
  - intros t Hlat Hlt. rewrite (getHealth_trace hv pick r pk c) by done.
    rewrite (health_final_in_time pick (RPC c) t) by done. simpl.
    by destruct (rpcHealth (RPC c)).
  - intros t Hlat Hge. rewrite (getHealth_trace hv pick r pk c) by done.
    by rewrite (health_final_late pick (RPC c) t) by done.
  - intros Hlat. rewrite (getHealth_trace hv pick r pk c) by done.
    by rewrite health_final_never.
  - discriminate.
Qed.

(** When the deadline fires first, the goroutine gets as far as its send
    on [resCh] and stays there: nothing can happen any more and it has not
    exited. *)
Lemma health_late_call_blocks (pick : bool) (c : RPCClient) (t : Duration) (n : nat) :
  HealthLatency c = Some t → (healthTimeout < t)%Z →
  hdl (health_run (health_fuel + n) pick c health_init) = HReturned
  ∧ gor (health_run (health_fuel + n) pick c health_init) = GSending (rpcHealth c)
  ∧ health_step pick c (health_run (health_fuel + n) pick c health_init) = None.
Proof.
  intros Hlat Hlt. rewrite health_run_rests.
  split; [|split]; [| |apply health_run_rest];
    by rewrite (health_final_late pick c t) by (done || lia).
Qed.

(** C9, on the code: for a visor whose [Health] call takes 10 seconds,
    the handler answers with the timeout and returns, and from then on, for
    any number of further steps, the goroutine that made the call is at
    its send on the unbuffered [resCh] with no step left to take: it never
    delivers its result and never exits. *)
Theorem health_timeout_blocks_goroutine (pick : bool) (n : nat) :
  written (health_run (health_fuel + n) pick
             (good_client pkC (Some (10 * Second)%Z)) health_init)
    = [EvWriteJSON StatusRequestTimeout
         (BHealth {| Status := StatusRequestTimeout; VHHealthInfo := None |})]
  ∧ hdl (health_run (health_fuel + n) pick
           (good_client pkC (Some (10 * Second)%Z)) health_init) = HReturned
  ∧ gor (health_run (health_fuel + n) pick
           (good_client pkC (Some (10 * Second)%Z)) health_init)
    = GSending (Ok sample_health)
  ∧ gor (health_run (health_fuel + n) pick
           (good_client pkC (Some (10 * Second)%Z)) health_init) ≠ GExited
  ∧ health_step pick (good_client pkC (Some (10 * Second)%Z))
      (health_run (health_fuel + n) pick
         (good_client pkC (Some (10 * Second)%Z)) health_init) = None.
Proof.
  destruct (health_late_call_blocks pick (good_client pkC (Some (10 * Second)%Z))
              (10 * Second)%Z n) as (Hh & Hg & Hs); [done|reflexivity|].
  rewrite Hg. repeat split; try done.
  rewrite health_run_rests.
  by rewrite (health_final_late pick _ (10 * Second)%Z) by done.
Qed.

(** * Further properties of the code *)

(** ** The accept loop and the registry *)

Lemma ServeRPC_app (hv : Hypervisor) (conns : list Stream) (rest : list (result Stream)) :
  ServeRPC hv ((Ok <$> conns) ++ rest) = ServeRPC (foldl accept hv conns) rest.
Proof.
  revert hv. induction conns as [|conn conns IH]; intros hv; [done|].
  simpl. apply IH.
Qed.

(** The outcomes of [AcceptStream] up to the first error are streams. *)
Lemma accepted_prefix (incoming : list (result Stream)) :
  (∃ conns, incoming = Ok <$> conns)
  ∨ (∃ conns e rest, incoming = (Ok <$> conns) ++ Err e :: rest).
Proof.
  induction incoming as [|[conn|e] incoming IH].
  - left. by exists [].
  - destruct IH as [(conns & ->)|(conns & e & rest & ->)].
    + left. by exists (conn :: conns).
    + right. by exists (conn :: conns), e, rest.
  - right. by exists [], e, incoming.
Qed.

Lemma well_keyed_accept (hv : Hypervisor) (conn : Stream) :
  well_keyed hv → well_keyed (accept hv conn).
Proof.
  intros Hwk k c. unfold accept; simpl.
  destruct (decide (PK (RawRemoteAddr conn) = k)) as [<-|Hne].
  - rewrite lookup_insert_eq. by intros [= <-].
  - rewrite lookup_insert_ne by done. apply Hwk.
Qed.

Lemma well_keyed_accepts (hv : Hypervisor) (conns : list Stream) :
  well_keyed hv → well_keyed (foldl accept hv conns).
Proof.
  revert hv. induction conns as [|conn conns IH]; intros hv Hwk; [done|].
  simpl. by apply IH, well_keyed_accept.
Qed.

Lemma ServeRPC_state (hv : Hypervisor) (incoming : list (result Stream)) :
  ∃ conns, (ServeRPC hv incoming).1 = foldl accept hv conns.
Proof.
  destruct (accepted_prefix incoming) as [(conns & ->)|(conns & e & rest & ->)];
    exists conns.
  - by rewrite ServeRPC_accepts.
  - by rewrite ServeRPC_app.
Qed.

(** X1: however the accept loop ran, every connection in the registry
    is stored under the public key of its own remote address, and its
    terminal dialer targets that same key on the pty port. *)
Theorem registry_keys_match_addresses
    (incoming : list (result Stream)) (k : PubKey) (c : VisorConn) :
  visors (ServeRPC New incoming).1 !! k = Some c →
  PK (VAddr c) = k ∧ VPtyUI c = Some {| PK := k; Port := DmsgPtyPort |}.
Proof.
  destruct (ServeRPC_state New incoming) as [conns ->].
  apply (well_keyed_accepts New conns). intros k' c' Hnone.
  simpl in Hnone. by rewrite lookup_empty in Hnone.
Qed.

(** X2: the first error of [AcceptStream] ends the loop and is returned;
    the connections accepted before it stay registered, and whatever
    would have come after it is never looked at. *)
Theorem ServeRPC_stops_at_first_error
    (hv : Hypervisor) (conns : list Stream) (e : error) (rest : list (result Stream)) :
  ServeRPC hv ((Ok <$> conns) ++ Err e :: rest)
  = ((ServeRPC hv (Ok <$> conns)).1, Some e).
Proof. by rewrite ServeRPC_app, ServeRPC_accepts. Qed.

Lemma dom_accepts (hv : Hypervisor) (conns : list Stream) :
  dom (visors (foldl accept hv conns))
  = dom (visors hv) ∪ list_to_set ((λ s, PK (RawRemoteAddr s)) <$> conns).
Proof.
  revert hv. induction conns as [|conn conns IH]; intros hv.
  - simpl. by rewrite (right_id_L ∅ (∪)).
  - cbn [foldl fmap list_fmap]. rewrite IH, list_to_set_cons.
    unfold accept; simpl. rewrite dom_insert_L.
    rewrite (comm_L (∪) {[PK (RawRemoteAddr conn)]} (dom (visors hv))).
    by rewrite (assoc_L (∪)).
Qed.

(** X3: the registry holds one entry per distinct public key among the
    accepted connections, and a fleet summary over it has exactly that
    many entries. *)
Theorem registry_size_is_distinct_keys
    (conns : list Stream) (order : list (PubKey * VisorConn)) (sched : list nat)
    (r : Request) :
  range_of (ServeRPC New (Ok <$> conns)).1 order →
  schedule_of order sched →
  size (visors (ServeRPC New (Ok <$> conns)).1)
  = length (remove_dups ((λ s, PK (RawRemoteAddr s)) <$> conns))
  ∧ length (summaries_written
              (trace (getVisors (ServeRPC New (Ok <$> conns)).1 order sched r)))
    = length (remove_dups ((λ s, PK (RawRemoteAddr s)) <$> conns)).
Proof.
  intros Hr Hs.
  assert (size (visors (ServeRPC New (Ok <$> conns)).1)
          = length (remove_dups ((λ s, PK (RawRemoteAddr s)) <$> conns))) as Hsize.
  { rewrite ServeRPC_accepts; simpl.
    rewrite <- size_dom, dom_accepts; simpl. rewrite dom_empty_L, (left_id_L ∅ (∪)).
    rewrite <- (size_list_to_set (C := gset PubKey) (remove_dups _))
      by apply NoDup_remove_dups.
    f_equal. apply set_eq. intros x.
    by rewrite !elem_of_list_to_set, elem_of_remove_dups. }
  split; [done|].
  unfold summaries_written. rewrite getVisors_summaries by done.
  rewrite length_fmap, <- Hsize. by apply range_of_length.
Qed.

(** X4: over an empty registry the fleet summary takes and releases the
    lock, issues no call, and answers 200 with an empty list. *)
Theorem getVisors_empty_registry
    (order : list (PubKey * VisorConn)) (sched : list nat) (r : Request) :
  range_of New order →
  schedule_of order sched →
  getVisors New order sched r
  = ([EvRLock; EvRUnlock; EvWriteJSON StatusOK (BSummaries [])], tt).
Proof.
  unfold range_of, schedule_of. simpl. rewrite map_to_list_empty.
  intros ->%Permutation_nil_r. simpl. intros ->%Permutation_nil_r.
  reflexivity.
Qed.

(** ** The resolver chain, stage by stage *)

(** X5: the node stage and the route stage never issue an RPC call; the
    app stage and the transport stage issue at most one each. *)
Theorem stages_rpc_budget (hv : Hypervisor) (r : Request) :
  rpc_calls (trace (visorCtx hv r)) = []
  ∧ rpc_calls (trace (routeCtx hv r)) = []
  ∧ (length (rpc_calls (trace (appCtx hv r))) ≤ 1)%nat
  ∧ (length (rpc_calls (trace (tpCtx hv r))) ≤ 1)%nat.
Proof.
  assert (rpc_calls (trace (visorCtx hv r)) = []) as Hv.
  { unfold visorCtx. destruct (pkFromParam r "pk") as [pk|e]; [|done].
    rewrite visorConn_eq. unfold bind, trace; simpl.
    by destruct (visors hv !! pk). }
  split; [done|].
  unfold routeCtx, appCtx, tpCtx, bind, call, trace in *.
  destruct (visorCtx hv r) as [t [ctx|]]; simpl in *.
  - unfold rpc_calls in *. repeat split.
    + destruct (ridFromParam r "rid"); simpl; rewrite filter_app, Hv; done.
    + destruct (rpcApps (RPC (Conn ctx))) as [apps|e]; simpl;
        [destruct (List.find _ apps); simpl|];
        rewrite filter_app, Hv; simpl; lia.
    + destruct (uuidFromParam r "tid") as [tid|e]; simpl;
        [destruct (rpcTransport (RPC (Conn ctx)) tid) as [tp|e]; simpl;
         [|destruct (String.eqb _ _); simpl]|];
        rewrite filter_app, Hv; simpl; lia.
  - rewrite app_nil_r, Hv. simpl. repeat split; lia.
Qed.

Lemma visorCtx_Some (hv : Hypervisor) (r : Request) (t : list Event) (ctx : httpCtx) :
  visorCtx hv r = (t, Some ctx) →
  ∃ pk, pkFromParam r "pk" = Ok pk ∧ visors hv !! pk = Some (Conn ctx)
        ∧ t = [EvRLock; EvRUnlock]
        ∧ ctx = {| Conn := Conn ctx; App := None; Tp := None; RtKey := 0%N |}.
Proof.
  unfold visorCtx. destruct (pkFromParam r "pk") as [pk|e]; [|done].
  rewrite visorConn_eq. unfold bind; simpl.
  destruct (visors hv !! pk) as [c|] eqn:Hlook; simpl; [|done].
  intros [= <- <-]. by exists pk.
Qed.

(** X6: whichever stage hands out a context, the connection in it is the
    registry entry of the public key in the path: the later stages add to
    the context of the node stage and never resolve the node again. *)
Theorem resolved_context_is_registry_entry
    (hv : Hypervisor) (r : Request) (vf : valuesFunc) (ctx : httpCtx) :
  vf = visorCtx hv ∨ vf = appCtx hv ∨ vf = tpCtx hv ∨ vf = routeCtx hv →
  (vf r).2 = Some ctx →
  ∃ pk, pkFromParam r "pk" = Ok pk ∧ visors hv !! pk = Some (Conn ctx).
Proof.
  intros Hvf Hctx.
  assert (∀ t0 ctx0, visorCtx hv r = (t0, Some ctx0) → Conn ctx0 = Conn ctx →
                     ∃ pk, pkFromParam r "pk" = Ok pk
                           ∧ visors hv !! pk = Some (Conn ctx)) as Hnode.
  { intros t0 ctx0 Hv <-.
    destruct (visorCtx_Some hv r t0 ctx0 Hv) as (pk & ? & ? & _). by exists pk. }
  destruct Hvf as [->|[->|[->| ->]]]; revert Hctx.
  - destruct (visorCtx hv r) as [t0 [ctx0|]] eqn:Hv; simpl; [|done].
    intros [= <-]. by eapply Hnode.
  - unfold appCtx, bind, call.
    destruct (visorCtx hv r) as [t0 [ctx0|]] eqn:Hv; simpl; [|done].
    destruct (rpcApps (RPC (Conn ctx0))) as [apps|e]; simpl; [|done].
    destruct (List.find _ apps); simpl; [|done].
    intros [= <-]. by eapply Hnode.
  - unfold tpCtx, bind, call.
    destruct (visorCtx hv r) as [t0 [ctx0|]] eqn:Hv; simpl; [|done].
    destruct (uuidFromParam r "tid") as [tid|e]; simpl; [|done].
    destruct (rpcTransport (RPC (Conn ctx0)) tid) as [tp|e]; simpl;
      [|by destruct (String.eqb _ _)].
    intros [= <-]. by eapply Hnode.
  - unfold routeCtx, bind.
    destruct (visorCtx hv r) as [t0 [ctx0|]] eqn:Hv; simpl; [|done].
    destruct (ridFromParam r "rid"); simpl; [|done].
    intros [= <-]. by eapply Hnode.
Qed.

Lemma find_first_named (name : string) (apps : list AppState) (a : AppState) :
  List.find (λ b, String.eqb (Name b) name) apps = Some a →
  first_named name apps a.
Proof.
  induction apps as [|b apps IH]; simpl; [done|].
  destruct (String.eqb (Name b) name) eqn:Hb.
  - intros [= ->]. exists [], apps. apply String.eqb_eq in Hb. by repeat split.
  - intros Hfind. destruct (IH Hfind) as (before & after & -> & Hname & Hbefore).
    exists (b :: before), after. repeat split; [done|].
    constructor; [|done]. by apply String.eqb_neq.
Qed.

Lemma find_none_named (name : string) (apps : list AppState) :
  List.find (λ b, String.eqb (Name b) name) apps = None ↔
  Forall (λ b, Name b ≠ name) apps.
Proof.
  induction apps as [|b apps IH]; simpl; [by split; [constructor|]|].
  destruct (String.eqb (Name b) name) eqn:Hb.
  - apply String.eqb_eq in Hb. split; [done|]. by inversion 1.
  - apply String.eqb_neq in Hb. rewrite IH. split.
    + by constructor.
    + by inversion 1.
Qed.

(** X7: when the app stage hands out a context, the visor's [Apps] call
    succeeded and the app in the context is the first app of the returned
    list whose name is the [app] parameter of the path; the stage has
    issued that one call and written nothing. *)
Theorem appCtx_resolves_first_match
    (hv : Hypervisor) (r : Request) (t : list Event) (ctx : httpCtx) :
  appCtx hv r = (t, Some ctx) →
  ∃ (apps : list AppState) (a : AppState),
    rpcApps (RPC (Conn ctx)) = Ok apps
    ∧ App ctx = Some a
    ∧ first_named (URLParam r "app") apps a
    ∧ t = [EvRLock; EvRUnlock; EvRPC (VAddr (Conn ctx)) CallApps].
Proof.
  unfold appCtx, bind, call.
  destruct (visorCtx hv r) as [t0 [ctx0|]] eqn:Hv; simpl; [|done].
  destruct (visorCtx_Some hv r t0 ctx0 Hv) as (pk & _ & _ & -> & _).
  destruct (rpcApps (RPC (Conn ctx0))) as [apps|e] eqn:Happs; simpl; [|done].
  destruct (List.find _ apps) as [a|] eqn:Hfind; simpl; [|done].
  intros [= <- <-]. exists apps, a. simpl.
  repeat split; [done|]. by apply find_first_named.
Qed.

(** X8: with the node resolved, the app stage answers a failed [Apps]
    call with 500 and the error, and a list without an app of the
    requested name with 404 and a message naming the app and the visor;
    in both cases no handler runs. *)
Theorem appCtx_failures
    (hv : Hypervisor) (r : Request) (h : handlerFunc) (pk : PubKey) (c : VisorConn) :
  pkFromParam r "pk" = Ok pk →
  visors hv !! pk = Some c →
  (∀ e : error,
      rpcApps (RPC c) = Err e →
      trace (withCtx (appCtx hv) h r) =
        [EvRLock; EvRUnlock; EvRPC (VAddr c) CallApps;
         EvWriteJSON StatusInternalServerError (BErr e)])
  ∧ (∀ apps : list AppState,
      rpcApps (RPC c) = Ok apps →
      Forall (λ a, Name a ≠ URLParam r "app") apps →
      trace (withCtx (appCtx hv) h r) =
        [EvRLock; EvRUnlock; EvRPC (VAddr c) CallApps;
         EvWriteJSON StatusNotFound
           (BErr (mkError ("can not find app of name " ++ URLParam r "app" ++
                           " from visor " ++ PubKey_String (PK (VAddr c)))))]).
Proof.
  intros Hpk Hlook. split.
  - intros e Happs. unfold withCtx, appCtx, bind, call, trace.
    erewrite visorCtx_found by done. simpl. by rewrite Happs.
  - intros apps Happs Hnone. apply find_none_named in Hnone.
    unfold withCtx, appCtx, bind, call, trace.
    erewrite visorCtx_found by done. simpl. by rewrite Happs, Hnone.
Qed.

Lemma tpCtx_found (hv : Hypervisor) (r : Request) (pk : PubKey) (c : VisorConn)
    (tid : UUID) (tp : TransportSummary) :
  pkFromParam r "pk" = Ok pk →
  visors hv !! pk = Some c →
  uuidFromParam r "tid" = Ok tid →
  rpcTransport (RPC c) tid = Ok tp →
  tpCtx hv r =
    ([EvRLock; EvRUnlock; EvRPC (VAddr c) (CallTransport tid)],
     Some {| Conn := c; App := None; Tp := Some tp; RtKey := 0%N |}).
Proof.
  intros Hpk Hlook Htid Htp. unfold tpCtx, bind, call.
  erewrite visorCtx_found by done. rewrite Htid; simpl. by rewrite Htp.
Qed.

(** X9: [deleteTransport] first fetches the transport named in the path
    and then removes the transport whose ID the visor returned in that
    summary; it answers 200 [true] when the removal succeeds and 500 with
    the error when it fails. *)
Theorem deleteTransport_removes_fetched_transport
    (hv : Hypervisor) (r : Request) (pk : PubKey) (c : VisorConn)
    (tid : UUID) (tp : TransportSummary) :
  pkFromParam r "pk" = Ok pk →
  visors hv !! pk = Some c →
  uuidFromParam r "tid" = Ok tid →
  rpcTransport (RPC c) tid = Ok tp →
  trace (deleteTransport hv r) =
    [EvRLock; EvRUnlock;
     EvRPC (VAddr c) (CallTransport tid);
     EvRPC (VAddr c) (CallRemoveTransport (ID tp));
     match rpcRemoveTransport (RPC c) (ID tp) with
     | Some e => EvWriteJSON StatusInternalServerError (BErr e)
     | None => EvWriteJSON StatusOK (BBool true)
     end].
Proof.
  intros Hpk Hlook Htid Htp.
  unfold deleteTransport, withCtx, bind, trace, call.
  erewrite tpCtx_found by done. simpl. unfold Tp_ID; simpl.
  by destruct (rpcRemoveTransport (RPC c) (ID tp)).
Qed.

(** X10: the summary of a single visor never says that the visor is
    online: for a visor whose [Summary] call succeeds, [getVisor] answers
    200 with [online = false], while the fleet summary holds the same
    address and summary for it with [online = true]. *)
Theorem getVisor_never_online
    (hv : Hypervisor) (r : Request) (pk : PubKey) (c : VisorConn) (s : Summary) :
  pkFromParam r "pk" = Ok pk →
  visors hv !! pk = Some c →
  rpcSummary (RPC c) = Ok s →
  response (trace (getVisor hv r))
  = Some (StatusOK,
          BSummary {| TCPAddr := Addr_String (VAddr c); Online := false;
                      RespSummary := Some s |})
  ∧ slot_of (pk, c)
    = {| TCPAddr := Addr_String (VAddr c); Online := true; RespSummary := Some s |}.
Proof.
  intros Hpk Hlook Hsum. split.
  - unfold getVisor, withCtx, bind, trace, call.
    erewrite visorCtx_found by done. simpl. by rewrite Hsum.
  - unfold slot_of, summaryTask, bind, call, ret; simpl. by rewrite Hsum.
Qed.

(** ** The health goroutine *)

(** How the health probe comes to rest. *)
Lemma health_final_outcome (pick : bool) (c : RPCClient) :
  ((written (health_final pick c)
    = [EvWriteJSON StatusOK
         (BHealth match rpcHealth c with
                  | Ok h => {| Status := StatusOK; VHHealthInfo := Some h |}
                  | Err _ => {| Status := StatusInternalServerError;
                                VHHealthInfo := None |}
                  end)]
    ∧ gor (health_final pick c) = GExited)
   ∨ (written (health_final pick c)
      = [EvWriteJSON StatusRequestTimeout
           (BHealth {| Status := StatusRequestTimeout; VHHealthInfo := None |})]
      ∧ gor (health_final pick c) ≠ GExited))
  ∧ hdl (health_final pick c) = HReturned
  ∧ health_step pick c (health_final pick c) = None.
Proof.
  split; [|split; [|apply health_run_rest]].
  - destruct (HealthLatency c) as [t|] eqn:Hlat.
    + destruct (Z.lt_ge_cases t healthTimeout) as [Hlt|Hge].
      * left. rewrite (health_final_in_time pick c t) by done. simpl.
        by destruct (rpcHealth c).
      * right. by rewrite (health_final_late pick c t).
    + right. by rewrite health_final_never.
  - destruct (HealthLatency c) as [t|] eqn:Hlat.
    + destruct (Z.lt_ge_cases t healthTimeout) as [Hlt|Hge].
      * by rewrite (health_final_in_time pick c t).
      * by rewrite (health_final_late pick c t).
    + by rewrite health_final_never.
Qed.

(** X11: when the health probe has come to rest, either the handler
    wrote the outcome of the call and the goroutine has exited, or the
    handler wrote the timeout and the goroutine has not exited; in both
    cases nothing can happen any more, so a goroutine that has not exited
    by then never will. *)
Theorem health_goroutine_exits_iff_delivered (pick : bool) (c : RPCClient) :
  ((written (health_final pick c)
    = [EvWriteJSON StatusOK
         (BHealth match rpcHealth c with
                  | Ok h => {| Status := StatusOK; VHHealthInfo := Some h |}
                  | Err _ => {| Status := StatusInternalServerError;
                                VHHealthInfo := None |}
                  end)]
    ∧ gor (health_final pick c) = GExited)
   ∨ (written (health_final pick c)
      = [EvWriteJSON StatusRequestTimeout
           (BHealth {| Status := StatusRequestTimeout; VHHealthInfo := None |})]
      ∧ gor (health_final pick c) ≠ GExited))
  ∧ hdl (health_final pick c) = HReturned
  ∧ health_step pick c (health_final pick c) = None.
Proof. apply health_final_outcome. Qed.

(** ** One response per request *)

Lemma responses_app (t1 t2 : list Event) :
  responses (t1 ++ t2) = responses t1 ++ responses t2.
Proof. apply filter_app. Qed.

(** A stage that hands out a context has written nothing; a stage that
    stops has written one response. *)
Lemma stage_responses (hv : Hypervisor) (r : Request) (vf : valuesFunc) :
  vf = visorCtx hv ∨ vf = appCtx hv ∨ vf = tpCtx hv ∨ vf = routeCtx hv →
  length (responses (trace (vf r))) = match (vf r).2 with Some _ => 0 | None => 1 end.
Proof.
  assert (length (responses (trace (visorCtx hv r)))
          = match (visorCtx hv r).2 with Some _ => 0 | None => 1 end) as Hv.
  { unfold visorCtx. destruct (pkFromParam r "pk") as [pk|e]; [|done].
    rewrite visorConn_eq. unfold bind, trace; simpl.
    by destruct (visors hv !! pk). }
  intros [->|[->|[->| ->]]]; [done|..];
    unfold routeCtx, appCtx, tpCtx, bind, call, trace in *;
    destruct (visorCtx hv r) as [t [ctx|]]; simpl in *;
    rewrite ?app_nil_r; try done.
  - destruct (rpcApps (RPC (Conn ctx))) as [apps|e]; simpl;
      [destruct (List.find _ apps); simpl|];
      rewrite responses_app, length_app, Hv; done.
  - destruct (uuidFromParam r "tid") as [tid|e]; simpl;
      [destruct (rpcTransport (RPC (Conn ctx)) tid) as [tp|e]; simpl;
       [|destruct (String.eqb _ _); simpl]|];
      rewrite responses_app, length_app, Hv; done.
  - destruct (ridFromParam r "rid"); simpl;
      rewrite responses_app, length_app, Hv; done.
Qed.

Lemma withCtx_single_response (hv : Hypervisor) (vf : valuesFunc) (h : handlerFunc)
    (r : Request) :
  vf = visorCtx hv ∨ vf = appCtx hv ∨ vf = tpCtx hv ∨ vf = routeCtx hv →
  (∀ ctx, length (responses (trace (h r ctx))) = 1%nat) →
  length (responses (trace (withCtx vf h r))) = 1%nat.
Proof.
  intros Hvf Hh. rewrite withCtx_trace, responses_app, length_app.
  rewrite (stage_responses hv r vf Hvf).
  destruct (vf r).2; [by rewrite Hh | done].
Qed.

Ltac handler_single_response :=
  intros; unfold trace, bind, call, WriteJSON, emit, ret; simpl;
  repeat match goal with
         | |- context [match ?x with _ => _ end] =>
             lazymatch x with
             | context [match _ with _ => _ end] => fail
             | _ => destruct x; simpl
             end
         end;
  try reflexivity.

(** One response per request, for the handlers whose effects are all in
    [Event] and for the fleet summary. *)
Lemma base_one_response (hv : Hypervisor) (pick : bool) :
  Forall (λ hd : Request -> Eff unit,
            ∀ r, length (responses (trace (hd r))) = 1%nat)
         (resolved_handlers hv pick)
  ∧ (∀ (order : list (PubKey * VisorConn)) (sched : list nat) (r : Request),
       length (responses (trace (getVisors hv order sched r))) = 1%nat).
Proof.
  split.
  - unfold resolved_handlers.
    repeat apply Forall_cons_2; [..|apply Forall_nil_2]; intros r.
    + apply (withCtx_single_response hv); [tauto|]. intros ctx.
      unfold trace, bind, emit; simpl.
      destruct (health_final_outcome pick (RPC (Conn ctx)))
        as ([[-> _]|[-> _]] & _); done.
    + apply (withCtx_single_response hv); [tauto|]. handler_single_response.
    + apply (withCtx_single_response hv); [tauto|]. handler_single_response.
    + apply (withCtx_single_response hv); [tauto|]. handler_single_response.
    + apply (withCtx_single_response hv); [tauto|]. handler_single_response.
    + apply (withCtx_single_response hv); [tauto|]. handler_single_response.
    + apply (withCtx_single_response hv); [tauto|]. handler_single_response.
    + apply (withCtx_single_response hv); [tauto|]. handler_single_response.
    + apply (withCtx_single_response hv); [tauto|]. handler_single_response.
    + apply (withCtx_single_response hv); [tauto|]. handler_single_response.
    + apply (withCtx_single_response hv); [tauto|]. handler_single_response.
  - intros order sched r. rewrite getVisors_trace.
    change (EvRLock :: ?l) with ([EvRLock] ++ l).
    rewrite !responses_app, !length_app. simpl.
    assert (responses (flat_map (task_events order) sched) = []) as ->; [|done].
    induction sched as [|i sched IH]; simpl; [done|].
    rewrite responses_app, IH. unfold task_events.
    by destruct (order !! i).
Qed.

(** ** Query and path parameters *)

Lemma replace_first_space_none (s : string) :
  has_space s = false → replace_first_space s = s.
Proof.
  induction s as [|c s IH]; simpl; [done|].
  destruct (Ascii.eqb c " "); simpl; [done|]. intros Hs. by rewrite IH.
Qed.

Lemma replace_first_space_first (pre post : string) :
  has_space pre = false →
  replace_first_space (pre ++ String " " post)%string = (pre ++ String "+" post)%string.
Proof.
  induction pre as [|c pre IH]; simpl; [done|].
  destruct (Ascii.eqb c " "); simpl; [done|]. intros Hs. by rewrite IH.
Qed.

(** X13: [appLogsSince] reads the [since] parameter with its first space
    turned back into a plus, and only the first: the logs are asked for
    since the time that this text parses to, and since the epoch when it
    does not parse. *)
Theorem appLogsSince_restores_plus
    (hv : Hypervisor) (r : Request) (pk : PubKey) (c : VisorConn)
    (apps : list AppState) (a : AppState) (pre post : string) :
  pkFromParam r "pk" = Ok pk →
  visors hv !! pk = Some c →
  rpcApps (RPC c) = Ok apps →
  List.find (λ a, String.eqb (Name a) (URLParam r "app")) apps = Some a →
  Query_Get r "since" = (pre ++ String " " post)%string →
  has_space pre = false →
  rpc_calls (trace (appLogsSince hv r)) =
    [EvRPC (VAddr c) CallApps;
     EvRPC (VAddr c)
       (CallLogsSince
          match time_Parse_RFC3339Nano (pre ++ String "+" post)%string with
          | Ok t => t
          | Err _ => 0%Z
          end
          (Name a))].
Proof.
  intros Hpk Hlook Happs Hfind Hsince Hpre.
  unfold appLogsSince, withCtx, bind, trace, call.
  erewrite appCtx_found by done. simpl. unfold App_Name; simpl.
  rewrite Hsince, replace_first_space_first by done.
  destruct (rpcLogsSince _ _ _) as [logs|e]; simpl; [|done].
  by destruct (length logs =? 0)%nat.
Qed.

Lemma hex_digit_inj (x y : N) :
  (x < 16)%N → (y < 16)%N → hex_digit x = hex_digit y → x = y.
Proof.
  intros Hx Hy.
  assert (x = 0 ∨ x = 1 ∨ x = 2 ∨ x = 3 ∨ x = 4 ∨ x = 5 ∨ x = 6 ∨ x = 7 ∨ x = 8
          ∨ x = 9 ∨ x = 10 ∨ x = 11 ∨ x = 12 ∨ x = 13 ∨ x = 14 ∨ x = 15)%N
    as Hxs by lia.
  assert (y = 0 ∨ y = 1 ∨ y = 2 ∨ y = 3 ∨ y = 4 ∨ y = 5 ∨ y = 6 ∨ y = 7 ∨ y = 8
          ∨ y = 9 ∨ y = 10 ∨ y = 11 ∨ y = 12 ∨ y = 13 ∨ y = 14 ∨ y = 15)%N
    as Hys by lia.
  repeat (destruct Hxs as [->|Hxs]); try subst x;
    repeat (destruct Hys as [->|Hys]); try subst y; simpl; intros; congruence.
Qed.

Lemma byte_of_nibbles (b : N) :
  (b < 256)%N →
  b = (16 * N.land (N.shiftr b 4) 15 + N.land b 15)%N
  ∧ (N.land (N.shiftr b 4) 15 < 16)%N ∧ (N.land b 15 < 16)%N.
Proof.
  intros Hb.
  change 15%N with (N.ones 4). rewrite !N.land_ones, N.shiftr_div_pow2.
  change (2 ^ 4)%N with 16%N.
  assert (b `div` 16 < 16)%N by (apply N.Div0.div_lt_upper_bound; lia).
  rewrite (N.mod_small (b `div` 16) 16) by done.
  repeat split; [|done|by apply N.mod_lt].
  apply N.div_mod. lia.
Qed.

(** X14: the hex text of a routing rule has two digits per byte, and
    rules with different bytes have different hex texts, so the [rule]
    field of a response identifies the rule. *)
Theorem hex_EncodeToString_injective (rule rule' : Rule) :
  Forall (λ b, b < 256)%N rule →
  Forall (λ b, b < 256)%N rule' →
  String.length (hex_EncodeToString rule) = (2 * length rule)%nat
  ∧ (hex_EncodeToString rule = hex_EncodeToString rule' → rule = rule').
Proof.
  intros Hr Hr'. split.
  - clear. induction rule as [|b rule IH]; simpl; [done|]. rewrite IH. lia.
  - revert rule' Hr'. induction Hr as [|b rule Hb _ IH]; intros rule' Hr' Heq.
    + by destruct rule'.
    + destruct Hr' as [|b' rule' Hb' Hr']; [done|].
      simpl in Heq. injection Heq as Hhi Hlo Hrest.
      destruct (byte_of_nibbles b Hb) as (Eb & ? & ?).
      destruct (byte_of_nibbles b' Hb') as (Eb' & ? & ?).
      apply hex_digit_inj in Hhi; [|done..]. apply hex_digit_inj in Hlo; [|done..].
      f_equal; [lia|]. by apply IH.
Qed.

Lemma UnmarshalTexts_Ok (qs : list string) (pks : list PubKey) :
  UnmarshalTexts qs = Ok pks ↔ Forall2 (λ q pk, PubKey_UnmarshalText q = Ok pk) qs pks.
Proof.
  revert pks. induction qs as [|q qs IH]; intros pks; simpl.
  - split; [by intros [= <-]; constructor | by inversion 1].
  - destruct (PubKey_UnmarshalText q) as [pk|e] eqn:Hq.
    + destruct (UnmarshalTexts qs) as [pks'|e] eqn:Hqs.
      * split.
        -- intros [= <-]. constructor; [done|]. by apply IH.
        -- inversion 1 as [|? pk' ? pks'' Hpk Hrest]; subst.
           apply IH in Hrest. congruence.
      * split; [done|].
        inversion 1 as [|? pk' ? pks'' Hpk Hrest]; subst.
        apply IH in Hrest. congruence.
    + split; [done|]. inversion 1; congruence.
Qed.

Lemma UnmarshalTexts_first_error (before after : list string) (q : string) (e : error) :
  Forall (λ q, is_ok (PubKey_UnmarshalText q) = true) before →
  PubKey_UnmarshalText q = Err e →
  UnmarshalTexts (before ++ q :: after) = Err e.
Proof.
  intros Hbefore Hq. induction Hbefore as [|q0 before Hq0 _ IH]; simpl.
  - by rewrite Hq.
  - destruct (PubKey_UnmarshalText q0); [|done]. by rewrite IH.
Qed.

(** X15: [pkSliceFromQuery] gives the default when the query has no
    such key; otherwise it gives all the values parsed, in order, exactly
    when every value parses, and the error of the first value that does
    not parse when one does not -- never a partial list. *)
Theorem pkSliceFromQuery_all_or_first_error
    (r : Request) (key : string) (defaultVal : list PubKey) :
  (Query r !! key = None → pkSliceFromQuery r key defaultVal = Ok defaultVal)
  ∧ (∀ (qs : list string) (pks : list PubKey),
       Query r !! key = Some qs →
       (pkSliceFromQuery r key defaultVal = Ok pks
        ↔ Forall2 (λ q pk, PubKey_UnmarshalText q = Ok pk) qs pks))
  ∧ (∀ (before after : list string) (q : string) (e : error),
       Query r !! key = Some (before ++ q :: after) →
       Forall (λ q, is_ok (PubKey_UnmarshalText q) = true) before →
       PubKey_UnmarshalText q = Err e →
       pkSliceFromQuery r key defaultVal = Err e).
Proof.
  unfold pkSliceFromQuery. split; [|split].
  - by intros ->.
  - intros qs pks ->. apply UnmarshalTexts_Ok.
  - intros before after q e -> Hbefore Hq. by apply UnmarshalTexts_first_error.
Qed.

Lemma digit_of_pretty_N_char (d : N) :
  (d < 10)%N → digit_of (pretty_N_char d) = Some d.
Proof.
  intros Hd.
  assert (d = 0 ∨ d = 1 ∨ d = 2 ∨ d = 3 ∨ d = 4 ∨ d = 5 ∨ d = 6 ∨ d = 7 ∨ d = 8
          ∨ d = 9)%N as Hds by lia.
  repeat (destruct Hds as [->|Hds]); try subst d; reflexivity.
Qed.

Lemma parse_digits_pretty_N_go (x : N) (s : string) :
  parse_digits (pretty_N_go x s) 0 = parse_digits s x.
Proof.
  revert s. induction (N.lt_wf_0 x) as [x _ IH]; intros s.
  destruct (decide (x = 0)%N) as [->|Hx]; [by rewrite pretty_N_go_0|].
  rewrite pretty_N_go_step by lia.
  rewrite IH by (apply N.div_lt; lia). simpl.
  rewrite digit_of_pretty_N_char by (apply N.mod_lt; lia).
  f_equal. rewrite (N.div_mod x 10) at 3 by lia. lia.
Qed.

Lemma ParseUint32_pretty (n : N) :
  (n ≤ 4294967295)%N → ParseUint32 (pretty n) = Some n.
Proof.
  intros Hn. unfold pretty, pretty_N.
  destruct (decide (n = 0)%N) as [->|Hn0]; [done|].
  unfold ParseUint32.
  pose proof (parse_digits_pretty_N_go n "") as Hparse. simpl in Hparse.
  destruct (pretty_N_go n "") as [|c s] eqn:Hs.
  - simpl in Hparse. congruence.
  - rewrite Hparse. by rewrite (proj2 (N.leb_le n 4294967295)).
Qed.

Lemma ParseUint32_bound (s : string) (n : N) :
  ParseUint32 s = Some n → (n ≤ 4294967295)%N ∧ s ≠ "".
Proof.
  unfold ParseUint32. destruct s as [|c s]; [done|].
  destruct (parse_digits _ _) as [m|]; [|done].
  destruct (m <=? 4294967295)%N eqn:Hm; [|done].
  intros [= <-]. split; [by apply N.leb_le | done].
Qed.

(** X16: the route stage accepts every unsigned 32-bit number written
    in decimal and resolves it to itself; whatever it accepts is at most
    2^32 - 1, and an empty [rid] is refused with "invalid route ID
    provided". *)
Theorem ridFromParam_decimal (r : Request) (key : string) :
  (∀ rid : RouteID,
      (rid ≤ 4294967295)%N →
      URLParam r key = pretty rid →
      ridFromParam r key = Ok rid)
  ∧ (∀ rid : RouteID, ridFromParam r key = Ok rid → (rid ≤ 4294967295)%N)
  ∧ (URLParam r key = "" →
     ridFromParam r key = Err (mkError "invalid route ID provided")).
Proof.
  unfold ridFromParam. repeat split.
  - intros rid Hrid ->. by rewrite ParseUint32_pretty.
  - intros rid. destruct (ParseUint32 _) as [n|] eqn:Hp; [|done].
    intros [= <-]. by apply ParseUint32_bound in Hp as [? _].
  - by intros ->.
Qed.

(** ** Changing an app *)

Lemma call_or_500_sequenced (x : RPCMore) (addr : Addr) (fin : Z -> Body -> Prop)
    (c : MoreCall) (k : list MoreEvent) :
  sequenced x addr fin k →
  sequenced x addr fin (call_or_500 addr c (outcome x c) k).
Proof.
  intros Hk. unfold call_or_500. destruct (outcome x c) as [e|] eqn:Hc.
  - by apply sequenced_fail.
  - by apply sequenced_ok.
Qed.

(** The shape of every run of the handler of [putApp]. *)
Lemma putApp_handler_sequenced
    (more : RPCClient → RPCMore) (errMalformed : error)
    (body : result putAppBody) (ctx : httpCtx) :
  sequenced (more (RPC (Conn ctx))) (VAddr (Conn ctx))
    (λ st b, (st = StatusOK ∧ b = BApp (App ctx)) ∨ st = StatusBadRequest)
    (putApp_handler more errMalformed body ctx).
Proof.
  unfold putApp_handler. destruct body as [reqBody|e0].
  2: { apply sequenced_done. by right. }
  set (x := more (RPC (Conn ctx))). set (addr := VAddr (Conn ctx)).
  set (fin := λ st b, (st = StatusOK ∧ b = BApp (App ctx)) ∨ st = StatusBadRequest).
  assert (sequenced x addr fin [MEv (EvWriteJSON StatusOK (BApp (App ctx)))])
    as Hfinish by (apply sequenced_done; by left).
  assert (∀ c k, sequenced x addr fin k →
                 sequenced x addr fin (call_or_500 addr c (outcome x c) k))
    as Hstep by (intros; by apply call_or_500_sequenced).
  simpl.
  destruct (bAutoStart reqBody) as [autostart|];
    [destruct (Bool.eqb autostart (App_AutoStart ctx));
     [|apply (Hstep (CallSetAutoStart _ _))]|];
    (destruct (bPasscode reqBody) as [passcode|];
     [destruct (String.eqb (App_Name ctx) skysocksName);
      [apply (Hstep (CallSetSocksPassword _))|]|]);
    (destruct (bPK reqBody) as [pk|];
     [destruct (String.eqb (App_Name ctx) skysocksClientName);
      [apply (Hstep (CallSetSocksClientPK _))|]|]);
    (destruct (bStatus reqBody) as [st|]; [|done]);
    (destruct (st =? statusStop)%Z; [by apply (Hstep (CallStopApp _))|]);
    (destruct (st =? statusStart)%Z; [by apply (Hstep (CallStartApp _))|]);
    apply sequenced_done; by right.
Qed.

(** X17: [putApp] applies the changes of the request one call after the
    other and stops at the first call that fails, answering 500 with that
    call's error; calls issued before it have succeeded and are not undone.
    When no call fails the answer is 200 with the app as the app stage
    resolved it before the changes, or 400 for a body that does not parse
    or a [status] other than 0 and 1. *)
Theorem putApp_stops_at_first_failure
    (more : RPCClient → RPCMore) (errMalformed : error)
    (body : result putAppBody) (ctx : httpCtx) :
  sequenced (more (RPC (Conn ctx))) (VAddr (Conn ctx))
    (λ st b, (st = StatusOK ∧ b = BApp (App ctx)) ∨ st = StatusBadRequest)
    (putApp_handler more errMalformed body ctx).
Proof.
  unfold putApp_handler. destruct body as [reqBody|e0].
  2: { apply sequenced_done. by right. }
  set (x := more (RPC (Conn ctx))). set (addr := VAddr (Conn ctx)).
  set (fin := λ st b, (st = StatusOK ∧ b = BApp (App ctx)) ∨ st = StatusBadRequest).
  assert (sequenced x addr fin [MEv (EvWriteJSON StatusOK (BApp (App ctx)))])
    as Hfinish by (apply sequenced_done; by left).
  assert (∀ c k, sequenced x addr fin k →
                 sequenced x addr fin (call_or_500 addr c (outcome x c) k))
    as Hstep by (intros; by apply call_or_500_sequenced).
  simpl.
  destruct (bAutoStart reqBody) as [autostart|];
    [destruct (Bool.eqb autostart (App_AutoStart ctx));
     [|apply (Hstep (CallSetAutoStart _ _))]|];
    (destruct (bPasscode reqBody) as [passcode|];
     [destruct (String.eqb (App_Name ctx) skysocksName);
      [apply (Hstep (CallSetSocksPassword _))|]|]);
    (destruct (bPK reqBody) as [pk|];
     [destruct (String.eqb (App_Name ctx) skysocksClientName);
      [apply (Hstep (CallSetSocksClientPK _))|]|]);
    (destruct (bStatus reqBody) as [st|]; [|done]);
    (destruct (st =? statusStop)%Z; [by apply (Hstep (CallStopApp _))|]);
    (destruct (st =? statusStart)%Z; [by apply (Hstep (CallStartApp _))|]);
    apply sequenced_done; by right.
Qed.


(** X19: [putApp] issues no call for a field that does not apply: an
    auto-start value equal to the current one, a passcode for an app other
    than [skysocks], and a public key for an app other than
    [skysocks-client] are all passed over, and the answer is 200 with the
    app; a body that does not parse is answered with 400 and
    [ErrMalformedRequest], also without any call. *)
Theorem putApp_passes_over_inapplicable_fields
    (more : RPCClient → RPCMore) (errMalformed : error)
    (reqBody : putAppBody) (ctx : httpCtx) (e0 : error) :
  bAutoStart reqBody = None ∨ bAutoStart reqBody = Some (App_AutoStart ctx) →
  bPasscode reqBody = None ∨ App_Name ctx ≠ skysocksName →
  bPK reqBody = None ∨ App_Name ctx ≠ skysocksClientName →
  bStatus reqBody = None →
  putApp_handler more errMalformed (Ok reqBody) ctx
  = [MEv (EvWriteJSON StatusOK (BApp (App ctx)))]
  ∧ putApp_handler more errMalformed (Err e0) ctx
    = [MEv (EvWriteJSON StatusBadRequest (BErr errMalformed))].
Proof.
  intros Hauto Hpass Hpk Hst. split; [|done].
  unfold putApp_handler. rewrite Hst.
  assert (match bPK reqBody with
          | Some pk =>
              if String.eqb (App_Name ctx) skysocksClientName
              then call_or_500 (VAddr (Conn ctx)) (CallSetSocksClientPK pk)
                     (rpcSetSocksClientPK (more (RPC (Conn ctx))) pk)
                     [MEv (EvWriteJSON StatusOK (BApp (App ctx)))]
              else [MEv (EvWriteJSON StatusOK (BApp (App ctx)))]
          | None => [MEv (EvWriteJSON StatusOK (BApp (App ctx)))]
          end = [MEv (EvWriteJSON StatusOK (BApp (App ctx)))]) as Hk.
  { destruct Hpk as [->|Hpk]; [done|].
    apply String.eqb_neq in Hpk. rewrite Hpk. by destruct (bPK reqBody). }
  simpl. rewrite Hk.
  assert (match bPasscode reqBody with
          | Some passcode =>
              if String.eqb (App_Name ctx) skysocksName
              then call_or_500 (VAddr (Conn ctx)) (CallSetSocksPassword passcode)
                     (rpcSetSocksPassword (more (RPC (Conn ctx))) passcode)
                     [MEv (EvWriteJSON StatusOK (BApp (App ctx)))]
              else [MEv (EvWriteJSON StatusOK (BApp (App ctx)))]
          | None => [MEv (EvWriteJSON StatusOK (BApp (App ctx)))]
          end = [MEv (EvWriteJSON StatusOK (BApp (App ctx)))]) as Hp.
  { destruct Hpass as [->|Hpass]; [done|].
    apply String.eqb_neq in Hpass. rewrite Hpass. by destruct (bPasscode reqBody). }
  rewrite Hp.
  destruct Hauto as [->| ->]; [done|]. by rewrite Bool.eqb_reflx.
Qed.

(** ** Listing transports *)

(** X20: with the node resolved, [getTransports] checks the [pk] values
    of the query and then the [logs] flag before it calls the visor: a
    [pk] value that does not parse is answered with 400 and its error, and
    otherwise a [logs] value that does not parse with 400 and its error,
    in both cases without any call; with both in order it issues the one
    [Transports] call with the [type] values, the parsed keys and the
    flag. *)
Theorem getTransports_validates_before_call
    (more : RPCClient → RPCMore) (hv : Hypervisor) (r : Request)
    (pk : PubKey) (c : VisorConn) :
  pkFromParam r "pk" = Ok pk →
  visors hv !! pk = Some c →
  (∀ e : error,
      pkSliceFromQuery r "pk" [] = Err e →
      getTransports more hv r =
        [MEv EvRLock; MEv EvRUnlock; MEv (EvWriteJSON StatusBadRequest (BErr e))])
  ∧ (∀ (pks : list PubKey) (e : error),
      pkSliceFromQuery r "pk" [] = Ok pks →
      BoolFromQuery r "logs" true = Err e →
      getTransports more hv r =
        [MEv EvRLock; MEv EvRUnlock; MEv (EvWriteJSON StatusBadRequest (BErr e))])
  ∧ (∀ (pks : list PubKey) (logs : bool),
      pkSliceFromQuery r "pk" [] = Ok pks →
      BoolFromQuery r "logs" true = Ok logs →
      getTransports more hv r =
        [MEv EvRLock; MEv EvRUnlock;
         MRPC (VAddr c) (CallTransports (strSliceFromQuery r "type" []) pks logs);
         match rpcTransports (more (RPC c)) (strSliceFromQuery r "type" []) pks logs with
         | Err e => MEv (EvWriteJSON StatusInternalServerError (BErr e))
         | Ok transports => MWriteTransports StatusOK transports
         end]).
Proof.
  intros Hpk Hlook. unfold getTransports, withCtx_more.
  erewrite visorCtx_found by done. simpl.
  split; [|split].
  - by intros e ->.
  - by intros pks e -> ->.
  - intros pks logs -> ->. by destruct (rpcTransports _ _ _ _).
Qed.

(** ** Looking up a routing rule *)

(** X21: with the node and the route ID resolved, [getRoute] checks the
    [summary] flag of the query before it calls the visor: a flag that
    does not parse is answered with 400 and no call is issued; otherwise
    the rule is fetched under the route ID of the path, and a rule that is
    found is answered with 200, that route ID as key and the rule in
    hex, with its summary exactly when the flag says so. *)
Theorem getRoute_validates_before_call
    (hv : Hypervisor) (r : Request) (pk : PubKey) (c : VisorConn) (rid : RouteID) :
  pkFromParam r "pk" = Ok pk →
  visors hv !! pk = Some c →
  ridFromParam r "rid" = Ok rid →
  (∀ e : error,
      BoolFromQuery r "summary" true = Err e →
      trace (getRoute hv r) =
        [EvRLock; EvRUnlock; EvWriteJSON StatusBadRequest (BErr e)])
  ∧ (∀ (q : bool) (rule : Rule),
      BoolFromQuery r "summary" true = Ok q →
      rpcRoutingRule (RPC c) rid = Ok rule →
      trace (getRoute hv r) =
        [EvRLock; EvRUnlock; EvRPC (VAddr c) (CallRoutingRule rid);
         EvWriteJSON StatusOK
           (BRule {| Key := rid; RuleHex := hex_EncodeToString rule;
                     RuleSum := if q then Some (Rule_Summary rule) else None |})]).
Proof.
  intros Hpk Hlook Hrid.
  unfold getRoute, withCtx, bind, trace, call.
  erewrite routeCtx_found by done. simpl.
  split.
  - by intros e ->.
  - by intros q rule -> ->.
Qed.

(** Two ways to run the fan-out that Go always allows. *)
Lemma range_of_map_to_list (hv : Hypervisor) : range_of hv (map_to_list (visors hv)).
Proof. by unfold range_of. Qed.

Lemma schedule_of_seq (order : list (PubKey * VisorConn)) :
  schedule_of order (seq 0 (length order)).
Proof. by unfold schedule_of. Qed.

(** ** The order of accepts *)

Lemma lookup_accepts_elem (hv : Hypervisor) (conns : list Stream) (conn : Stream) :
  NoDup ((λ s, PK (RawRemoteAddr s)) <$> conns) →
  conn ∈ conns →
  visors (foldl accept hv conns) !! PK (RawRemoteAddr conn) = Some (conn_of conn).
Proof.
  intros Hnd Hin.
  apply list_elem_of_split in Hin as (before & after & ->).
  rewrite foldl_app; simpl.
  rewrite fmap_app, fmap_cons in Hnd.
  apply NoDup_app in Hnd as (_ & _ & Hnd). apply NoDup_cons in Hnd as [Hnotin _].
  rewrite lookup_accepts_ne; [apply lookup_accept_eq|].
  apply Forall_forall. intros s Hs Heq. apply Hnotin.
  rewrite <- Heq. apply list_elem_of_fmap. by exists s.
Qed.

Lemma lookup_accepts_notin (hv : Hypervisor) (conns : list Stream) (k : PubKey) :
  k ∉ (λ s, PK (RawRemoteAddr s)) <$> conns →
  visors (foldl accept hv conns) !! k = visors hv !! k.
Proof.
  intros Hnotin. apply lookup_accepts_ne, Forall_forall.
  intros s Hs Heq. apply Hnotin. rewrite <- Heq.
  apply list_elem_of_fmap. by exists s.
Qed.

(** X22: when the accepted connections have distinct public keys, the
    registry does not depend on the order in which they were accepted. *)
Theorem registry_independent_of_accept_order
    (hv : Hypervisor) (conns conns' : list Stream) :
  NoDup ((λ s, PK (RawRemoteAddr s)) <$> conns) →
  conns ≡ₚ conns' →
  (ServeRPC hv (Ok <$> conns)).1 = (ServeRPC hv (Ok <$> conns')).1.
Proof.
  intros Hnd Hperm. rewrite !ServeRPC_accepts; simpl.
  assert (NoDup ((λ s, PK (RawRemoteAddr s)) <$> conns')) as Hnd'
    by (by rewrite <- Hperm).
  destruct (foldl accept hv conns) as [m] eqn:Hm.
  destruct (foldl accept hv conns') as [m'] eqn:Hm'.
  f_equal. apply map_eq. intros k.
  change m with (visors {| visors := m |}).
  change m' with (visors {| visors := m' |}).
  rewrite <- Hm, <- Hm'.
  destruct (decide (k ∈ (λ s, PK (RawRemoteAddr s)) <$> conns)) as [Hin|Hnotin].
  - apply list_elem_of_fmap in Hin as (conn & -> & Hin).
    rewrite !lookup_accepts_elem; [done|done| |done|done].
    by rewrite <- Hperm.
  - rewrite !lookup_accepts_notin; [done| |done].
    by rewrite <- Hperm.
Qed.

End Properties.

(** * Properties of all handlers behind [withCtx] *)

Section AllHandlers.
Context `{ext : External} `{rext : !ExternalRest}.

Ltac in_list :=
  repeat first [by apply list_elem_of_here | apply list_elem_of_further].

(** ** The scope of the registry lock, for every handler *)

Lemma rest_outside_lift (held : nat) (t : list Event) :
  rest_rpc_outside_lock held (rest_of_event <$> t) = rpc_outside_lock held t.
Proof.
  revert held. induction t as [|e t IH]; intros held; [done|].
  destruct e; simpl; rewrite ?IH; done.
Qed.

Lemma rest_lock_free_lift (t : list Event) :
  lock_free t = true → rest_lock_free (rest_of_event <$> t) = true.
Proof.
  unfold lock_free, rest_lock_free. induction t as [|e t IH]; simpl; [done|].
  intros [He Ht]%andb_prop. apply andb_true_intro. split; [done|]. by apply IH.
Qed.

Lemma rest_lock_free_app (t1 t2 : list RestEvent) :
  rest_lock_free t1 = true → rest_lock_free t2 = true →
  rest_lock_free (t1 ++ t2) = true.
Proof. unfold rest_lock_free. intros H1 H2. by rewrite forallb_app, H1, H2. Qed.

Lemma rest_lock_free_outside (t : list RestEvent) :
  rest_lock_free t = true → rest_rpc_outside_lock 0 t = true.
Proof.
  induction t as [|e t IH]; [done|]. simpl. intros [He Ht]%andb_prop.
  destruct e as [[[]| |]| | | |]; simpl in *; try done;
    rewrite ?orb_true_r; by apply IH.
Qed.

Lemma withCtx_rest_outside_lock (hv : Hypervisor) (vf : valuesFunc)
    (h : Request → httpCtx → list RestEvent) (r : Request) :
  vf = visorCtx hv ∨ vf = appCtx hv ∨ vf = tpCtx hv ∨ vf = routeCtx hv →
  (∀ ctx, rest_lock_free (h r ctx) = true) →
  rest_rpc_outside_lock 0 (withCtx_rest vf h r) = true.
Proof.
  intros Hvf Hh. unfold withCtx_rest.
  assert (rest_lock_free match (vf r).2 with
                         | Some ctx => h r ctx
                         | None => []
                         end = true) as Hbody
    by (destruct (vf r).2; [apply Hh | done]).
  destruct (stage_lock_first hv r vf Hvf) as (rest0 & Hfree & [->| ->]).
  - by apply rest_lock_free_outside, rest_lock_free_app; [apply rest_lock_free_lift|].
  - simpl. by apply rest_lock_free_outside, rest_lock_free_app;
      [apply rest_lock_free_lift|].
Qed.

Lemma lift_more_withCtx (vf : valuesFunc) (h : Request → httpCtx → list MoreEvent)
    (r : Request) :
  REv <$> withCtx_more vf h r = withCtx_rest vf (λ r ctx, REv <$> h r ctx) r.
Proof.
  unfold withCtx_more, withCtx_rest, rest_of_event.
  rewrite fmap_app, <- list_fmap_compose. by destruct (vf r).2.
Qed.

Lemma sequenced_lock_free (x : RPCMore) (addr : Addr) (fin : Z → Body → Prop)
    (t : list MoreEvent) :
  sequenced x addr fin t → rest_lock_free (REv <$> t) = true.
Proof. induction 1; simpl; done. Qed.

Lemma base_handlers_outside_lock (hv : Hypervisor) (pick : bool) (hd : Request → Eff unit)
    (r : Request) :
  hd ∈ resolved_handlers hv pick →
  rest_rpc_outside_lock 0 (lift hd r) = true.
Proof.
  intros Hin. unfold lift. rewrite rest_outside_lift.
  pose proof (resolved_handlers_outside_lock hv pick) as Hall.
  rewrite Forall_forall in Hall. by apply Hall.
Qed.

Ltac rest_body_lock_free :=
  intros; simpl;
  repeat match goal with
         | |- context [match ?x with _ => _ end] =>
             lazymatch x with
             | context [match _ with _ => _ end] => fail
             | _ => destruct x; simpl
             end
         end;
  try reflexivity.

Lemma all_handlers_outside_lock (more : RPCClient → RPCMore) (rest : RPCClient → RPCRest)
    (bodies : Bodies) (hv : Hypervisor) (pick : bool) :
  Forall (λ hd : Request → list RestEvent, ∀ r, rest_rpc_outside_lock 0 (hd r) = true)
         (all_handlers more rest bodies hv pick).
Proof.
  assert (∀ hd r, hd ∈ resolved_handlers hv pick →
                  rest_rpc_outside_lock 0 (lift hd r) = true) as Hbase
    by (intros; by eapply base_handlers_outside_lock).
  unfold all_handlers.
  repeat apply Forall_cons_2; [..|apply Forall_nil_2]; intros r;
    try (apply Hbase; unfold resolved_handlers; by in_list).
  - apply (withCtx_rest_outside_lock hv); [tauto|]. rest_body_lock_free.
  - unfold lift_more, putApp. rewrite lift_more_withCtx.
    apply (withCtx_rest_outside_lock hv); [tauto|]. intros ctx.
    eapply sequenced_lock_free, putApp_handler_sequenced.
  - apply (withCtx_rest_outside_lock hv); [tauto|]. rest_body_lock_free.
  - unfold lift_more, getTransports. rewrite lift_more_withCtx.
    apply (withCtx_rest_outside_lock hv); [tauto|]. rest_body_lock_free.
  - apply (withCtx_rest_outside_lock hv); [tauto|]. rest_body_lock_free.
  - apply (withCtx_rest_outside_lock hv); [tauto|]. rest_body_lock_free.
  - apply (withCtx_rest_outside_lock hv); [tauto|]. intros ctx. unfold saveRoute.
    rest_body_lock_free.
  - apply (withCtx_rest_outside_lock hv); [tauto|]. intros ctx. unfold saveRoute.
    rest_body_lock_free.
  - apply (withCtx_rest_outside_lock hv); [tauto|]. rest_body_lock_free.
  - apply (withCtx_rest_outside_lock hv); [tauto|]. rest_body_lock_free.
  - apply (withCtx_rest_outside_lock hv); [tauto|]. rest_body_lock_free.
  - apply (withCtx_rest_outside_lock hv); [tauto|]. rest_body_lock_free.
Qed.

(** C2, as the code has it: each of the twenty-three handlers that are
    dispatched through [withCtx] holds the registry read lock only for
    the lookup of the visor and has released it before its first RPC
    call, whichever kind of call that is; the fleet-summary fan-out takes
    the read lock first, issues one [Summary] call per registered visor
    while it holds the lock, and releases the lock only after all of them
    have returned, just before it writes the response. *)
Theorem registry_lock_scope
    (more : RPCClient → RPCMore) (rest : RPCClient → RPCRest) (bodies : Bodies)
    (hv : Hypervisor) (pick : bool) :
  length (all_handlers more rest bodies hv pick) = 23%nat
  ∧ Forall (λ hd : Request → list RestEvent,
              ∀ r, rest_rpc_outside_lock 0 (hd r) = true)
           (all_handlers more rest bodies hv pick)
  ∧ (∀ (order : list (PubKey * VisorConn)) (sched : list nat) (r : Request),
      range_of hv order →
      schedule_of order sched →
      ∃ calls : list Event,
        trace (getVisors hv order sched r) =
          EvRLock :: calls ++
          [EvRUnlock; EvWriteJSON StatusOK (BSummaries (slot_of <$> order))]
        ∧ Forall (λ e, is_rpc e = true) calls
        ∧ length calls = size (visors hv)
        ∧ rpc_inside_lock 0 (trace (getVisors hv order sched r)) = true).
Proof.
  split; [reflexivity|]. split; [apply all_handlers_outside_lock|].
  apply (base_lock_scope hv pick).
Qed.

(** ** Remote failures, for every handler *)

Lemma surfaces_app (failed : RestEvent → option error) (t1 t2 : list RestEvent) :
  Forall (λ ev, failed ev = None) t1 →
  surfaces failed t2 →
  surfaces failed (t1 ++ t2).
Proof.
  induction 1 as [|ev t1 Hev _ IH]; intros H2; simpl; [done|].
  apply surfaces_cons; [done|]. by apply IH.
Qed.

Lemma sequenced_surfaces (c : RPCClient) (x : RPCMore) (y : RPCRest) (addr : Addr)
    (fin : Z → Body → Prop) (t : list MoreEvent) :
  sequenced x addr fin t →
  surfaces (remote_failure c x y) (REv <$> t).
Proof.
  induction 1 as [st b Hfin|call e Hcall|call t Hcall _ IH]; simpl.
  - apply surfaces_cons; [done|]. apply surfaces_nil.
  - by apply surfaces_failure.
  - by apply surfaces_cons.
Qed.

Ltac use_equations :=
  repeat match goal with
         | H : ?x = _ |- context [?x] => rewrite H
         end.

Ltac surfaces_step :=
  first [ apply surfaces_nil
        | apply surfaces_failure; simpl; use_equations; reflexivity
        | apply surfaces_cons; [simpl; use_equations; reflexivity|] ].

Ltac split_cases :=
  repeat match goal with
         | |- context [match ?x with _ => _ end] =>
             lazymatch x with
             | context [match _ with _ => _ end] => fail
             | _ => destruct x eqn:?; simpl
             end
         end.

Ltac surfaces_handler := simpl; split_cases; repeat surfaces_step.

Lemma surfacing_handlers_surface
    (more : RPCClient → RPCMore) (rest : RPCClient → RPCRest) (bodies : Bodies)
    (hv : Hypervisor) (r : Request) (pk : PubKey) (c : VisorConn) :
  pkFromParam r "pk" = Ok pk →
  visors hv !! pk = Some c →
  Forall (λ hd : Request → list RestEvent,
            surfaces (remote_failure (RPC c) (more (RPC c)) (rest (RPC c))) (hd r))
         (surfacing_handlers more rest bodies hv).
Proof.
  intros Hpk Hlook.
  pose proof (visorCtx_found hv r pk c Hpk Hlook) as Hv.
  unfold surfacing_handlers.
  repeat apply Forall_cons_2; [..|apply Forall_nil_2].
  - unfold lift, getUptime, withCtx, bind, trace, call. rewrite Hv. surfaces_handler.
  - unfold lift, getVisor, withCtx, bind, trace, call. rewrite Hv. surfaces_handler.
  - unfold getPty, withCtx_rest. rewrite Hv. surfaces_handler.
  - unfold lift, getApps, withCtx, bind, trace, call. rewrite Hv. surfaces_handler.
  - unfold lift, getApp, withCtx, appCtx, bind, trace, call. rewrite Hv.
    surfaces_handler.
  - unfold lift_more, putApp. rewrite lift_more_withCtx.
    unfold withCtx_rest, appCtx, bind, call, trace. rewrite Hv. simpl.
    destruct (rpcApps (RPC c)) as [apps|e] eqn:Happs; simpl;
      [destruct (List.find _ apps) as [a|] eqn:Hfind; simpl|].
    + do 3 (apply surfaces_cons; [simpl; use_equations; reflexivity|]).
      eapply sequenced_surfaces.
      exact (putApp_handler_sequenced more ErrMalformedRequest (body_putApp bodies)
               {| Conn := c; App := Some a; Tp := None; RtKey := 0%N |}).
    + repeat surfaces_step.
    + repeat surfaces_step.
  - unfold lift, appLogsSince, withCtx, appCtx, bind, trace, call. rewrite Hv.
    surfaces_handler.
  - unfold getTransportTypes, withCtx_rest. rewrite Hv. surfaces_handler.
  - unfold lift_more, getTransports. rewrite lift_more_withCtx.
    unfold withCtx_rest. rewrite Hv. surfaces_handler.
  - unfold postTransport, withCtx_rest. rewrite Hv. surfaces_handler.
  - unfold lift, getTransport, withCtx, tpCtx, bind, trace, call. rewrite Hv.
    surfaces_handler.
  - unfold lift, deleteTransport, withCtx, tpCtx, bind, trace, call. rewrite Hv.
    surfaces_handler.
  - unfold getRoutes, withCtx_rest. rewrite Hv. surfaces_handler.
  - unfold postRoute, withCtx_rest, saveRoute. rewrite Hv. surfaces_handler.
  - unfold putRoute, withCtx_rest, saveRoute, routeCtx, bind, trace. rewrite Hv.
    surfaces_handler.
  - unfold getRouteGroups, withCtx_rest. rewrite Hv. surfaces_handler.
  - unfold lift, restart, withCtx, bind, trace, call. rewrite Hv. surfaces_handler.
  - unfold exec, withCtx_rest. rewrite Hv. surfaces_handler.
  - unfold update, withCtx_rest. rewrite Hv. surfaces_handler.
  - unfold updateAvailable, withCtx_rest. rewrite Hv. surfaces_handler.
Qed.


(** C7, as the code has it: take a request whose node is resolved.  In
    twenty of the twenty-three handlers behind [withCtx] every RPC error
    that is a remote failure -- for the fetch of a transport an error
    other than the not-found sentinel, for every other call any error --
    ends the request with the generic failure 500 and the error itself as
    body.  The three others: the lookup and the removal of a routing rule
    answer every RPC error with 404, the status of not-found, and the
    error itself as body; the health probe reports a failed [Health]
    call as 200 with the status 500 inside the report and without the
    error.  The transport stage answers the not-found sentinel with 404
    and a message of its own, and the fleet summary turns a failed
    [Summary] call into an offline entry without the error. *)
Theorem remote_failure_status
    (more : RPCClient → RPCMore) (rest : RPCClient → RPCRest) (bodies : Bodies)
    (hv : Hypervisor) (pick : bool) (r : Request) (pk : PubKey) (c : VisorConn) :
  pkFromParam r "pk" = Ok pk →
  visors hv !! pk = Some c →
  Forall (λ hd : Request → list RestEvent,
            surfaces (remote_failure (RPC c) (more (RPC c)) (rest (RPC c))) (hd r))
         (surfacing_handlers more rest bodies hv)
  ∧ (∀ hd, hd ∈ all_handlers more rest bodies hv pick →
           hd ∈ surfacing_handlers more rest bodies hv
           ∨ hd = lift (getHealth hv pick)
           ∨ hd = lift (getRoute hv)
           ∨ hd = lift (deleteRoute hv))
  ∧ (∀ e : error, w500 e = REv (MEv (EvWriteJSON 500%Z (BErr e))))
  ∧ (∀ (rid : RouteID) (q : bool) (e : error),
      ridFromParam r "rid" = Ok rid →
      BoolFromQuery r "summary" true = Ok q →
      rpcRoutingRule (RPC c) rid = Err e →
      response (trace (getRoute hv r)) = Some (404%Z, BErr e))
  ∧ (∀ (rid : RouteID) (e : error),
      ridFromParam r "rid" = Ok rid →
      rpcRemoveRoutingRule (RPC c) rid = Some e →
      response (trace (deleteRoute hv r)) = Some (404%Z, BErr e))
  ∧ (∀ (t : Duration) (e : error),
      HealthLatency (RPC c) = Some t → (t < healthTimeout)%Z →
      rpcHealth (RPC c) = Err e →
      response (trace (getHealth hv pick r))
      = Some (200%Z, BHealth {| Status := 500; VHHealthInfo := None |}))
  ∧ (∀ (tid : UUID) (h : handlerFunc) (e : error),
      uuidFromParam r "tid" = Ok tid →
      rpcTransport (RPC c) tid = Err e →
      Error e = Error ErrNotFound →
      response (trace (withCtx (tpCtx hv) h r))
      = Some (404%Z,
              BErr (mkError ("transport of ID " ++ uuid_String tid ++ " is not found"))))
  ∧ (∀ e : error,
      rpcSummary (RPC c) = Err e →
      slot_of (pk, c)
      = {| TCPAddr := Addr_String (VAddr c); Online := false;
           RespSummary := Some {| SumPubKey := pk; AppProtoVersion := "";
                                  SumApps := []; SumTransports := [];
                                  RoutesCount := 0 |} |}).
Proof.
  intros Hpk Hlook.
  split; [by apply (surfacing_handlers_surface more rest bodies hv r pk c)|].
  split.
  { intros hd Hin. unfold all_handlers in Hin. unfold surfacing_handlers.
    repeat (apply elem_of_cons in Hin as [->|Hin];
            [first [by left; in_list | by right; left | by right; right; left
                   | by right; right; right]|]).
    by apply elem_of_nil in Hin. }
  split; [done|].
  split; [intros rid q e Hrid Hq Hrpc;
          by destruct (remote_failure_sites hv r pk c e Hpk Hlook) as (Hg & _);
             apply (Hg rid q)|].
  split; [intros rid e Hrid Hrpc;
          by destruct (remote_failure_sites hv r pk c e Hpk Hlook) as (_ & Hd & _);
             apply (Hd rid)|].
  split; [|split].
  - intros t e Hlat Hlt Hrpc. rewrite (getHealth_trace hv pick r pk c) by done.
    rewrite (health_final_in_time pick (RPC c) t) by done. simpl. by rewrite Hrpc.
  - intros tid h e Htid Hrpc Hmsg.
    rewrite (tpCtx_rpc_error hv r h pk c tid e) by done.
    apply String.eqb_eq in Hmsg. by rewrite Hmsg.
  - intros e Hrpc. unfold slot_of, summaryTask, bind, call, ret; simpl.
    by rewrite Hrpc.
Qed.

(** ** One response per request, for every handler *)

Lemma rest_responses_app (t1 t2 : list RestEvent) :
  rest_responses (t1 ++ t2) = rest_responses t1 ++ rest_responses t2.
Proof. apply filter_app. Qed.

Lemma rest_responses_lift (t : list Event) :
  length (rest_responses (rest_of_event <$> t)) = length (responses t).
Proof.
  unfold rest_responses, responses. induction t as [|e t IH]; [done|].
  rewrite fmap_cons, !filter_cons. simpl.
  destruct (decide (is_write e)); simpl; by rewrite IH.
Qed.

Lemma withCtx_rest_single_response (hv : Hypervisor) (vf : valuesFunc)
    (h : Request → httpCtx → list RestEvent) (r : Request) :
  vf = visorCtx hv ∨ vf = appCtx hv ∨ vf = tpCtx hv ∨ vf = routeCtx hv →
  (∀ ctx, length (rest_responses (h r ctx)) = 1%nat) →
  length (rest_responses (withCtx_rest vf h r)) = 1%nat.
Proof.
  intros Hvf Hh. unfold withCtx_rest.
  rewrite rest_responses_app, length_app, rest_responses_lift.
  rewrite (stage_responses hv r vf Hvf).
  destruct (vf r).2; [by rewrite Hh | done].
Qed.

Lemma sequenced_single_response (x : RPCMore) (addr : Addr) (fin : Z → Body → Prop)
    (t : list MoreEvent) :
  sequenced x addr fin t → length (rest_responses (REv <$> t)) = 1%nat.
Proof. induction 1; done. Qed.

Ltac rest_single_response :=
  intros; simpl;
  repeat match goal with
         | |- context [match ?x with _ => _ end] =>
             lazymatch x with
             | context [match _ with _ => _ end] => fail
             | _ => destruct x; simpl
             end
         end;
  try reflexivity.

Lemma responding_handlers_single_response
    (more : RPCClient → RPCMore) (rest : RPCClient → RPCRest) (bodies : Bodies)
    (hv : Hypervisor) (pick : bool) :
  Forall (λ hd : Request → list RestEvent,
            ∀ r, length (rest_responses (hd r)) = 1%nat)
         (responding_handlers more rest bodies hv pick).
Proof.
  assert (∀ hd r, hd ∈ resolved_handlers hv pick →
                  length (rest_responses (lift hd r)) = 1%nat) as Hbase.
  { intros hd r Hin. unfold lift. rewrite rest_responses_lift.
    destruct (base_one_response hv pick) as [Hall _].
    rewrite Forall_forall in Hall. by apply Hall. }
  unfold responding_handlers.
  repeat apply Forall_cons_2; [..|apply Forall_nil_2]; intros r;
    try (apply Hbase; unfold resolved_handlers; by in_list).
  - unfold lift_more, putApp. rewrite lift_more_withCtx.
    apply (withCtx_rest_single_response hv); [tauto|]. intros ctx.
    eapply sequenced_single_response, putApp_handler_sequenced.
  - apply (withCtx_rest_single_response hv); [tauto|]. rest_single_response.
  - unfold lift_more, getTransports. rewrite lift_more_withCtx.
    apply (withCtx_rest_single_response hv); [tauto|]. rest_single_response.
  - apply (withCtx_rest_single_response hv); [tauto|]. rest_single_response.
  - apply (withCtx_rest_single_response hv); [tauto|]. rest_single_response.
  - apply (withCtx_rest_single_response hv); [tauto|]. intros ctx. unfold saveRoute.
    rest_single_response.
  - apply (withCtx_rest_single_response hv); [tauto|]. intros ctx. unfold saveRoute.
    rest_single_response.
  - apply (withCtx_rest_single_response hv); [tauto|]. rest_single_response.
  - apply (withCtx_rest_single_response hv); [tauto|]. rest_single_response.
  - apply (withCtx_rest_single_response hv); [tauto|]. rest_single_response.
Qed.

(** X12: of the twenty-three handlers behind [withCtx], all but the
    terminal and the listing of route groups write exactly one response to
    every request -- from the stage that stopped the chain or from the
    handler, never from both and never none.  The terminal gets one
    response from the node stage or is handed over, once, to the handler
    of the terminal UI; the listing of route groups writes at most one
    response; and the fleet summary writes exactly one. *)
Theorem one_response_per_request
    (more : RPCClient → RPCMore) (rest : RPCClient → RPCRest) (bodies : Bodies)
    (hv : Hypervisor) (pick : bool) :
  Forall (λ hd : Request → list RestEvent,
            ∀ r, length (rest_responses (hd r)) = 1%nat)
         (responding_handlers more rest bodies hv pick)
  ∧ (∀ hd, hd ∈ all_handlers more rest bodies hv pick →
           hd ∈ responding_handlers more rest bodies hv pick
           ∨ hd = getPty hv ∨ hd = getRouteGroups rest hv)
  ∧ (∀ r, (length (rest_responses (getPty hv r))
           + length (filter rest_is_handover (getPty hv r)) = 1)%nat)
  ∧ (∀ r, (length (rest_responses (getRouteGroups rest hv r)) ≤ 1)%nat)
  ∧ (∀ (order : list (PubKey * VisorConn)) (sched : list nat) (r : Request),
       length (responses (trace (getVisors hv order sched r))) = 1%nat).
Proof.
  split; [apply responding_handlers_single_response|].
  split.
  { intros hd Hin. unfold all_handlers in Hin. unfold responding_handlers.
    repeat (apply elem_of_cons in Hin as [->|Hin];
            [first [by left; in_list | by right; left | by right; right]|]).
    by apply elem_of_nil in Hin. }
  split; [|split].
  - intros r. unfold getPty, withCtx_rest.
    rewrite rest_responses_app, !filter_app, !length_app, rest_responses_lift.
    rewrite (stage_responses hv r (visorCtx hv)) by tauto.
    assert (length (filter rest_is_handover (rest_of_event <$> trace (visorCtx hv r)))
            = 0%nat) as ->.
    { induction (trace (visorCtx hv r)) as [|e t IH]; [done|].
      rewrite fmap_cons, filter_cons. by destruct (decide _). }
    by destruct (visorCtx hv r).2.
  - intros r. unfold getRouteGroups, withCtx_rest.
    rewrite rest_responses_app, length_app, rest_responses_lift.
    rewrite (stage_responses hv r (visorCtx hv)) by tauto.
    destruct (visorCtx hv r).2 as [ctx|]; simpl; [|lia].
    destruct (rpcRouteGroups _) as [groups|e]; simpl; [|lia].
    destruct (makeRouteGroupResps groups); simpl; lia.
  - apply (base_one_response hv pick).
Qed.

End AllHandlers.

(** * The properties on the sample fleet *)

(** [order_ABC] goes over every entry of [fleet] once. *)
Lemma range_of_fleet_ABC : range_of fleet order_ABC.
Proof.
  unfold range_of. vm_compute. apply perm_skip, perm_swap.
Qed.

(** So does [order_ACB]. *)
Lemma range_of_fleet_ACB : range_of fleet order_ACB.
Proof. unfold range_of. vm_compute. reflexivity. Qed.

(** A schedule in which the third goroutine runs first. *)
Lemma schedule_of_three (order : list (PubKey * VisorConn)) (sched : list nat) :
  length order = 3%nat → sched = [2; 0; 1]%nat → schedule_of order sched.
Proof.
  intros Hlen ->. unfold schedule_of. rewrite Hlen. simpl.
  etransitivity; [apply Permutation_cons_append|done].
Qed.

#[local] Existing Instance sample_ext.

(** C1 on the sample fleet: [A] connects again after [B]; its new handle
    is the one found, and [C], which never connected, is not found. *)
Lemma registry_lookup_after_inserts_witness :
  Forall (λ s, PK (RawRemoteAddr s) ≠ PK (RawRemoteAddr streamA')) [streamC]
  ∧ (visorConn (ServeRPC New (Ok <$> ([streamA; streamB] ++ streamA' :: [streamC]))).1
               (PK (RawRemoteAddr streamA'))).2 = Some (conn_of streamA')
  ∧ Forall (λ s, PK (RawRemoteAddr s) ≠ pkC) [streamA; streamB]
  ∧ (visorConn (ServeRPC New (Ok <$> [streamA; streamB])).1 pkC).2 = None.
Proof.
  assert (Forall (λ s, PK (RawRemoteAddr s) ≠ PK (RawRemoteAddr streamA')) [streamC])
    as H1 by (repeat constructor; discriminate).
  assert (Forall (λ s, PK (RawRemoteAddr s) ≠ pkC) [streamA; streamB])
    as H2 by (repeat constructor; discriminate).
  destruct (registry_lookup_after_inserts (ext := sample_ext)) as [Hlast Hnever].
  split; [exact H1|]. split; [exact (Hlast New [streamA; streamB] [streamC] streamA' H1)|].
  split; [exact H2|]. exact (Hnever [streamA; streamB] pkC H2).
Defined.

(** C2 fails for the fan-out: over the registry holding only [A], the
    [Summary] call is issued while the read lock is held. *)
Lemma registry_lock_scope_counterexample :
  range_of fleetA [(pkA, conn_of streamA)]
  ∧ schedule_of [(pkA, conn_of streamA)] [0%nat]
  ∧ rpc_outside_lock 0
      (trace (getVisors fleetA [(pkA, conn_of streamA)] [0%nat] (request [] []))) = false.
Proof.
  split; [|split].
  - unfold range_of. vm_compute. reflexivity.
  - unfold schedule_of. simpl. reflexivity.
  - vm_compute. reflexivity.
Qed.

(** C3 on the sample fleet, where [B] fails: three entries, one of them
    offline, and the entry of [B] with nothing but its address and its
    public key. *)
Lemma fanout_tolerates_failures_witness :
  range_of fleet order_ABC
  ∧ schedule_of order_ABC [2; 0; 1]%nat
  ∧ length (summaries_written
              (trace (getVisors fleet order_ABC [2; 0; 1]%nat (request [] []))))
    = 3%nat
  ∧ length (filter (λ s, Online s = false)
              (summaries_written
                 (trace (getVisors fleet order_ABC [2; 0; 1]%nat (request [] [])))))
    = 1%nat
  ∧ summaries_written
      (trace (getVisors fleet order_ABC [2; 0; 1]%nat (request [] []))) !! 1%nat
    = Some {| TCPAddr := Addr_String (VAddr (conn_of streamB)); Online := false;
              RespSummary :=
                Some {| SumPubKey := pkB; AppProtoVersion := "";
                        SumApps := []; SumTransports := []; RoutesCount := 0 |} |}.
Proof.
  pose proof range_of_fleet_ABC as Hr.
  pose proof (schedule_of_three order_ABC [2; 0; 1]%nat eq_refl eq_refl) as Hs.
  destruct (fanout_tolerates_failures (ext := sample_ext) fleet order_ABC
              [2; 0; 1]%nat (request [] []) Hr Hs) as (_ & Hlen & Hoff & _ & Hslot).
  split; [exact Hr|]. split; [exact Hs|].
  split; [rewrite Hlen; vm_compute; reflexivity|].
  split; [rewrite Hoff; vm_compute; reflexivity|].
  exact (Hslot 1%nat pkB (conn_of streamB) eq_refl).
Defined.

(** C4 for visor [A], whose call takes two seconds, and for a visor
    whose call takes exactly the five seconds of the deadline. *)
Lemma health_probe_race_witness :
  pkFromParam (request_for pkA_text) "pk" = Ok pkA
  ∧ visors fleet !! pkA = Some (conn_of streamA)
  ∧ HealthLatency (RPC (conn_of streamA)) = Some (2 * Second)%Z
  ∧ (2 * Second < healthTimeout)%Z
  ∧ response (trace (getHealth fleet false (request_for pkA_text)))
    = Some (200%Z, BHealth {| Status := 200; VHHealthInfo := Some sample_health |})
  ∧ visors (fleet_with_latency (Some healthTimeout)) !! pkA
    = Some (conn_of {| RawRemoteAddr := {| PK := pkA; Port := 1%N |};
                       NewRPCClient := good_client pkA (Some healthTimeout) |})
  ∧ (healthTimeout ≤ healthTimeout)%Z
  ∧ response (trace (getHealth (fleet_with_latency (Some healthTimeout)) true
                       (request_for pkA_text)))
    = Some (408%Z, BHealth {| Status := 408; VHHealthInfo := None |}).
Proof.
  assert (pkFromParam (request_for pkA_text) "pk" = Ok pkA) as Hpk
    by (vm_compute; reflexivity).
  assert (visors fleet !! pkA = Some (conn_of streamA)) as Hlook
    by (vm_compute; reflexivity).
  assert (visors (fleet_with_latency (Some healthTimeout)) !! pkA
          = Some (conn_of {| RawRemoteAddr := {| PK := pkA; Port := 1%N |};
                             NewRPCClient := good_client pkA (Some healthTimeout) |}))
    as Hlook' by (vm_compute; reflexivity).
  assert (2 * Second < healthTimeout)%Z as Hlt by (vm_compute; reflexivity).
  assert (healthTimeout ≤ healthTimeout)%Z as Hle by lia.
  destruct (health_probe_race (ext := sample_ext) fleet false (request_for pkA_text)
              pkA (conn_of streamA) Hpk Hlook) as (_ & Hin & _).
  destruct (health_probe_race (ext := sample_ext) (fleet_with_latency (Some healthTimeout))
              true (request_for pkA_text) pkA _ Hpk Hlook') as (_ & _ & Hlate & _).
  split; [exact Hpk|]. split; [exact Hlook|]. split; [reflexivity|]. split; [exact Hlt|].
  split; [exact (Hin (2 * Second)%Z eq_refl Hlt)|].
  split; [exact Hlook'|]. split; [exact Hle|].
  exact (Hlate healthTimeout eq_refl Hle).
Defined.

(** C5 for a malformed key and for a key that is not registered. *)
Lemma resolver_chain_short_circuit_witness :
  pkFromParam (request_for "zz") "pk" = Err (mkError "invalid public key")
  ∧ withCtx (appCtx fleet) (λ _ _, WriteJSON StatusOK (BBool true)) (request_for "zz")
    = ([EvWriteJSON StatusBadRequest (BErr (mkError "invalid public key"))], tt)
  ∧ pkFromParam (request_for pkB_text) "pk" = Ok pkB
  ∧ visors fleetA !! pkB = None
  ∧ rpc_calls (trace (withCtx (tpCtx fleetA) (λ _ _, WriteJSON StatusOK (BBool true))
                        (request_for pkB_text))) = [].
Proof.
  assert (pkFromParam (request_for "zz") "pk" = Err (mkError "invalid public key"))
    as Hbad by (vm_compute; reflexivity).
  assert (pkFromParam (request_for pkB_text) "pk" = Ok pkB) as Hpk
    by (vm_compute; reflexivity).
  assert (visors fleetA !! pkB = None) as Hlook by (vm_compute; reflexivity).
  destruct (resolver_chain_short_circuit (ext := sample_ext) fleet (request_for "zz")
              (λ _ _, WriteJSON StatusOK (BBool true))) as (Hmal & _ & _).
  destruct (resolver_chain_short_circuit (ext := sample_ext) fleetA (request_for pkB_text)
              (λ _ _, WriteJSON StatusOK (BBool true))) as (_ & Hunk & _).
  destruct (Hmal _ Hbad) as (Happ & _).
  destruct (Hunk _ Hpk Hlook) as (_ & Htp & _ & Hnone).
  split; [exact Hbad|]. split; [exact Happ|]. split; [exact Hpk|]. split; [exact Hlook|].
  rewrite Htp. exact Hnone.
Defined.

(** C6 for visor [B], whose transport fetch fails with another error. *)
Lemma transport_stage_error_mapping_witness :
  pkFromParam (request_for pkB_text) "pk" = Ok pkB
  ∧ visors fleet !! pkB = Some (conn_of streamB)
  ∧ uuidFromParam (request_for pkB_text) "tid" = Ok 1%N
  ∧ rpcTransport (RPC (conn_of streamB)) 1%N = Err shut_down
  ∧ Error shut_down ≠ Error ErrNotFound
  ∧ trace (withCtx (tpCtx fleet) (λ _ _, WriteJSON StatusOK (BBool true))
             (request_for pkB_text))
    = [EvRLock; EvRUnlock; EvRPC (VAddr (conn_of streamB)) (CallTransport 1%N);
       EvWriteJSON StatusInternalServerError (BErr shut_down)].
Proof.
  assert (pkFromParam (request_for pkB_text) "pk" = Ok pkB) as Hpk
    by (vm_compute; reflexivity).
  assert (visors fleet !! pkB = Some (conn_of streamB)) as Hlook
    by (vm_compute; reflexivity).
  assert (uuidFromParam (request_for pkB_text) "tid" = Ok 1%N) as Htid
    by (vm_compute; reflexivity).
  assert (Error shut_down ≠ Error ErrNotFound) as Hne by discriminate.
  destruct (transport_stage_error_mapping (ext := sample_ext) fleet (request_for pkB_text)
              (λ _ _, WriteJSON StatusOK (BBool true)) pkB (conn_of streamB) 1%N shut_down
              Hpk Hlook Htid eq_refl) as (_ & H500).
  split; [exact Hpk|]. split; [exact Hlook|]. split; [exact Htid|].
  split; [reflexivity|]. split; [exact Hne|]. exact (H500 Hne).
Defined.

(** C7 fails for the routing-rule handlers: a broken connection is
    answered with 404, the status of not-found. *)
Lemma remote_failure_status_counterexample :
  rpcRoutingRule (RPC (conn_of streamB)) 7%N = Err shut_down
  ∧ Error shut_down ≠ Error ErrNotFound
  ∧ response (trace (getRoute fleet (request_for pkB_text)))
    = Some (StatusNotFound, BErr shut_down)
  ∧ response (trace (deleteRoute fleet (request_for pkB_text)))
    = Some (StatusNotFound, BErr shut_down)
  ∧ StatusNotFound ≠ StatusInternalServerError.
Proof.
  split; [reflexivity|]. split; [discriminate|].
  split; [vm_compute; reflexivity|]. split; [vm_compute; reflexivity|]. discriminate.
Qed.

(** C8 fails: two runs over the same registry, one iterating it as A, B,
    C and one as A, C, B, answer in different orders. *)
Lemma fanout_order_counterexample :
  range_of fleet order_ABC ∧ range_of fleet order_ACB
  ∧ schedule_of order_ABC [2; 0; 1]%nat ∧ schedule_of order_ACB [2; 0; 1]%nat
  ∧ summary_pks (summaries_written
                   (trace (getVisors fleet order_ABC [2; 0; 1]%nat (request [] []))))
    = [pkA; pkB; pkC]
  ∧ summary_pks (summaries_written
                   (trace (getVisors fleet order_ACB [2; 0; 1]%nat (request [] []))))
    = [pkA; pkC; pkB]
  ∧ [pkA; pkB; pkC] ≠ [pkA; pkC; pkB].
Proof.
  split; [apply range_of_fleet_ABC|]. split; [apply range_of_fleet_ACB|].
  split; [by apply schedule_of_three|]. split; [by apply schedule_of_three|].
  split; [vm_compute; reflexivity|]. split; [vm_compute; reflexivity|]. discriminate.
Qed.

(** C8, as amended, for those two runs. *)
Lemma fanout_order_is_iteration_order_witness :
  range_of fleet order_ABC ∧ schedule_of order_ABC [2; 0; 1]%nat
  ∧ range_of fleet order_ACB ∧ schedule_of order_ACB [2; 0; 1]%nat
  ∧ summaries_written (trace (getVisors fleet order_ABC [2; 0; 1]%nat (request [] [])))
    = slot_of <$> order_ABC
  ∧ summaries_written (trace (getVisors fleet order_ABC [2; 0; 1]%nat (request [] [])))
      ≡ₚ summaries_written
           (trace (getVisors fleet order_ACB [2; 0; 1]%nat (request [] []))).
Proof.
  pose proof range_of_fleet_ABC as Hr1.
  pose proof range_of_fleet_ACB as Hr2.
  pose proof (schedule_of_three order_ABC [2; 0; 1]%nat eq_refl eq_refl) as Hs1.
  pose proof (schedule_of_three order_ACB [2; 0; 1]%nat eq_refl eq_refl) as Hs2.
  destruct (fanout_order_is_iteration_order (ext := sample_ext) fleet order_ABC order_ACB
              [2; 0; 1]%nat [2; 0; 1]%nat (request [] []) Hr1 Hs1 Hr2 Hs2)
    as (H1 & _ & Hperm & _).
  split; [exact Hr1|]. split; [exact Hs1|]. split; [exact Hr2|]. split; [exact Hs2|].
  split; [exact H1 | exact Hperm].
Defined.

(** C10 for app [skysocks] of visor [A], which has no log entries. *)
Lemma appLogsSince_empty_is_error_witness :
  pkFromParam (request_skysocks pkA_text) "pk" = Ok pkA
  ∧ visors fleet !! pkA = Some (conn_of streamA)
  ∧ rpcLogsSince (RPC (conn_of streamA)) 0%Z "skysocks" = Ok []
  ∧ response (trace (appLogsSince fleet (request_skysocks pkA_text)))
    = Some (StatusInternalServerError, BErr (mkError "no new available logs")).
Proof.
  assert (pkFromParam (request_skysocks pkA_text) "pk" = Ok pkA) as Hpk
    by (vm_compute; reflexivity).
  assert (visors fleet !! pkA = Some (conn_of streamA)) as Hlook
    by (vm_compute; reflexivity).
  destruct (appLogsSince_empty_is_error (ext := sample_ext) fleet
              (request_skysocks pkA_text) pkA (conn_of streamA)
              [ {| Name := "skychat"; AutoStart := true; AppPort := 1%N |};
                {| Name := "skysocks"; AutoStart := false; AppPort := 3%N |} ]
              {| Name := "skysocks"; AutoStart := false; AppPort := 3%N |}
              0%Z [] Hpk Hlook eq_refl eq_refl eq_refl eq_refl) as (Hempty & _).
  split; [exact Hpk|]. split; [exact Hlook|]. split; [reflexivity|].
  exact (Hempty eq_refl).
Defined.

(** * The further properties on the sample fleet *)

(** X1 for the entry of [B] in the sample fleet. *)
Lemma registry_keys_match_addresses_witness :
  visors (ServeRPC New [Ok streamA; Ok streamB; Ok streamC]).1 !! pkB
    = Some (conn_of streamB)
  ∧ PK (VAddr (conn_of streamB)) = pkB
  ∧ VPtyUI (conn_of streamB) = Some {| PK := pkB; Port := DmsgPtyPort |}.
Proof.
  assert (visors (ServeRPC New [Ok streamA; Ok streamB; Ok streamC]).1 !! pkB
          = Some (conn_of streamB)) as Hlook by (vm_compute; reflexivity).
  split; [exact Hlook|].
  exact (registry_keys_match_addresses (ext := sample_ext)
           [Ok streamA; Ok streamB; Ok streamC] pkB (conn_of streamB) Hlook).
Defined.

(** X3 when [A] connects twice: four connections, three entries. *)
Lemma registry_size_is_distinct_keys_witness :
  range_of (ServeRPC New (Ok <$> [streamA; streamB; streamA'; streamC])).1
    (map_to_list (visors (ServeRPC New (Ok <$> [streamA; streamB; streamA'; streamC])).1))
  ∧ size (visors (ServeRPC New (Ok <$> [streamA; streamB; streamA'; streamC])).1)
    = length (remove_dups ((λ s, PK (RawRemoteAddr s))
                             <$> [streamA; streamB; streamA'; streamC]))
  ∧ length (remove_dups ((λ s, PK (RawRemoteAddr s))
                           <$> [streamA; streamB; streamA'; streamC])) = 3%nat.
Proof.
  pose proof (range_of_map_to_list
                (ServeRPC New (Ok <$> [streamA; streamB; streamA'; streamC])).1) as Hr.
  pose proof (schedule_of_seq
                (map_to_list
                   (visors (ServeRPC New (Ok <$> [streamA; streamB; streamA'; streamC])).1)))
    as Hs.
  destruct (registry_size_is_distinct_keys (ext := sample_ext)
              [streamA; streamB; streamA'; streamC] _ _ (request [] []) Hr Hs)
    as [Hsize _].
  split; [exact Hr|]. split; [exact Hsize|]. vm_compute. reflexivity.
Defined.

(** X4: the only way to go over the empty registry. *)
Lemma getVisors_empty_registry_witness :
  range_of New [] ∧ schedule_of [] []
  ∧ getVisors New [] [] (request [] [])
    = ([EvRLock; EvRUnlock; EvWriteJSON StatusOK (BSummaries [])], tt).
Proof.
  assert (range_of New []) as Hr by (unfold range_of; simpl; by rewrite map_to_list_empty).
  assert (schedule_of [] []) as Hs by (by unfold schedule_of).
  split; [exact Hr|]. split; [exact Hs|].
  exact (getVisors_empty_registry (ext := sample_ext) [] [] (request [] []) Hr Hs).
Defined.

(** X6 for the transport stage on visor [A]. *)
Lemma resolved_context_is_registry_entry_witness :
  (tpCtx fleet (request_for pkA_text)).2
    = Some {| Conn := conn_of streamA; App := None;
              Tp := Some {| ID := 1%N; Local := pkA; Remote := pkB; TpType := "dmsg" |};
              RtKey := 0%N |}
  ∧ ∃ pk, pkFromParam (request_for pkA_text) "pk" = Ok pk
          ∧ visors fleet !! pk = Some (conn_of streamA).
Proof.
  assert ((tpCtx fleet (request_for pkA_text)).2
          = Some {| Conn := conn_of streamA; App := None;
                    Tp := Some {| ID := 1%N; Local := pkA; Remote := pkB;
                                  TpType := "dmsg" |};
                    RtKey := 0%N |}) as Hctx by (vm_compute; reflexivity).
  split; [exact Hctx|].
  exact (resolved_context_is_registry_entry (ext := sample_ext) fleet
           (request_for pkA_text) (tpCtx fleet) _
           (or_intror (or_intror (or_introl eq_refl))) Hctx).
Defined.

(** X7 for app [skychat] of visor [A]. *)
Lemma appCtx_resolves_first_match_witness :
  appCtx fleet (request_for pkA_text)
    = ([EvRLock; EvRUnlock; EvRPC (VAddr (conn_of streamA)) CallApps], Some ctx_skychat)
  ∧ ∃ (apps : list AppState) (a : AppState),
      rpcApps (RPC (Conn ctx_skychat)) = Ok apps
      ∧ App ctx_skychat = Some a
      ∧ first_named (URLParam (request_for pkA_text) "app") apps a
      ∧ [EvRLock; EvRUnlock; EvRPC (VAddr (conn_of streamA)) CallApps]
        = [EvRLock; EvRUnlock; EvRPC (VAddr (Conn ctx_skychat)) CallApps].
Proof.
  assert (appCtx fleet (request_for pkA_text)
          = ([EvRLock; EvRUnlock; EvRPC (VAddr (conn_of streamA)) CallApps],
             Some ctx_skychat)) as Hctx by (vm_compute; reflexivity).
  split; [exact Hctx|].
  exact (appCtx_resolves_first_match (ext := sample_ext) fleet (request_for pkA_text)
           _ _ Hctx).
Defined.

(** X8 for visor [B], whose [Apps] call fails. *)
Lemma appCtx_failures_witness :
  pkFromParam (request_for pkB_text) "pk" = Ok pkB
  ∧ visors fleet !! pkB = Some (conn_of streamB)
  ∧ rpcApps (RPC (conn_of streamB)) = Err shut_down
  ∧ trace (withCtx (appCtx fleet) (λ _ _, WriteJSON StatusOK (BBool true))
             (request_for pkB_text))
    = [EvRLock; EvRUnlock; EvRPC (VAddr (conn_of streamB)) CallApps;
       EvWriteJSON StatusInternalServerError (BErr shut_down)].
Proof.
  assert (pkFromParam (request_for pkB_text) "pk" = Ok pkB) as Hpk
    by (vm_compute; reflexivity).
  assert (visors fleet !! pkB = Some (conn_of streamB)) as Hlook
    by (vm_compute; reflexivity).
  destruct (appCtx_failures (ext := sample_ext) fleet (request_for pkB_text)
              (λ _ _, WriteJSON StatusOK (BBool true)) pkB (conn_of streamB) Hpk Hlook)
    as [H500 _].
  split; [exact Hpk|]. split; [exact Hlook|]. split; [reflexivity|].
  exact (H500 shut_down eq_refl).
Defined.

(** X9 for transport 1 of visor [A]. *)
Lemma deleteTransport_removes_fetched_transport_witness :
  pkFromParam (request_for pkA_text) "pk" = Ok pkA
  ∧ visors fleet !! pkA = Some (conn_of streamA)
  ∧ uuidFromParam (request_for pkA_text) "tid" = Ok 1%N
  ∧ trace (deleteTransport fleet (request_for pkA_text))
    = [EvRLock; EvRUnlock;
       EvRPC (VAddr (conn_of streamA)) (CallTransport 1%N);
       EvRPC (VAddr (conn_of streamA)) (CallRemoveTransport 1%N);
       EvWriteJSON StatusOK (BBool true)].
Proof.
  assert (pkFromParam (request_for pkA_text) "pk" = Ok pkA) as Hpk
    by (vm_compute; reflexivity).
  assert (visors fleet !! pkA = Some (conn_of streamA)) as Hlook
    by (vm_compute; reflexivity).
  assert (uuidFromParam (request_for pkA_text) "tid" = Ok 1%N) as Htid
    by (vm_compute; reflexivity).
  split; [exact Hpk|]. split; [exact Hlook|]. split; [exact Htid|].
  exact (deleteTransport_removes_fetched_transport (ext := sample_ext) fleet
           (request_for pkA_text) pkA (conn_of streamA) 1%N
           {| ID := 1%N; Local := pkA; Remote := pkB; TpType := "dmsg" |}
           Hpk Hlook Htid eq_refl).
Defined.

(** X10 for visor [A]. *)
Lemma getVisor_never_online_witness :
  pkFromParam (request_for pkA_text) "pk" = Ok pkA
  ∧ visors fleet !! pkA = Some (conn_of streamA)
  ∧ rpcSummary (RPC (conn_of streamA)) = Ok (sample_summary pkA)
  ∧ response (trace (getVisor fleet (request_for pkA_text)))
    = Some (StatusOK,
            BSummary {| TCPAddr := Addr_String (VAddr (conn_of streamA));
                        Online := false;
                        RespSummary := Some (sample_summary pkA) |})
  ∧ Online (slot_of (pkA, conn_of streamA)) = true.
Proof.
  assert (pkFromParam (request_for pkA_text) "pk" = Ok pkA) as Hpk
    by (vm_compute; reflexivity).
  assert (visors fleet !! pkA = Some (conn_of streamA)) as Hlook
    by (vm_compute; reflexivity).
  destruct (getVisor_never_online (ext := sample_ext) fleet (request_for pkA_text)
              pkA (conn_of streamA) (sample_summary pkA) Hpk Hlook eq_refl)
    as [Hresp Hslot].
  split; [exact Hpk|]. split; [exact Hlook|]. split; [reflexivity|].
  split; [exact Hresp|]. rewrite Hslot. reflexivity.
Defined.

(** X13 for a [since] value whose plus arrived as a space. *)
Lemma appLogsSince_restores_plus_witness :
  pkFromParam request_since "pk" = Ok pkA
  ∧ visors fleet !! pkA = Some (conn_of streamA)
  ∧ Query_Get request_since "since"
    = ("2020-01-01T00:00:00.000000000" ++ String " " "00:00")%string
  ∧ has_space "2020-01-01T00:00:00.000000000" = false
  ∧ rpc_calls (trace (appLogsSince fleet request_since))
    = [EvRPC (VAddr (conn_of streamA)) CallApps;
       EvRPC (VAddr (conn_of streamA))
         (CallLogsSince
            match time_Parse_RFC3339Nano
                    ("2020-01-01T00:00:00.000000000" ++ String "+" "00:00")%string with
            | Ok t => t
            | Err _ => 0%Z
            end
            "skychat")].
Proof.
  assert (pkFromParam request_since "pk" = Ok pkA) as Hpk by (vm_compute; reflexivity).
  assert (visors fleet !! pkA = Some (conn_of streamA)) as Hlook
    by (vm_compute; reflexivity).
  assert (Query_Get request_since "since"
          = ("2020-01-01T00:00:00.000000000" ++ String " " "00:00")%string) as Hq
    by (vm_compute; reflexivity).
  split; [exact Hpk|]. split; [exact Hlook|]. split; [exact Hq|].
  split; [reflexivity|].
  exact (appLogsSince_restores_plus (ext := sample_ext) fleet request_since pkA
           (conn_of streamA) _ {| Name := "skychat"; AutoStart := true; AppPort := 1%N |}
           "2020-01-01T00:00:00.000000000" "00:00" Hpk Hlook eq_refl eq_refl Hq eq_refl).
Defined.

(** X14 for two rules of two bytes. *)
Lemma hex_EncodeToString_injective_witness :
  Forall (λ b, b < 256)%N [1; 171]%N
  ∧ Forall (λ b, b < 256)%N [1; 172]%N
  ∧ String.length (hex_EncodeToString [1; 171]%N) = (2 * length [1; 171]%N)%nat.
Proof.
  assert (Forall (λ b, b < 256)%N [1; 171]%N) as H1 by (repeat constructor).
  assert (Forall (λ b, b < 256)%N [1; 172]%N) as H2 by (repeat constructor).
  split; [exact H1|]. split; [exact H2|].
  exact (proj1 (hex_EncodeToString_injective [1; 171]%N [1; 172]%N H1 H2)).
Defined.

(** X15 for a query whose only [pk] value does not parse. *)
Lemma pkSliceFromQuery_all_or_first_error_witness :
  Query request_bad_query !! "pk" = Some ([] ++ "zz" :: [])
  ∧ PubKey_UnmarshalText "zz" = Err (mkError "invalid public key")
  ∧ pkSliceFromQuery request_bad_query "pk" [] = Err (mkError "invalid public key")
  ∧ Query request_bad_query !! "type" = None
  ∧ pkSliceFromQuery request_bad_query "type" [pkA] = Ok [pkA].
Proof.
  assert (Query request_bad_query !! "pk" = Some ([] ++ "zz" :: [])) as Hq
    by (vm_compute; reflexivity).
  assert (Query request_bad_query !! "type" = None) as Hn by (vm_compute; reflexivity).
  destruct (pkSliceFromQuery_all_or_first_error (ext := sample_ext)
              request_bad_query "pk" []) as (_ & _ & Herr).
  destruct (pkSliceFromQuery_all_or_first_error (ext := sample_ext)
              request_bad_query "type" [pkA]) as (Hdef & _).
  split; [exact Hq|]. split; [reflexivity|].
  split; [exact (Herr [] [] "zz" _ Hq (Forall_nil_2 _) eq_refl)|].
  split; [exact Hn | exact (Hdef Hn)].
Defined.

(** X16 for route 7. *)
Lemma ridFromParam_decimal_witness :
  (7 ≤ 4294967295)%N
  ∧ URLParam (request_for pkA_text) "rid" = pretty 7%N
  ∧ ridFromParam (request_for pkA_text) "rid" = Ok 7%N.
Proof.
  assert (URLParam (request_for pkA_text) "rid" = pretty 7%N) as Hp
    by (vm_compute; reflexivity).
  assert (7 ≤ 4294967295)%N as Hle by lia.
  split; [exact Hle|]. split; [exact Hp|].
  exact (proj1 (ridFromParam_decimal (request_for pkA_text) "rid") 7%N Hle Hp).
Defined.

(** X19: a passcode sent to app [skychat] is passed over. *)
Lemma putApp_passes_over_inapplicable_fields_witness :
  App_Name ctx_skychat ≠ skysocksName
  ∧ putApp_handler sample_more sample_ErrMalformedRequest
      (Ok {| bAutoStart := Some true; bStatus := None;
             bPasscode := Some "secret"; bPK := None |}) ctx_skychat
    = [MEv (EvWriteJSON StatusOK (BApp (App ctx_skychat)))].
Proof.
  assert (App_Name ctx_skychat ≠ skysocksName) as Hne by discriminate.
  split; [exact Hne|].
  exact (proj1 (putApp_passes_over_inapplicable_fields (ext := sample_ext) sample_more
                  sample_ErrMalformedRequest
                  {| bAutoStart := Some true; bStatus := None;
                     bPasscode := Some "secret"; bPK := None |}
                  ctx_skychat shut_down
                  (or_intror eq_refl) (or_intror Hne) (or_introl eq_refl) eq_refl)).
Defined.

(** X20 for a query whose [pk] value does not parse. *)
Lemma getTransports_validates_before_call_witness :
  pkFromParam request_bad_query "pk" = Ok pkA
  ∧ visors fleet !! pkA = Some (conn_of streamA)
  ∧ pkSliceFromQuery request_bad_query "pk" [] = Err (mkError "invalid public key")
  ∧ getTransports sample_more fleet request_bad_query
    = [MEv EvRLock; MEv EvRUnlock;
       MEv (EvWriteJSON StatusBadRequest (BErr (mkError "invalid public key")))].
Proof.
  assert (pkFromParam request_bad_query "pk" = Ok pkA) as Hpk
    by (vm_compute; reflexivity).
  assert (visors fleet !! pkA = Some (conn_of streamA)) as Hlook
    by (vm_compute; reflexivity).
  assert (pkSliceFromQuery request_bad_query "pk" []
          = Err (mkError "invalid public key")) as Hq by (vm_compute; reflexivity).
  destruct (getTransports_validates_before_call (ext := sample_ext) sample_more fleet
              request_bad_query pkA (conn_of streamA) Hpk Hlook) as [Hbad _].
  split; [exact Hpk|]. split; [exact Hlook|]. split; [exact Hq|].
  exact (Hbad _ Hq).
Defined.

(** X21 for route 7 of visor [A], with the default flag. *)
Lemma getRoute_validates_before_call_witness :
  pkFromParam (request_for pkA_text) "pk" = Ok pkA
  ∧ visors fleet !! pkA = Some (conn_of streamA)
  ∧ ridFromParam (request_for pkA_text) "rid" = Ok 7%N
  ∧ BoolFromQuery (request_for pkA_text) "summary" true = Ok true
  ∧ trace (getRoute fleet (request_for pkA_text))
    = [EvRLock; EvRUnlock; EvRPC (VAddr (conn_of streamA)) (CallRoutingRule 7%N);
       EvWriteJSON StatusOK
         (BRule {| Key := 7%N; RuleHex := hex_EncodeToString [1; 171]%N;
                   RuleSum := Some (Rule_Summary [1; 171]%N) |})].
Proof.
  assert (pkFromParam (request_for pkA_text) "pk" = Ok pkA) as Hpk
    by (vm_compute; reflexivity).
  assert (visors fleet !! pkA = Some (conn_of streamA)) as Hlook
    by (vm_compute; reflexivity).
  assert (ridFromParam (request_for pkA_text) "rid" = Ok 7%N) as Hrid
    by (vm_compute; reflexivity).
  destruct (getRoute_validates_before_call (ext := sample_ext) fleet
              (request_for pkA_text) pkA (conn_of streamA) 7%N Hpk Hlook Hrid)
    as [_ Hok].
  split; [exact Hpk|]. split; [exact Hlook|]. split; [exact Hrid|].
  split; [reflexivity|].
  exact (Hok true [1; 171]%N eq_refl eq_refl).
Defined.

(** X22 for [B] and [C] connecting in either order after [A]. *)
Lemma registry_independent_of_accept_order_witness :
  NoDup ((λ s, PK (RawRemoteAddr s)) <$> [streamA; streamB; streamC])
  ∧ [streamA; streamB; streamC] ≡ₚ [streamA; streamC; streamB]
  ∧ (ServeRPC New (Ok <$> [streamA; streamB; streamC])).1
    = (ServeRPC New (Ok <$> [streamA; streamC; streamB])).1.
Proof.
  assert (NoDup ((λ s, PK (RawRemoteAddr s)) <$> [streamA; streamB; streamC])) as Hnd.
  { simpl. repeat apply NoDup_cons_2; [..|apply NoDup_nil_2];
      rewrite ?elem_of_cons, elem_of_nil; intros Hin;
      repeat destruct Hin as [Hin|Hin]; try discriminate Hin; done. }
  assert ([streamA; streamB; streamC] ≡ₚ [streamA; streamC; streamB]) as Hperm
    by apply perm_skip, perm_swap.
  split; [exact Hnd|]. split; [exact Hperm|].
  exact (registry_independent_of_accept_order (ext := sample_ext) New _ _ Hnd Hperm).
Defined.

(** * All handlers on the sample fleet *)

(** C2, as amended, on the sample fleet. *)
Lemma registry_lock_scope_witness :
  range_of fleet order_ABC
  ∧ schedule_of order_ABC [2; 0; 1]%nat
  ∧ length (all_handlers (rext := sample_rext) sample_more sample_rest sample_bodies
              fleet true) = 23%nat
  ∧ Forall (λ hd : Request → list RestEvent,
              ∀ r, rest_rpc_outside_lock 0 (hd r) = true)
           (all_handlers (rext := sample_rext) sample_more sample_rest sample_bodies
              fleet true)
  ∧ ∃ calls : list Event,
      trace (getVisors fleet order_ABC [2; 0; 1]%nat (request [] [])) =
        EvRLock :: calls ++
        [EvRUnlock; EvWriteJSON StatusOK (BSummaries (slot_of <$> order_ABC))]
      ∧ Forall (λ e, is_rpc e = true) calls
      ∧ length calls = size (visors fleet)
      ∧ rpc_inside_lock 0
          (trace (getVisors fleet order_ABC [2; 0; 1]%nat (request [] []))) = true.
Proof.
  pose proof range_of_fleet_ABC as Hr.
  pose proof (schedule_of_three order_ABC [2; 0; 1]%nat eq_refl eq_refl) as Hs.
  destruct (registry_lock_scope (ext := sample_ext) (rext := sample_rext)
              sample_more sample_rest sample_bodies fleet true) as (Hlen & Hout & Hin).
  split; [exact Hr|]. split; [exact Hs|]. split; [exact Hlen|]. split; [exact Hout|].
  exact (Hin order_ABC [2; 0; 1]%nat (request [] []) Hr Hs).
Defined.

(** C7, as amended, for visor [B], whose connection is shut down. *)
Lemma remote_failure_status_witness :
  pkFromParam (request_for pkB_text) "pk" = Ok pkB
  ∧ visors fleet !! pkB = Some (conn_of streamB)
  ∧ Forall (λ hd : Request → list RestEvent,
              surfaces (remote_failure (RPC (conn_of streamB))
                          (sample_more (RPC (conn_of streamB)))
                          (sample_rest (RPC (conn_of streamB))))
                       (hd (request_for pkB_text)))
           (surfacing_handlers (rext := sample_rext) sample_more sample_rest
              sample_bodies fleet)
  ∧ (∀ e : error,
       rpcSummary (RPC (conn_of streamB)) = Err e →
       slot_of (pkB, conn_of streamB)
       = {| TCPAddr := Addr_String (VAddr (conn_of streamB)); Online := false;
            RespSummary := Some {| SumPubKey := pkB; AppProtoVersion := "";
                                   SumApps := []; SumTransports := [];
                                   RoutesCount := 0 |} |}).
Proof.
  assert (pkFromParam (request_for pkB_text) "pk" = Ok pkB) as Hpk
    by (vm_compute; reflexivity).
  assert (visors fleet !! pkB = Some (conn_of streamB)) as Hlook
    by (vm_compute; reflexivity).
  destruct (remote_failure_status (ext := sample_ext) (rext := sample_rext)
              sample_more sample_rest sample_bodies fleet true
              (request_for pkB_text) pkB (conn_of streamB) Hpk Hlook)
    as (Hsurf & _ & _ & _ & _ & _ & _ & Hslot).
  split; [exact Hpk|]. split; [exact Hlook|]. split; [exact Hsurf | exact Hslot].
Defined.

